(** * Juju agent components: Kubernetes cloud region parsing, the metrics
    cleanup worker, the termination worker manifold and the dependency
    engine that hosts them.

    The Go sources are embedded shallowly: strings are [string] (byte
    sequences), Go [int] indices are [Z], Go maps are [gmap], a function
    that can both fail and update a structure passed by pointer returns the
    new structure next to its result. *)

From Stdlib Require Import ZArith Ascii String List Lia Bool.
From stdpp Require Import base option gmap strings list fin_maps sorting.

Local Open Scope string_scope.
Local Open Scope Z_scope.
Local Open Scope list_scope.

(* ===================================================================== *)
(** * Go's [strings] package, as far as cloud.go uses it *)
(* ===================================================================== *)

Module GoStrings.

(** [len(s)] *)
Definition len (s : string) : Z := Z.of_nat (String.length s).

(** [strings.HasPrefix(s, prefix)] *)
Fixpoint HasPrefix (s pre : string) {struct pre} : bool :=
  match pre, s with
  | EmptyString, _ => true
  | String _ _, EmptyString => false
  | String c pre', String d s' =>
      if Ascii.eqb c d then HasPrefix s' pre' else false
  end.

(** [strings.Index(s, substr)]: the index of the first instance of
    [substr] in [s], or -1. *)
Fixpoint Index (s substr : string) : Z :=
  if HasPrefix s substr then 0
  else match s with
       | EmptyString => -1
       | String _ s' =>
           let m := Index s' substr in
           if m <? 0 then -1 else m + 1
       end.

(** The slice expressions [s[:hi]] and [s[lo:]]. *)
Fixpoint take (n : nat) (s : string) : string :=
  match n, s with
  | S n', String c s' => String c (take n' s')
  | _, _ => EmptyString
  end.

Fixpoint drop (n : nat) (s : string) : string :=
  match n, s with
  | S n', String _ s' => drop n' s'
  | _, _ => s
  end.

Definition slice_to (s : string) (hi : Z) : string := take (Z.to_nat hi) s.
Definition slice_from (s : string) (lo : Z) : string := drop (Z.to_nat lo) s.

(** [strings.Count(s, substr)] for a non-empty [substr]: the number of
    non-overlapping instances.  The recursion is on the number of bytes
    that are left. *)
Fixpoint Count_fuel (fuel : nat) (s substr : string) : Z :=
  match fuel with
  | O => 0
  | S fuel' =>
      let m := Index s substr in
      if m <? 0 then 0
      else 1 + Count_fuel fuel' (slice_from s (m + len substr)) substr
  end.

Definition Count (s substr : string) : Z :=
  Count_fuel (S (String.length s)) s substr.

(** The loop of [genSplit]:
[[
    for i < n {
      m := Index(s, sep)
      if m < 0 { break }
      a[i] = s[:m+sepSave]
      s = s[m+len(sep):]
      i++
    }
    a[i] = s
    return a[:i+1]
]]
    [iters] is the number of iterations that are left ([n - i]). *)
Fixpoint genSplit_loop (iters : nat) (s sep : string) (sepSave : Z)
  : list string :=
  match iters with
  | O => [s]
  | S iters' =>
      let m := Index s sep in
      if m <? 0 then [s]
      else slice_to s (m + sepSave)
             :: genSplit_loop iters' (slice_from s (m + len sep)) sep sepSave
  end.

Section GenSplit.
(** [explode] splits a string into UTF-8 sequences; [genSplit] calls it
    for the empty separator only, which no call in cloud.go passes. *)
Variable explode : string → Z → list string.

Definition genSplit (s sep : string) (sepSave n : Z) : list string :=
  if n =? 0 then []
  else if String.eqb sep "" then explode s n
  else
    let n := if n <? 0 then Count s sep + 1 else n in
    let n := if n >? len s + 1 then len s + 1 else n in
    genSplit_loop (Z.to_nat (n - 1)) s sep sepSave.

(** [strings.SplitN(s, sep, n)] *)
Definition SplitN (s sep : string) (n : Z) : list string :=
  genSplit s sep 0 n.
End GenSplit.

(** [Contains s sub]: [sub] occurs in [s], the meaning of
    [strings.Contains], stated without reference to [Index]. *)
Definition Contains (s sub : string) : Prop :=
  ∃ a b, s = a +:+ sub +:+ b.

End GoStrings.

(* ===================================================================== *)
(** * Errors *)
(* ===================================================================== *)

(** Error values of github.com/juju/errors and of the provider package, as
    a tree: the wrappers [Trace], [Annotatef] and [Wrap] build a new error
    value around the one they are given.  The last constructors are the
    errors of the dependency engine. *)
Inductive error : Type :=
  | NotValidf (format : string) (args : list string)
  | NotFoundf (format : string) (args : list string)
  | Errorf (msg : string)
  | Trace (e : error)
  | Annotatef (e : error) (format : string) (args : list string)
  | Wrap (other newDescriptive : error)
  | ClusterQueryError (Message : string)
  | UnknownClusterError (CloudName : string)
  | NoRecommendedStorageError (Message ProviderName : string)
  | NonPreferredStorageError (Name Provisioner : string)
      (Parameters : option (gmap string string))
  | ErrMissing
  | ErrBounce
  | ErrUninstalled
  | ErrTerminateAgent
  | ErrDuplicateName
  | ErrStillDepended
  | ErrCycleDetected
  | ErrTypeMismatch
  | ErrStopTimeout.


Module errors.

(** [errors.Cause]: the wrappers made by [Trace] and [Annotatef] keep the
    cause of the error they wrap, [Wrap] makes its second argument the
    cause, and an error that is no wrapper is its own cause. *)
Fixpoint Cause (err : error) : error :=
  match err with
  | Trace e => Cause e
  | Annotatef e _ _ => Cause e
  | Wrap _ newDescriptive => newDescriptive
  | _ => err
  end.

(** [errors.IsNotFound]; [nil] is not a not-found error. *)
Definition IsNotFound (err : option error) : bool :=
  match err with
  | Some e => match Cause e with NotFoundf _ _ => true | _ => false end
  | None => false
  end.

(** [errors.New]: the error with the given message, the one [Errorf]
    makes of a format without verbs. *)
Definition New (message : string) : error := Errorf message.

End errors.
(* ===================================================================== *)
(** * caas/kubernetes/provider/cloud.go *)
(* ===================================================================== *)

(** A Go call either returns or panics. *)
Inductive outcome (A : Type) : Type :=
  | Returns (a : A)
  | Panics.
Arguments Returns {A} a.
Arguments Panics {A}.

(** A value of type [interface{}], as stored in a cloud's [Config]. *)
Inductive iface : Type :=
  | IString (s : string)
  | IInt (z : Z)
  | IBool (b : bool)
  | INil.

Module cloud.

(** [cloud.Region], with the fields cloud.go reads or writes. *)
Record Region : Type := mkRegion {
  Region_Name : string;
  Region_Endpoint : string }.

(** [cloud.Cloud], with the fields cloud.go reads or writes.  A nil map or
    slice is [None]. *)
Record Cloud : Type := mkCloud {
  Name : string;
  Type_ : string;
  AuthTypes : list string;
  Endpoint : string;
  Regions : option (list Region);
  Config : option (gmap string iface);
  CACertificates : list string;
  HostCloudRegion : string }.

End cloud.

Module caas.

(** [caas.StorageProvisioner] *)
Record StorageProvisioner : Type := mkStorageProvisioner {
  Name : string;
  Provisioner : string;
  Parameters : option (gmap string string) }.

(** [caas.ClusterMetadata]; [Regions] is a [set.Strings], a map that can
    be nil. *)
Record ClusterMetadata : Type := mkClusterMetadata {
  NominatedStorageClass : option StorageProvisioner;
  OperatorStorageClass : option StorageProvisioner;
  Cloud : string;
  Regions : option (gset string) }.

(** [set.Strings.Size] and [set.Strings.SortedValues] *)
Definition Size (s : gset string) : Z := Z.of_nat (size s).
Definition SortedValues (s : gset string) : list string :=
  merge_sort String.le (elements s).

Section Checker.
(** The cluster the checker talks to. *)
Variable World : Type.

(** [caas.ClusterMetadataChecker]: the methods cloud.go calls. *)
Record ClusterMetadataChecker : Type := mkChecker {
  CheckDefaultWorkloadStorage :
    string → option StorageProvisioner → World → option error * World;
  EnsureStorageProvisioner :
    StorageProvisioner → World
    → (option StorageProvisioner * option error) * World }.
End Checker.
Arguments CheckDefaultWorkloadStorage {World}.
Arguments EnsureStorageProvisioner {World}.

Section Broker.
Variable World : Type.

(** A broker, as [FinalizeCloud] uses one: a
    [caas.ClusterMetadataChecker] with, beside the two methods above,
    its method [GetClusterMetadata]. *)
Record ClusterMetadataBroker : Type := mkBroker {
  Checker : ClusterMetadataChecker World;
  GetClusterMetadata :
    string → World → (option ClusterMetadata * option error) * World }.
End Broker.
Arguments Checker {World}.
Arguments GetClusterMetadata {World}.

End caas.

Module clientconfig.

(** [clientconfig.Context] *)
Record Context : Type := mkContext {
  CloudName : string;
  CredentialName : string }.

(** [clientconfig.CloudConfig]; a nil map is [None]. *)
Record CloudConfig : Type := mkCloudConfig {
  Endpoint : string;
  Attributes : option (gmap string iface) }.

Section ClientConfig.
(** [cloud.Credential] *)
Variable Credential : Type.

(** [clientconfig.ClientConfig], with the fields cloud.go reads. *)
Record ClientConfig : Type := mkClientConfig {
  Contexts : option (gmap string Context);
  Clouds : option (gmap string CloudConfig);
  Credentials : option (gmap string Credential) }.
End ClientConfig.
Arguments Contexts {Credential}.
Arguments Clouds {Credential}.
Arguments Credentials {Credential}.

End clientconfig.

Module Provider.
Import GoStrings.

Section ParseCloudRegion.
Variable explode : string → Z → list string.

(** [ParseCloudRegion] breaks apart a clusters cloud region. *)
Definition ParseCloudRegion (cloudRegion : string)
  : string * string * option error :=
  let fields := SplitN explode cloudRegion "/" 2 in
  match fields with
  | [f0; f1] =>
      if String.eqb f0 "" || String.eqb f1 ""
      then ("", "", Some (NotValidf "cloud region %q" [cloudRegion]))
      else (f0, f1, None)
  | _ => ("", "", Some (NotValidf "cloud region %q" [cloudRegion]))
  end.
End ParseCloudRegion.

Section UpdateKubeCloudWithStorage.
Variable explode : string → Z → list string.
Variable World : Type.

(** Functions and constants of the repository that cloud.go uses and
    whose definitions are in other files. *)
Variable BuildHostCloudRegion : string → string → string.
Variable SplitHostCloudRegion : string → list string.
Variable IsNonPreferredStorageError : option error → bool.
Variable WorkloadStorageKey OperatorStorageKey : string.
(** [%q] of [fmt.Sprintf] *)
Variable quote : string → string.

(** [GetClusterMetadataFunc] *)
Definition GetClusterMetadataFunc : Type :=
  caas.ClusterMetadataChecker World → World
  → (option caas.ClusterMetadata * option error) * World.

(** [KubeCloudStorageParams] *)
Record KubeCloudStorageParams : Type := mkStorageParams {
  WorkloadStorage : string;
  HostCloudRegion : string;
  MetadataChecker : caas.ClusterMetadataChecker World;
  GetClusterMetadata : GetClusterMetadataFunc }.

(** [error.Error()] of the errors a metadata query returns: the text
    the error carries. *)
Variable Error : error → string.

Definition set_region (k8sCloud : cloud.Cloud) (hostCloudRegion region : string)
  : cloud.Cloud :=
  cloud.mkCloud (cloud.Name k8sCloud) (cloud.Type_ k8sCloud)
    (cloud.AuthTypes k8sCloud) (cloud.Endpoint k8sCloud)
    (Some [cloud.mkRegion region ""])
    (cloud.Config k8sCloud) (cloud.CACertificates k8sCloud)
    hostCloudRegion.

Definition set_config (k8sCloud : cloud.Cloud) (cfg : gmap string iface)
  : cloud.Cloud :=
  cloud.mkCloud (cloud.Name k8sCloud) (cloud.Type_ k8sCloud)
    (cloud.AuthTypes k8sCloud) (cloud.Endpoint k8sCloud)
    (cloud.Regions k8sCloud)
    (Some cfg) (cloud.CACertificates k8sCloud)
    (cloud.HostCloudRegion k8sCloud).

(** [if _, ok := m[key]; !ok { m[key] = v }] *)
Definition set_default (key : string) (v : iface) (m : gmap string iface)
  : gmap string iface :=
  match m !! key with
  | Some _ => m
  | None => <[key := v]> m
  end.

(** Lines 146 to 207: the storage message, the operator storage name
    and the two configuration defaults.  [err] is the result of
    [CheckDefaultWorkloadStorage]. *)
Definition finish_storage (k8sCloud : cloud.Cloud)
    (storageParams : KubeCloudStorageParams)
    (clusterMetadata : caas.ClusterMetadata) (err : option error)
    (w : World)
  : outcome (string * option error) * cloud.Cloud * World :=
  let workloadStorage := WorkloadStorage storageParams in
  (* lines 149-178 *)
  let step :=
    if negb (String.eqb workloadStorage "") then
      let nonPreferredStorageErr :=
        match errors.Cause <$> err with
        | Some (NonPreferredStorageError n p ps) => Some (n, p, ps)
        | _ => None
        end in
      let provisioner :=
        match nonPreferredStorageErr with
        | Some (_, p, _) => p | None => "" end in
      let params :=
        match nonPreferredStorageErr with
        | Some (_, _, ps) => ps | None => None end in
      let '(sp, err', w') :=
        caas.EnsureStorageProvisioner (MetadataChecker storageParams)
          (caas.mkStorageProvisioner workloadStorage provisioner params) w in
      match err' with
      | Some e =>
          if errors.IsNotFound err' then
            inl (Returns ("", Some (Wrap e
                   (NotFoundf "storage class %q" [workloadStorage]))), w')
          else
            inl (Returns ("", Some (Annotatef e
                   "creating storage class %q" [workloadStorage])), w')
      | None =>
          match nonPreferredStorageErr with
          | Some (name, _, _) =>
              match sp with
              | None => inl (Panics, w')
              | Some sp =>
                  if String.eqb (caas.Provisioner sp) provisioner then
                    let storageMsg :=
                      " with " +:+ name +:+ " default storage" in
                    let storageMsg :=
                      if negb (String.eqb workloadStorage "") then
                        storageMsg
                        +:+ " provisioned" +:+ String "010"%char ""
                        +:+ "by the existing "
                        +:+ quote workloadStorage +:+ " storage class"
                      else storageMsg in
                    inr (storageMsg, w')
                  else
                    inr (" with storage provisioned"
                         +:+ String "010"%char "" +:+ "by the existing "
                         +:+ quote workloadStorage +:+ " storage class",
                         w')
              end
          | None =>
              inr (" with storage provisioned"
                   +:+ String "010"%char "" +:+ "by the existing "
                   +:+ quote workloadStorage +:+ " storage class", w')
          end
      end
    else inr ("", w) in
  match step with
  | inl (res, w') => (res, k8sCloud, w')
  | inr (storageMsg, w') =>
      (* lines 179-181 *)
      let workloadStorage :=
        match caas.NominatedStorageClass clusterMetadata with
        | Some nominated =>
            if String.eqb workloadStorage "" then caas.Name nominated
            else workloadStorage
        | None => workloadStorage
        end in
      (* lines 183-196 *)
      let '(operatorStorageName, storageMsg) :=
        match caas.OperatorStorageClass clusterMetadata with
        | Some operator => (caas.Name operator, storageMsg +:+ ".")
        | None =>
            (workloadStorage,
             (if String.eqb storageMsg ""
              then storageMsg +:+ String "010"%char "" +:+ "with "
              else storageMsg +:+ String "010"%char "")
             +:+ "operator storage provisioned by the workload storage class.")
        end in
      (* lines 198-206 *)
      let cfg := default ∅ (cloud.Config k8sCloud) in
      let cfg := set_default WorkloadStorageKey (IString workloadStorage) cfg in
      let cfg := set_default OperatorStorageKey (IString operatorStorageName) cfg in
      (Returns (storageMsg, None), set_config k8sCloud cfg, w')
  end.

(** Lines 112 to 117: the host cloud region of the parameters, or,
    when that is empty and the cluster reports regions, the one built
    from the cluster's cloud and its first region in sorted order. *)
Definition hostCloudRegion_of (storageParams : KubeCloudStorageParams)
    (clusterMetadata : caas.ClusterMetadata) : outcome string :=
  if String.eqb (HostCloudRegion storageParams) "" then
    match caas.Regions clusterMetadata with
    | Some regions =>
        if caas.Size regions >? 0 then
          match caas.SortedValues regions with
          | first :: _ =>
              Returns
                (BuildHostCloudRegion (caas.Cloud clusterMetadata) first)
          | [] => Panics
          end
        else Returns (HostCloudRegion storageParams)
    | None => Returns (HostCloudRegion storageParams)
    end
  else Returns (HostCloudRegion storageParams).

(** [UpdateKubeCloudWithStorage] updates the passed Cloud with storage
    details retrieved from the clouds' cluster.  The cloud behind the
    pointer [k8sCloud] is an argument and, as it is when the call ends,
    a result. *)
Definition UpdateKubeCloudWithStorage (k8sCloud : cloud.Cloud)
    (storageParams : KubeCloudStorageParams) (w : World)
  : outcome (string * option error) * cloud.Cloud * World :=
  (* lines 101-110 *)
  let '(clusterMetadata, err, w) :=
    GetClusterMetadata storageParams (MetadataChecker storageParams) w in
  match err, clusterMetadata with
  | Some e, _ =>
      (Returns ("", Some (ClusterQueryError (Error e))), k8sCloud, w)
  | None, None =>
      (Returns ("", Some (ClusterQueryError "cannot get cluster metadata")),
       k8sCloud, w)
  | None, Some clusterMetadata =>
      match hostCloudRegion_of storageParams clusterMetadata with
      | Panics => (Panics, k8sCloud, w)
      | Returns hostCloudRegion =>
          (* lines 118-120 *)
          if String.eqb hostCloudRegion "" then
            (Returns ("", Some (ClusterQueryError "")), k8sCloud, w)
          else
            (* lines 121-124 *)
            match ParseCloudRegion explode hostCloudRegion with
            | (_, _, Some e) =>
                (Returns ("", Some (Annotatef e
                    "validating cloud region %q" [hostCloudRegion])),
                 k8sCloud, w)
            | (_, region, None) =>
                (* lines 125-128 *)
                let k8sCloud := set_region k8sCloud hostCloudRegion region in
                (* lines 131-132 *)
                match SplitHostCloudRegion hostCloudRegion with
                | [] => (Panics, k8sCloud, w)
                | cloudType :: _ =>
                    let '(err, w) :=
                      caas.CheckDefaultWorkloadStorage
                        (MetadataChecker storageParams) cloudType
                        (caas.NominatedStorageClass clusterMetadata) w in
                    let storageParams :=
                      mkStorageParams (WorkloadStorage storageParams)
                        hostCloudRegion (MetadataChecker storageParams)
                        (GetClusterMetadata storageParams) in
                    (* lines 134-145 *)
                    if String.eqb (WorkloadStorage storageParams) "" then
                      if errors.IsNotFound err then
                        (Returns ("", Some (UnknownClusterError cloudType)),
                         k8sCloud, w)
                      else if IsNonPreferredStorageError err then
                        match err with
                        | Some (NonPreferredStorageError name _ _ as e) =>
                            (Returns ("", Some (NoRecommendedStorageError
                                                  (Error e) name)),
                             k8sCloud, w)
                        | _ => (Panics, k8sCloud, w)
                        end
                      else
                        match err with
                        | Some e =>
                            (Returns ("", Some (Trace e)), k8sCloud, w)
                        | None =>
                            finish_storage k8sCloud storageParams
                              clusterMetadata err w
                        end
                    else
                      finish_storage k8sCloud storageParams
                        clusterMetadata err w
                end
            end
      end
  end.

End UpdateKubeCloudWithStorage.

(** ** Clouds and credentials from a kubeconfig *)

(** [m[key]] of a map that can be nil: the value and whether the key is
    there. *)
Definition index {A} (m : option (gmap string A)) (key : string) : option A :=
  m ≫= (.!! key).

(** [cloud.Cloud{}] *)
Definition zeroCloud : cloud.Cloud :=
  cloud.mkCloud "" "" [] "" None None [] "".

Section CloudFromKubeConfig.
Variable World : Type.

(** Types and values of the repository declared in other files:
    [io.Reader], [cloud.Credential] with its zero value and its method
    [AuthType], [clientconfig.K8sCredentialResolver] and
    [clientconfig.EnsureK8sCredential]. *)
Variables Reader Credential K8sCredentialResolver : Type.
Variable zeroCredential : Credential.
Variable AuthType : Credential → string.
Variable EnsureK8sCredential : K8sCredentialResolver.

(** [reflect.Value.MapKeys], in strings: the keys of the map, in an
    order that is not specified. *)
Variable MapKeys : gmap string clientconfig.Context → list string.

(** [clientconfig.ClientConfigFunc] *)
Definition ClientConfigFunc : Type :=
  Reader → string → string → K8sCredentialResolver → World
  → (option (clientconfig.ClientConfig Credential) * option error) * World.

(** [ClientConfigFuncGetter]; a nil function is [None]. *)
Definition ClientConfigFuncGetter : Type :=
  string → World → (option ClientConfigFunc * option error) * World.

(** [KubeCloudParams] *)
Record KubeCloudParams : Type := mkKubeCloudParams {
  ClusterName : string;
  ContextName : string;
  CaasName : string;
  KubeCloudParams_HostCloudRegion : string;
  CaasType : string;
  ClientConfigGetter : ClientConfigFuncGetter }.

(** [newCloudCredentialFromKubeConfig]: the cloud, the credential, the
    credential's name and the error.  The debug line of the logger is
    left out. *)
Definition newCloudCredentialFromKubeConfig (reader : Reader)
    (cloudParams : KubeCloudParams) (w : World)
  : outcome (cloud.Cloud * Credential * string * option error) * World :=
  let fail (credential : Credential) (e : error) :=
    (zeroCloud, credential, "", Some e) in
  let '(clientConfigFunc, err, w) :=
    ClientConfigGetter cloudParams (CaasType cloudParams) w in
  match err with
  | Some e => (Returns (fail zeroCredential (Trace e)), w)
  | None =>
  match clientConfigFunc with
  | None => (Panics, w)
  | Some clientConfigFunc =>
  let '(caasConfig, err, w) :=
    clientConfigFunc reader (ContextName cloudParams)
      (ClusterName cloudParams) EnsureK8sCredential w in
  match err with
  | Some e => (Returns (fail zeroCredential (Trace e)), w)
  | None =>
  match caasConfig with
  | None => (Panics, w)
  | Some caasConfig =>
  let contexts := default ∅ (clientconfig.Contexts caasConfig) in
  if (Z.of_nat (size contexts) =? 0) then
    (Returns (fail zeroCredential
                (Errorf "No k8s cluster definitions found in config")), w)
  else
  match MapKeys contexts with
  | [] => (Panics, w)
  | key :: _ =>
  let context :=
    default (clientconfig.mkContext "" "") (contexts !! key) in
  let credential :=
    default zeroCredential
      (index (clientconfig.Credentials caasConfig)
         (clientconfig.CredentialName context)) in
  let currentCloud :=
    default (clientconfig.mkCloudConfig "" None)
      (index (clientconfig.Clouds caasConfig)
         (clientconfig.CloudName context)) in
  match index (clientconfig.Attributes currentCloud) "CAData" with
  | Some (IString cloudCAData) =>
      (Returns
         (cloud.mkCloud (CaasName cloudParams) (CaasType cloudParams)
            [AuthType credential] (clientconfig.Endpoint currentCloud)
            None None [cloudCAData]
            (KubeCloudParams_HostCloudRegion cloudParams),
          credential, clientconfig.CredentialName context, None), w)
  | _ =>
      (Returns (fail credential
                  (Errorf "CAData attribute should be a string")), w)
  end
  end
  end
  end
  end
  end.

(** [CloudFromKubeConfig] attempts to extract a cloud and credential
    details from the provided Kubeconfig. *)
Definition CloudFromKubeConfig (reader : Reader)
    (cloudParams : KubeCloudParams) (w : World)
  : outcome (cloud.Cloud * Credential * string * option error) * World :=
  newCloudCredentialFromKubeConfig reader cloudParams w.

End CloudFromKubeConfig.

(** ** MicroK8s *)

(** [exec.RunParams] and [exec.ExecResponse], with the fields cloud.go
    sets or reads; [Stdout] and [Stderr] are the strings that
    [string(...)] makes of the bytes. *)
Record RunParams : Type := mkRunParams { Commands : string }.
Record ExecResponse : Type := mkExecResponse {
  Code : Z;
  Stdout : string;
  Stderr : string }.

(** [microk8sStatus]; a nil map is [None]. *)
Record microk8sStatus : Type := mkMicrok8sStatus {
  Addons : option (gmap string string) }.

Section MicroK8s.
Variable World : Type.

(** [CommandRunner]; the response is behind a pointer, [None] when
    nil. *)
Record CommandRunner : Type := mkCommandRunner {
  RunCommands :
    RunParams → World → (option ExecResponse * option error) * World }.

(** [yaml.Unmarshal(in, &status)]: the status after the call, and the
    error. *)
Variable Unmarshal :
  string → microk8sStatus → microk8sStatus * option error.

Definition microK8sStatus (cmdRunner : CommandRunner) (w : World)
  : outcome (microk8sStatus * option error) * World :=
  let status := mkMicrok8sStatus None in
  let '(result, err, w) :=
    RunCommands cmdRunner
      (mkRunParams "microk8s.status --wait-ready --timeout 15 --yaml") w in
  match err with
  | Some e => (Returns (status, Some (Trace e)), w)
  | None =>
      match result with
      | None => (Panics, w)
      | Some result =>
          if negb (Code result =? 0) then
            let msg := Stderr result in
            let msg := if String.eqb msg "" then Stdout result else msg in
            let msg :=
              if String.eqb msg ""
              then "unknown error running microk8s.status" else msg in
            (Returns (status, Some (errors.New msg)), w)
          else
            let '(status, err) := Unmarshal (Stdout result) status in
            match err with
            | Some e => (Returns (status, Some (Trace e)), w)
            | None => (Returns (status, None), w)
            end
      end
  end.

Definition ensureMicroK8sSuitable (cmdRunner : CommandRunner) (w : World)
  : outcome (option error) * World :=
  match microK8sStatus cmdRunner w with
  | (Panics, w) => (Panics, w)
  | (Returns (_, Some err), w) => (Returns (Some (Trace err)), w)
  | (Returns (status, None), w) =>
      match
        match index (Addons status) "storage" with
        | Some storageStatus =>
            if negb (String.eqb storageStatus "enabled") then
              Some (errors.New
                "storage is not enabled for microk8s, run 'microk8s.enable storage'")
            else None
        | None => None
        end
      with
      | Some e => (Returns (Some e), w)
      | None =>
          match index (Addons status) "dns" with
          | Some dns =>
              if negb (String.eqb dns "enabled") then
                (Returns (Some (errors.New
                   "dns is not enabled for microk8s, run 'microk8s.enable dns'")),
                 w)
              else (Returns None, w)
          | None => (Returns None, w)
          end
      end
  end.

(** *** [BaseKubeCloudOpenParams] and [FinalizeCloud] *)

(** Types, constants and functions of other packages:
    [cloud.Credential], [utils.UUID] with [utils.NewUUID] and
    [String], [config.Config] with [config.New], [config.NoDefaults]
    and the keys of its attributes, [environs.CloudSpec] with
    its zero value and [environs.MakeCloudSpec], and
    [caas.K8sCloudMicrok8s]. *)
Variables Credential UUID Config Defaulting CloudSpec : Type.
Variable NewUUID : World → (UUID * option error) * World.
Variable UUID_String : UUID → string.
Variable NoDefaults : Defaulting.
Variable NameKey TypeKey UUIDKey : string.
Variable config_New :
  Defaulting → gmap string iface → option Config * option error.
Variable zeroCloudSpec : CloudSpec.
Variable MakeCloudSpec :
  cloud.Cloud → string → Credential → CloudSpec * option error.
Variable K8sCloudMicrok8s : string.

(** [environs.OpenParams], with the fields cloud.go sets; the
    configuration is behind a pointer. *)
Record OpenParams : Type := mkOpenParams {
  OpenParams_Cloud : CloudSpec;
  OpenParams_Config : option Config }.

(** [BaseKubeCloudOpenParams] provides a basic OpenParams for a
    cluster. *)
Definition BaseKubeCloudOpenParams (cloud : cloud.Cloud)
    (credential : Credential) (w : World)
  : (OpenParams * option error) * World :=
  let '(uuid, err, w) := NewUUID w in
  match err with
  | Some e => ((mkOpenParams zeroCloudSpec None, Some (Trace e)), w)
  | None =>
      let attrs : gmap string iface :=
        <[UUIDKey := IString (UUID_String uuid)]>
          (<[TypeKey := IString "kubernetes"]>
             (<[NameKey := IString "add-cloud"]> ∅)) in
      let '(cfg, err) := config_New NoDefaults attrs in
      match err with
      | Some e => ((mkOpenParams zeroCloudSpec None, Some (Trace e)), w)
      | None =>
          let '(cloudSpec, err) := MakeCloudSpec cloud "" credential in
          match err with
          | Some e =>
              ((mkOpenParams zeroCloudSpec None, Some (Trace e)), w)
          | None => ((mkOpenParams cloudSpec cfg, None), w)
          end
      end
  end.

(** The functions and constants [UpdateKubeCloudWithStorage] uses. *)
Variable explode : string → Z → list string.
Variable BuildHostCloudRegion : string → string → string.
Variable SplitHostCloudRegion : string → list string.
Variable IsNonPreferredStorageError : option error → bool.
Variable WorkloadStorageKey OperatorStorageKey : string.
Variable quote : string → string.
Variable Error : error → string.

(** [kubernetesEnvironProvider], with the fields [FinalizeCloud]
    reads.  A nil broker is [None]. *)
Record kubernetesEnvironProvider : Type := mkProvider {
  cmdRunner : CommandRunner;
  builtinCloudGetter :
    CommandRunner → World
    → (cloud.Cloud * Credential * string * option error) * World;
  brokerGetter :
    OpenParams → World
    → (option (caas.ClusterMetadataBroker World) * option error) * World }.

(** [opStorage != ""], of a value of type [interface{}] *)
Definition not_empty_string (v : iface) : bool :=
  match v with
  | IString s => negb (String.eqb s "")
  | _ => true
  end.

(** The function [FinalizeCloud] gives as [GetClusterMetadataFunc]:
[[
  func(broker caas.ClusterMetadataChecker) ... {
    clusterMetadata, err := broker.GetClusterMetadata("")
    if err != nil {
      return nil, errors.Trace(err)
    }
    return clusterMetadata, nil
  }
]]
    The checker it is called with is the one of the parameters, the
    broker itself. *)
Definition getClusterMetadata (broker : caas.ClusterMetadataBroker World)
  : GetClusterMetadataFunc World :=
  λ _ w,
    let '(clusterMetadata, err, w) :=
      caas.GetClusterMetadata broker "" w in
    match err with
    | Some e => ((None, Some (Trace e)), w)
    | None => ((clusterMetadata, None), w)
    end.

(** The loop at the end of [FinalizeCloud]:
[[
  for i := range mk8sCloud.Regions {
    if mk8sCloud.Regions[i].Endpoint == "" {
      mk8sCloud.Regions[i].Endpoint = mk8sCloud.Endpoint
    }
  }
]] *)
Definition fill_endpoints (mk8sCloud : cloud.Cloud) : cloud.Cloud :=
  cloud.mkCloud (cloud.Name mk8sCloud) (cloud.Type_ mk8sCloud)
    (cloud.AuthTypes mk8sCloud) (cloud.Endpoint mk8sCloud)
    ((λ regions : list cloud.Region,
        (λ r, if String.eqb (cloud.Region_Endpoint r) ""
              then cloud.mkRegion (cloud.Region_Name r)
                     (cloud.Endpoint mk8sCloud)
              else r) <$> regions) <$> cloud.Regions mk8sCloud)
    (cloud.Config mk8sCloud) (cloud.CACertificates mk8sCloud)
    (cloud.HostCloudRegion mk8sCloud).

(** [FinalizeCloud] is part of the environs.CloudFinalizer interface.
    Its context argument is not used.  With a nil broker, the first
    thing [UpdateKubeCloudWithStorage] does, the call of the function
    above, panics. *)
Definition FinalizeCloud (p : kubernetesEnvironProvider)
    (cld : cloud.Cloud) (w : World)
  : outcome (cloud.Cloud * option error) * World :=
  if negb (String.eqb (cloud.Name cld) K8sCloudMicrok8s) then
    (Returns (cld, None), w)
  else
  match ensureMicroK8sSuitable (cmdRunner p) w with
  | (Panics, w) => (Panics, w)
  | (Returns (Some err), w) => (Returns (cld, Some (Trace err)), w)
  | (Returns None, w) =>
  if match index (cloud.Config cld) OperatorStorageKey with
     | Some opStorage => not_empty_string opStorage
     | None => false
     end
  then (Returns (cld, None), w)
  else
  let '(mk8sCloud, credential, _, err, w) :=
    builtinCloudGetter p (cmdRunner p) w in
  match err with
  | Some e => (Returns (zeroCloud, Some (Trace e)), w)
  | None =>
  let '(openParams, err, w) :=
    BaseKubeCloudOpenParams mk8sCloud credential w in
  match err with
  | Some e => (Returns (zeroCloud, Some (Trace e)), w)
  | None =>
  let '(broker, err, w) := brokerGetter p openParams w in
  match err with
  | Some e => (Returns (zeroCloud, Some (Trace e)), w)
  | None =>
  match broker with
  | None => (Panics, w)
  | Some broker =>
  let storageUpdateParams :=
    mkStorageParams World "" "" (caas.Checker broker)
      (getClusterMetadata broker) in
  match
    UpdateKubeCloudWithStorage explode World BuildHostCloudRegion
      SplitHostCloudRegion IsNonPreferredStorageError
      WorkloadStorageKey OperatorStorageKey quote Error
      mk8sCloud storageUpdateParams w
  with
  | (Panics, _, w) => (Panics, w)
  | (Returns (_, Some e), _, w) =>
      (Returns (zeroCloud, Some (Trace e)), w)
  | (Returns (_, None), mk8sCloud, w) =>
      (Returns (fill_endpoints mk8sCloud, None), w)
  end
  end
  end
  end
  end
  end.

End MicroK8s.

End Provider.
(* ===================================================================== *)
(** * The dependency engine *)
(* ===================================================================== *)

(** The termination worker's manifold is a value of the engine's package
    gopkg.in/juju/worker.v1/dependency, whose source is not part of the
    files at hand.  The engine is therefore modelled from its specification,
    as a state machine: the control loop is a function from an engine state
    and an event to an engine state, workers and start functions run outside
    of it and reach it through events only. *)

Module dependency.

(** Modelled from the spec: the lifecycle states of a worker record. *)
Inductive State : Type := Stopped | Starting | Started | Stopping.

Global Instance State_eq_dec : EqDecision State.
Proof. solve_decision. Defined.

(** Modelled from the spec: the error taxonomy, by escalation severity. *)
Inductive Class : Type := Missing | Bounce | Retryable | Fatal.

Global Instance Class_eq_dec : EqDecision Class.
Proof. solve_decision. Defined.

(** Modelled from the spec: the sentinel errors the engine recognizes
    regardless of filter remapping. *)
Definition isSentinel (err : error) : bool :=
  match err with
  | ErrMissing | ErrBounce | ErrUninstalled | ErrTerminateAgent => true
  | _ => false
  end.

(** Modelled from the spec: the class of an error.  "uninstalled" is
    purely informational and has no class; "terminate agent" and the
    violations of an engine invariant are fatal; every other error is
    retryable. *)
Definition classify (err : error) : option Class :=
  match err with
  | ErrMissing => Some Missing
  | ErrBounce => Some Bounce
  | ErrUninstalled => None
  | ErrTerminateAgent | ErrStopTimeout
  | ErrDuplicateName | ErrCycleDetected => Some Fatal
  | _ => Some Retryable
  end.

Definition isFatal (err : option error) : bool :=
  match err with
  | Some x => bool_decide (classify x = Some Fatal)
  | None => false
  end.

(** A typed output: the name of its Go type and the value. *)
Record value : Type := mkValue { vtype : string; vdata : iface }.

(** Modelled from the spec: the Context passed to a start function.  It
    holds the declared inputs of the component it is built for, the
    current output of those inputs that have one and the resource
    versions of the inputs at the time it is built. *)
Record Context : Type := mkContext {
  ctx_inputs : list string;
  ctx_outputs : gmap string value;
  ctx_versions : gmap string nat }.

(** Modelled from the spec: [get(name, outPtr)]; [ty] is the type of
    [outPtr]. *)
Definition Get (ctx : Context) (name ty : string) : value + error :=
  if bool_decide (name ∈ ctx_inputs ctx) then
    match ctx_outputs ctx !! name with
    | Some v =>
        if String.eqb (vtype v) ty then inl v else inr ErrTypeMismatch
    | None => inr ErrMissing
    end
  else inr ErrMissing.

Section Engine.
(** [Worker] are the worker handles, [Sys] is the state of the process
    a start function runs in. *)
Context {Worker Sys : Type}.

(** Modelled from the spec: the component contract, Go's
    [dependency.Manifold]: the declared inputs, the start function, the
    optional output function and the optional error filter. *)
Record Manifold : Type := mkManifold {
  Inputs : list string;
  Start : Context → Sys → (Worker * option error) * Sys;
  Output : option (Worker → value + error);
  Filter : option (error → error) }.

(** Modelled from the spec: a worker record.  Next to the state, the
    handle, the last error and the resource version, it holds the abort
    signal of the Context the worker was started with, whether a start
    may be attempted ([eligible]: not after a missing dependency until
    readiness changes, and not after a retryable failure until the
    backoff delay has passed), whether the record is marked for
    stop-then-remove, and the Context of the current start. *)
Record Entry : Type := mkEntry {
  decl : Manifold;
  state : State;
  handle : option Worker;
  lastErr : option error;
  version : nat;
  abort : bool;
  eligible : bool;
  removing : bool;
  context : option Context }.

(** What the engine did and saw, oldest first: a start function
    invoked, a stop requested (the abort signal raised), a start that
    gave a worker, and a worker that ended or a start that failed. *)
Inductive Item : Type :=
  | HStart (name : string) (ctx : Context)
  | HStop (name : string)
  | HUp (name : string)
  | HDown (name : string).

(** Modelled from the spec: the engine.  [history] is a ghost field. *)
Record Engine : Type := mkEngine {
  entries : gmap string Entry;
  dying : bool;
  firstFatal : option error;
  stopCause : option error;
  history : list Item }.

Definition fresh : Engine := mkEngine ∅ false None None [].

(** Modelled from the spec: the events the control loop consumes, in
    arrival order.  The last two are the timers of the stop grace
    period and of the restart backoff. *)
Inductive event : Type :=
  | Install (name : string) (d : Manifold)
  | Uninstall (name : string)
  | WorkerExited (name : string) (err : option error)
  | StopEngine (cause : option error)
  | StartCompleted (name : string) (result : Worker + error)
  | StopTimeout (name : string)
  | BackoffElapsed (name : string).

(** ** Updates of a record *)

Definition with_state (s : State) (en : Entry) : Entry :=
  mkEntry (decl en) s (handle en) (lastErr en) (version en) (abort en)
    (eligible en) (removing en) (context en).

Definition with_eligible (b : bool) (en : Entry) : Entry :=
  mkEntry (decl en) (state en) (handle en) (lastErr en) (version en)
    (abort en) b (removing en) (context en).

Definition with_removing (b : bool) (en : Entry) : Entry :=
  mkEntry (decl en) (state en) (handle en) (lastErr en) (version en)
    (abort en) (eligible en) b (context en).

(** The engine decides to stop a record that is starting or started. *)
Definition decideStop (en : Entry) : Entry :=
  match state en with
  | Starting | Started => with_state Stopping en
  | Stopped | Stopping => en
  end.

(** The abort signal is raised. *)
Definition signal (en : Entry) : Entry :=
  mkEntry (decl en) (state en) (handle en) (lastErr en) (version en)
    true (eligible en) (removing en) (context en).

(** A start function is invoked with [ctx]: the resource version
    advances. *)
Definition launch (ctx : Context) (en : Entry) : Entry :=
  mkEntry (decl en) Starting None (lastErr en) (S (version en)) false
    (eligible en) (removing en) (Some ctx).

(** The start function gave the worker [w]. *)
Definition started (w : Worker) (en : Entry) : Entry :=
  mkEntry (decl en) (state en) (Some w) (lastErr en) (version en)
    (abort en) (eligible en) (removing en) (context en).

(** The error a worker ended with, after the filter of its declaration;
    a sentinel is recognized regardless of the filter. *)
Definition applyFilter (d : Manifold) (err : error) : error :=
  if isSentinel err then err
  else match Filter d with
       | Some f => f err
       | None => err
       end.

(** Whether a start may be attempted after a worker ended with [err]:
    at once after a clean stop or a bounce request, not after a missing
    dependency or a failure. *)
Definition eligible_after (err : option error) : bool :=
  match err with
  | None => true
  | Some x =>
      match classify x with
      | None | Some Bounce => true
      | Some Missing | Some Retryable | Some Fatal => false
      end
  end.

(** The worker ended, or the start failed, with [err] (filtered). *)
Definition ended (err : option error) (en : Entry) : Entry :=
  mkEntry (decl en) Stopped None err (version en) false
    (eligible_after err) (removing en) None.

(** ** The dependency graph *)

Definition inputs_of (m : gmap string Entry) (n : string) : list string :=
  match m !! n with
  | Some en => Inputs (decl en)
  | None => []
  end.

(** The installed names that declare [n] among their inputs. *)
Definition dependents (m : gmap string Entry) (n : string) : gset string :=
  dom (filter (λ p, n ∈ Inputs (decl p.2)) m).

(** One step of [next] from every member of [S]. *)
Definition expand (next : string → gset string) (S : gset string)
  : gset string :=
  S ∪ ⋃ (next <$> elements S).

(** [closure next k S]: what is reached from [S] in at most [k] steps
    of [next]. *)
Fixpoint closure (next : string → gset string) (k : nat) (S : gset string)
  : gset string :=
  match k with
  | O => S
  | Datatypes.S k' => closure next k' (expand next S)
  end.

(** Every name that depends on [n], directly or through others. *)
Definition transitive_dependents (m : gmap string Entry) (n : string)
  : gset string :=
  closure (dependents m) (size m) (dependents m n).

(** The names the inputs [ins] lead to, directly or through the inputs
    of installed names. *)
Definition transitive_inputs (m : gmap string Entry) (ins : list string)
  : gset string :=
  closure (λ x, list_to_set (inputs_of m x)) (Datatypes.S (size m))
    (list_to_set ins).

(** Modelled from the spec: the inputs of a declaration must not,
    transitively, include its own name.  The check is made on the graph
    with the declaration in it. *)
Definition placeholder (d : Manifold) : Entry :=
  mkEntry d Stopped None None 0 false true false None.

Definition checkAcyclic (m : gmap string Entry) (name : string)
    (d : Manifold) : bool :=
  negb (bool_decide
          (name ∈ transitive_inputs (<[name := placeholder d]> m)
                    (Inputs d))).

(** ** Readiness and stop evaluation *)

(** The output of a started input is fetchable: it has a handle, and
    its output function, if it has one, gives a value. *)
Definition fetch (en : Entry) : option (option value) :=
  match handle en with
  | Some w =>
      match Output (decl en) with
      | Some f => match f w with
                  | inl v => Some (Some v)
                  | inr _ => None
                  end
      | None => Some None
      end
  | None => None
  end.

Definition input_ready (m : gmap string Entry) (i : string) : bool :=
  match m !! i with
  | Some en => bool_decide (state en = Started) && bool_decide (is_Some (fetch en))
  | None => false
  end.

(** Modelled from the spec: a stopped record is ready when the inputs
    of its declaration are all started and their outputs fetchable. *)
Definition start_ready (m : gmap string Entry) (en : Entry) : bool :=
  bool_decide (state en = Stopped) && eligible en && negb (removing en)
  && forallb (input_ready m) (Inputs (decl en)).

(** The Context built for a start of [d], bound to the current outputs
    and resource versions of its inputs. *)
Definition buildContext (m : gmap string Entry) (d : Manifold) : Context :=
  mkContext (Inputs d)
    (list_to_map
       (omap (λ i, en ← m !! i; v ← mjoin (fetch en); Some (i, v))
          (Inputs d)))
    (list_to_map
       (omap (λ i, en ← m !! i; Some (i, version en)) (Inputs d))).

(** Modelled from the spec: readiness evaluation.  Every ready record
    goes to [Starting] and its start function is invoked with a freshly
    built Context.  Nothing is started once shutdown has begun. *)
Definition readinessEval (e : Engine) : Engine :=
  if dying e then e
  else
    let m := entries e in
    mkEngine
      (map_imap (λ n en,
         Some (if start_ready m en
               then launch (buildContext m (decl en)) en else en)) m)
      (dying e) (firstFatal e) (stopCause e)
      (history e
       ++ omap (λ p, if start_ready m p.2
                     then Some (HStart p.1 (buildContext m (decl p.2)))
                     else None) (map_to_list m)).

(** A record the engine has decided to stop is asked to stop once none
    of its dependents is left running: stop order is dependents before
    dependencies. *)
Definition stop_ready (m : gmap string Entry) (n : string) (en : Entry)
  : bool :=
  bool_decide (state en = Stopping) && negb (abort en)
  && bool_decide
       (map_Forall (λ _ em, n ∈ Inputs (decl em) → state em = Stopped) m).

Definition stopEval (e : Engine) : Engine :=
  let m := entries e in
  mkEngine
    (map_imap (λ n en, Some (if stop_ready m n en then signal en else en)) m)
    (dying e) (firstFatal e) (stopCause e)
    (history e
     ++ omap (λ p, if stop_ready m p.1 p.2 then Some (HStop p.1) else None)
          (map_to_list m)).

(** A record marked for stop-then-remove is destroyed once it has
    reached [Stopped]. *)
Definition removeEval (e : Engine) : Engine :=
  mkEngine
    (filter (λ p, ¬ (removing p.2 = true ∧ state p.2 = Stopped)) (entries e))
    (dying e) (firstFatal e) (stopCause e) (history e).

Definition evaluate (e : Engine) : Engine :=
  readinessEval (removeEval (stopEval e)).

(** ** The handlers of the control loop *)

Definition with_entries (m : gmap string Entry) (e : Engine) : Engine :=
  mkEngine m (dying e) (firstFatal e) (stopCause e) (history e).

Definition record (it : Item) (e : Engine) : Engine :=
  mkEngine (entries e) (dying e) (firstFatal e) (stopCause e)
    (history e ++ [it]).

(** Modelled from the spec: global shutdown begins.  Every record that
    is starting or started is to be stopped; the first fatal error is
    kept, a later one does not override it. *)
Definition beginShutdown (err : option error) (e : Engine) : Engine :=
  mkEngine (decideStop <$> entries e) true
    (match firstFatal e with
     | Some f => Some f
     | None => err
     end)
    (stopCause e) (history e).

Definition escalate (err : option error) (e : Engine) : Engine :=
  if isFatal err then beginShutdown err e else e.

(** A bounce: the transitive dependents of [n] are to be stopped. *)
Definition bounceDependents (n : string) (e : Engine) : Engine :=
  let deps := transitive_dependents (entries e) n in
  with_entries
    (map_imap (λ x en,
       Some (if bool_decide (x ∈ deps) then decideStop en else en))
       (entries e)) e.

(** Readiness changed for the dependents of [n]. *)
Definition wakeDependents (n : string) (e : Engine) : Engine :=
  with_entries
    ((λ en, if bool_decide (n ∈ Inputs (decl en))
            then with_eligible true en else en) <$> entries e) e.

(** Modelled from the spec: [install(name, declaration)]. *)
Definition install (name : string) (d : Manifold) (e : Engine)
  : Engine * option error :=
  match entries e !! name with
  | Some _ => (e, Some ErrDuplicateName)
  | None =>
      if checkAcyclic (entries e) name d then
        (evaluate (with_entries (<[name := placeholder d]> (entries e)) e),
         None)
      else (e, Some ErrCycleDetected)
  end.

(** Modelled from the spec: [uninstall(name)]. *)
Definition uninstall (name : string) (e : Engine) : Engine * option error :=
  if bool_decide (dependents (entries e) name = ∅) then
    (evaluate
       (with_entries
          (alter (λ en, with_removing true (decideStop en)) name
             (entries e)) e),
     None)
  else (e, Some ErrStillDepended).

(** A worker is live when its record is started, or is being stopped
    and has a handle. *)
Definition live (en : Entry) : bool :=
  match state en, handle en with
  | Started, _ => true
  | Stopping, Some _ => true
  | _, _ => false
  end.

(** A start is in flight when the record is starting, or is being
    stopped and has no handle yet. *)
Definition in_flight (en : Entry) : bool :=
  match state en, handle en with
  | Starting, _ => true
  | Stopping, None => true
  | _, _ => false
  end.

(** Modelled from the spec: [workerExited(name, err)]. *)
Definition workerExited (name : string) (err : option error) (e : Engine)
  : Engine :=
  match entries e !! name with
  | Some en =>
      if live en then
        let err' := applyFilter (decl en) <$> err in
        let e := with_entries (<[name := ended err' en]> (entries e)) e in
        let e := record (HDown name) e in
        let e := bounceDependents name e in
        evaluate (escalate err' e)
      else e
  | None => e
  end.

(** Modelled from the spec: [startCompleted(name, result)]. *)
Definition startCompleted (name : string) (result : Worker + error)
    (e : Engine) : Engine :=
  match entries e !! name with
  | Some en =>
      if in_flight en then
        match result with
        | inl w =>
            match state en with
            | Starting =>
                let en' := started w (with_state Started en) in
                let e := with_entries (<[name := en']> (entries e)) e in
                let e := record (HUp name) e in
                evaluate (wakeDependents name e)
            | _ =>
                (* the stop was decided while the start was in flight *)
                with_entries (<[name := started w en]> (entries e)) e
            end
        | inr err =>
            let err' := Some (applyFilter (decl en) err) in
            let e := with_entries (<[name := ended err' en]> (entries e)) e in
            let e := record (HDown name) e in
            evaluate (escalate err' e)
        end
      else e
  | None => e
  end.

(** Modelled from the spec: [stopEngine(cause)]. *)
Definition stopEngine (cause : option error) (e : Engine) : Engine :=
  let e :=
    mkEngine (entries e) (dying e) (firstFatal e)
      (match stopCause e with
       | Some c => Some c
       | None => cause
       end) (history e) in
  evaluate (beginShutdown None e).

(** Modelled from the spec: a worker asked to stop did not end within
    the grace period, a fatal internal error. *)
Definition stopTimeout (name : string) (e : Engine) : Engine :=
  match entries e !! name with
  | Some en =>
      if bool_decide (state en = Stopping) && abort en then
        evaluate (beginShutdown (Some ErrStopTimeout) e)
      else e
  | None => e
  end.

(** Modelled from the spec: the backoff delay after a retryable
    failure has passed. *)
Definition backoffElapsed (name : string) (e : Engine) : Engine :=
  match entries e !! name with
  | Some en =>
      if bool_decide (state en = Stopped)
         && bool_decide (classify <$> lastErr en = Some (Some Retryable))
      then
        evaluate
          (with_entries (<[name := with_eligible true en]> (entries e)) e)
      else e
  | None => e
  end.

(** One turn of the control loop: the next state and, for an install
    or an uninstall, the error returned to the caller. *)
Definition step (e : Engine) (ev : event) : Engine * option error :=
  match ev with
  | Install name d => install name d e
  | Uninstall name => uninstall name e
  | WorkerExited name err => (workerExited name err e, None)
  | StopEngine cause => (stopEngine cause e, None)
  | StartCompleted name result => (startCompleted name result e, None)
  | StopTimeout name => (stopTimeout name e, None)
  | BackoffElapsed name => (backoffElapsed name e, None)
  end.

(** The control loop consumes events in arrival order. *)
Definition run (e : Engine) (evs : list event) : Engine :=
  foldl (λ e ev, (step e ev).1) e evs.

(** Modelled from the spec: the engine has terminated when shutdown
    has begun and every record is stopped. *)
Definition terminated (e : Engine) : bool :=
  dying e
  && bool_decide (map_Forall (λ _ en, state en = Stopped) (entries e)).

(** Modelled from the spec: the engine's wait for completion.  It
    returns once the engine has terminated, with the first fatal error
    or, without one, with the cause of the stop request. *)
Definition Wait (e : Engine) : option (option error) :=
  if terminated e then
    Some (match firstFatal e with
          | Some f => Some f
          | None => stopCause e
          end)
  else None.

(** The fatal error the engine meets when it handles [ev] in [e]. *)
Definition encounter (e : Engine) (ev : event) : option error :=
  match ev with
  | WorkerExited name (Some err) =>
      en ← entries e !! name;
      if live en && isFatal (Some (applyFilter (decl en) err))
      then Some (applyFilter (decl en) err) else None
  | StartCompleted name (inr err) =>
      en ← entries e !! name;
      if in_flight en && isFatal (Some (applyFilter (decl en) err))
      then Some (applyFilter (decl en) err) else None
  | StopTimeout name =>
      en ← entries e !! name;
      if bool_decide (state en = Stopping) && abort en
      then Some ErrStopTimeout else None
  | _ => None
  end.

(** The fatal errors met while [evs] is consumed from [e], in order. *)
Fixpoint fatal_errors (e : Engine) (evs : list event) : list error :=
  match evs with
  | [] => []
  | ev :: evs' =>
      match encounter e ev with
      | Some err => err :: fatal_errors (step e ev).1 evs'
      | None => fatal_errors (step e ev).1 evs'
      end
  end.

End Engine.

Arguments Manifold : clear implicits.
Arguments Entry : clear implicits.
Arguments Engine : clear implicits.
Arguments event : clear implicits.

End dependency.
(* ===================================================================== *)
(** * worker/terminationworker: the manifold *)
(* ===================================================================== *)

Module terminationworker.

Section Manifold.
Context {Worker Sys : Type}.

(** [NewWorker] is defined in another file of the package: it creates
    a worker in the process it is called in. *)
Variable NewWorker : Sys → Worker * Sys.

(** [Manifold] returns a manifold whose worker returns
    [ErrTerminateAgent] if a termination signal is received by the
    process it's running in.  The fields the composite literal leaves
    out have their zero values: a nil slice and nil functions. *)
Definition Manifold : dependency.Manifold Worker Sys :=
  dependency.mkManifold
    []
    (λ _ σ, let '(w, σ') := NewWorker σ in ((w, None), σ'))
    None
    None.
End Manifold.

End terminationworker.

(* ===================================================================== *)
(** * worker/metricworker: the cleanup worker *)
(* ===================================================================== *)

Module metricworker.

(** A Go channel of strings, as a send sees it: whether it is closed, its
    capacity, the values in its buffer (oldest first), how many
    goroutines are blocked receiving from it, and the values handed to
    such receivers.  A nil channel is [None]. *)
Record channel : Type := mkChannel {
  closed : bool;
  capacity : nat;
  buffer : list string;
  receivers : nat;
  handed : list string }.

(** [select { case ch <- v: default: }]: the send is made if it can
    proceed at once, the default case is taken if it cannot.  A send on a
    closed channel proceeds by panicking; a nil channel is never ready. *)
Definition try_send (ch : option channel) (v : string)
  : outcome (option channel) :=
  match ch with
  | None => Returns None
  | Some c =>
      if closed c then Panics
      else
        match receivers c with
        | S r =>
            Returns (Some (mkChannel false (capacity c) (buffer c) r
                             (handed c ++ [v])))
        | O =>
            if (length (buffer c) <? capacity c)%nat
            then Returns (Some (mkChannel false (capacity c)
                                  (buffer c ++ [v]) 0 (handed c)))
            else Returns ch
        end
  end.

(** A record of the logger: the level, the format and the error given
    for its [%v]. *)
Record logEntry : Type := mkLogEntry {
  level : string;
  format : string;
  arg : error }.

Section Cleanup.
(** The state of the API server the client talks to. *)
Context {World : Type}.

(** [metricsmanager.MetricsManagerClient]: the method the cleanup
    worker calls. *)
Record MetricsManagerClient : Type := mkClient {
  CleanupOldMetrics : World → option error * World }.

(** What the iteration function reads and writes: the API server, the
    log of [cleanupLogger] and the notify channel. *)
Record env : Type := mkEnv {
  world : World;
  log : list logEntry;
  notify : option channel }.

(** The function [f] of [newCleanup]:
[[
  err := client.CleanupOldMetrics()
  if err != nil {
    cleanupLogger.Warningf("failed to cleanup %v - will retry later", err)
    return nil
  }
  select {
  case notify <- "cleanupCalled":
  default:
  }
  return nil
]]
  The stop channel is not used. *)
Definition cleanup (client : MetricsManagerClient) (σ : env)
  : outcome (option error) * env :=
  let '(err, w) := CleanupOldMetrics client (world σ) in
  match err with
  | Some e =>
      (Returns None,
       mkEnv w
         (log σ ++ [mkLogEntry "WARNING"
                      "failed to cleanup %v - will retry later" e])
         (notify σ))
  | None =>
      match try_send (notify σ) "cleanupCalled" with
      | Returns ch => (Returns None, mkEnv w (log σ) ch)
      | Panics => (Panics, mkEnv w (log σ) (notify σ))
      end
  end.

(** [cleanupPeriod = time.Hour], in nanoseconds. *)
Definition cleanupPeriod : Z := 3600 * 1000000000.

(** [jworker.NewPeriodicWorker] and [jworker.NewTimer] are defined in
    another package of the repository. *)
Context {PeriodicWorker Timer : Type}.
Variable NewPeriodicWorker :
  (env → outcome (option error) * env) → Z → Timer → PeriodicWorker.
Variable NewTimer : Timer.

(** [newCleanup] creates a new periodic worker that calls the
    CleanupOldMetrics api. *)
Definition newCleanup (client : MetricsManagerClient) : PeriodicWorker :=
  NewPeriodicWorker (cleanup client) cleanupPeriod NewTimer.
End Cleanup.

Arguments MetricsManagerClient : clear implicits.
Arguments env : clear implicits.

End metricworker.
(* ===================================================================== *)
(** * What the claims about the engine speak of *)
(* ===================================================================== *)

Module EngineSpec.
Import dependency.

(** A set is closed under [next]. *)
Definition closed (next : string → gset string) (S : gset string) : Prop :=
  ∀ x y, x ∈ S → y ∈ next x → y ∈ S.

Section Graph.
Context {Worker Sys : Type}.

(** [reaches m x y]: [y] is among the inputs of [x], or among the
    inputs of a name that [x] reaches, in the installed graph [m]. *)
Inductive reaches (m : gmap string (Entry Worker Sys))
  : string → string → Prop :=
  | reaches_input x y :
      y ∈ inputs_of m x → reaches m x y
  | reaches_trans x y z :
      y ∈ inputs_of m x → reaches m y z → reaches m x z.

(** The inputs of the declaration [d] for [name] transitively include
    [name]. *)
Definition transitively_includes (m : gmap string (Entry Worker Sys))
    (d : Manifold Worker Sys) (name : string) : Prop :=
  ∃ i, i ∈ Inputs d ∧ (i = name ∨ reaches m i name).
End Graph.

(** ** Reading the history *)

Definition item_name (it : Item) : string :=
  match it with
  | HStart n _ | HStop n | HUp n | HDown n => n
  end.

(** Where a component is, as the history tells: down; its start function
    invoked with a Context; up, its start having given a worker; or
    asked to stop. *)
Inductive Phase : Type :=
  | Down
  | Launching (ctx : Context)
  | Up (ctx : Context)
  | Halting (ctx : Context).

(** The Context a component that is not down was started with. *)
Definition phase_ctx (p : Phase) : option Context :=
  match p with
  | Down => None
  | Launching ctx | Up ctx | Halting ctx => Some ctx
  end.

Definition is_up (p : Phase) : bool :=
  match p with
  | Up _ => true
  | _ => false
  end.

(** The items a component in phase [p] can show next: a start only when
    it is down, a worker only after a start, a stop request only when it
    is launching or up, an end only when it is not down. *)
Definition legal (p : Phase) (it : Item) : Prop :=
  match it, p with
  | HStart _ _, Down => True
  | HUp _, Launching _ => True
  | HStop _, (Launching _ | Up _) => True
  | HDown _, (Launching _ | Up _ | Halting _) => True
  | _, _ => False
  end.

Definition next_phase (p : Phase) (it : Item) : Phase :=
  match it with
  | HStart _ ctx => Launching ctx
  | HUp _ => match p with Launching ctx => Up ctx | _ => p end
  | HStop _ =>
      match p with Launching ctx | Up ctx => Halting ctx | _ => p end
  | HDown _ => Down
  end.

(** The phase of [n] after the items [h], from the phase [p]. *)
Fixpoint phase_from (p : Phase) (n : string) (h : list Item) : Phase :=
  match h with
  | [] => p
  | it :: h' =>
      phase_from (if bool_decide (item_name it = n)
                  then next_phase p it else p) n h'
  end.

Definition phase (n : string) (h : list Item) : Phase :=
  phase_from Down n h.

(** What an item needs of the history before it: it is legal for its
    component; a stop request comes only when no component that is not
    down was started with the stopped one among its inputs; a start comes
    only while every input of its Context is up. *)
Definition admissible (pre : list Item) (it : Item) : Prop :=
  legal (phase (item_name it) pre) it
  ∧ match it with
    | HStop a =>
        ∀ b ctx, phase_ctx (phase b pre) = Some ctx → a ∉ ctx_inputs ctx
    | HStart _ ctx =>
        ∀ a, a ∈ ctx_inputs ctx → is_up (phase a pre) = true
    | _ => True
    end.

(** A history is well ordered when each of its items is admissible after
    the items before it. *)
Definition well_ordered (h : list Item) : Prop :=
  ∀ h1 it h2, h = h1 ++ it :: h2 → admissible h1 it.

(** The same, item by item after the items [pre]. *)
Fixpoint ordered_after (pre : list Item) (h : list Item) : Prop :=
  match h with
  | [] => True
  | it :: h' => admissible pre it ∧ ordered_after (pre ++ [it]) h'
  end.

(** What [a] has been through in [h2], by the phase it is in: from asked
    to stop, it is down only after it ended, launching only after a new
    start, and up only after that start gave a worker. *)
Definition restarted (a : string) (p : Phase) (h2 : list Item) : Prop :=
  match p with
  | Halting _ => True
  | Down => ∃ k1 k2, h2 = k1 ++ HDown a :: k2
  | Launching _ =>
      ∃ k1 k2 k3 c, h2 = k1 ++ HDown a :: k2 ++ HStart a c :: k3
  | Up _ =>
      ∃ k1 k2 k3 c,
        h2 = k1 ++ HDown a :: k2 ++ HStart a c :: k3 ∧ HUp a ∈ k3
  end.

Section Consistency.
Context {Worker Sys : Type}.

(** The record of [n] agrees with the phase the history gives [n]. *)
Definition agrees (en : option (Entry Worker Sys)) (p : Phase) : Prop :=
  match en with
  | None => p = Down
  | Some en =>
      match state en with
      | Stopped => p = Down
      | Starting =>
          abort en = false
          ∧ ∃ ctx, p = Launching ctx ∧ ctx_inputs ctx = Inputs (decl en)
      | Started =>
          abort en = false
          ∧ ∃ ctx, p = Up ctx ∧ ctx_inputs ctx = Inputs (decl en)
      | Stopping =>
          ∃ ctx, ctx_inputs ctx = Inputs (decl en)
                 ∧ if abort en then p = Halting ctx
                   else p = Launching ctx ∨ p = Up ctx
      end
  end.

(** An update of a record that the history need not show. *)
Definition quiet (g : Entry Worker Sys → Entry Worker Sys) : Prop :=
  ∀ en p, agrees (Some en) p → agrees (Some (g en)) p.

(** The invariant of the control loop that ties the records to the
    history. *)
Definition consistent (e : Engine Worker Sys) : Prop :=
  well_ordered (history e)
  ∧ ∀ n, agrees (entries e !! n) (phase n (history e)).

(** A stopped record has no handle. *)
Definition entry_ok (en : Entry Worker Sys) : Prop :=
  state en = Stopped → handle en = None.
End Consistency.

End EngineSpec.
(* ===================================================================== *)
(** * api/modelgeneration/modelgeneration.go *)
(* ===================================================================== *)

Module modelgeneration.

(** [params.Entity] *)
Record Entity : Type := mkEntity { Tag : string }.

(** [params.ErrorResult] and [params.ErrorResults] *)
Record ErrorResult : Type := mkErrorResult { Error : option error }.
Record ErrorResults : Type := mkErrorResults { Results : list ErrorResult }.

Section Client.
(** The API server behind the connection. *)
Variable World : Type.

(** Types, constants and functions of other packages:
    [names.ModelTag] with its method [String],
    [coremodel.GenerationVersion] with [GenerationCurrent] and
    [GenerationNext], [names.IsValidApplication], [names.IsValidUnit],
    the tags of [names.NewApplicationTag] and [names.NewUnitTag] as
    their method [String] gives them ([NewUnitTag] can panic), and
    [params.ErrorResults.Combine]. *)
Variables ModelTag GenerationVersion : Type.
Variable ModelTag_String : ModelTag → string.
Variable GenerationCurrent GenerationNext : GenerationVersion.
Variable IsValidApplication IsValidUnit : string → bool.
Variable NewApplicationTag : string → string.
Variable NewUnitTag : string → outcome string.
Variable Combine : ErrorResults → option error.

(** [params.GenerationVersionArg] and [params.AdvanceGenerationArg] *)
Record GenerationVersionArg : Type := mkGenerationVersionArg {
  GenerationVersionArg_Model : Entity;
  Version : GenerationVersion }.
Record AdvanceGenerationArg : Type := mkAdvanceGenerationArg {
  AdvanceGenerationArg_Model : Entity;
  Entities : list Entity }.

(** The parameters of a facade call. *)
Inductive Params : Type :=
  | ParamsEntity (arg : Entity)
  | ParamsGenerationVersion (arg : GenerationVersionArg)
  | ParamsAdvanceGeneration (arg : AdvanceGenerationArg).

(** [base.FacadeCaller]: [FacadeCall] fills the response it is given a
    pointer to, a [params.ErrorResult] or a [params.ErrorResults] that
    starts as the zero value, and returns an error. *)
Record FacadeCaller : Type := mkFacadeCaller {
  FacadeCall :
    string → Params → World → (ErrorResult * option error) * World;
  FacadeCall_results :
    string → Params → World → (ErrorResults * option error) * World }.

(** [Client], with the field the methods use. *)
Record Client : Type := mkClient { facade : FacadeCaller }.

(** [AddGeneration] adds a model generation to the config. *)
Definition AddGeneration (c : Client) (model : ModelTag) (w : World)
  : option error * World :=
  let arg := mkEntity (ModelTag_String model) in
  let '(result, err, w) :=
    FacadeCall (facade c) "AddGeneration" (ParamsEntity arg) w in
  match err with
  | Some e => (Some (Trace e), w)
  | None =>
      match Error result with
      | Some e => (Some (Trace e), w)
      | None => (None, w)
      end
  end.

(** [SwitchGeneration] *)
Definition SwitchGeneration (c : Client) (model : ModelTag)
    (version : string) (w : World) : option error * World :=
  let model := mkEntity (ModelTag_String model) in
  match
    if String.eqb version "current" then Some GenerationCurrent
    else if String.eqb version "next" then Some GenerationNext
    else None
  with
  | None =>
      (Some (Trace (errors.New "version must be 'next' or 'current'")), w)
  | Some v =>
      let arg := mkGenerationVersionArg model v in
      let '(result, err, w) :=
        FacadeCall (facade c) "SwitchGeneration"
          (ParamsGenerationVersion arg) w in
      match err with
      | Some e => (Some (Trace e), w)
      | None =>
          match Error result with
          | Some e => (Some (Trace e), w)
          | None => (None, w)
          end
      end
  end.

(** The loop of [AdvanceGeneration] over the entities that are left,
    with the entities of the argument so far: the entities of the
    argument when the loop ends, or the error it returns with. *)
Fixpoint tagEntities (entities : list string) (argEntities : list Entity)
  : outcome (list Entity + error) :=
  match entities with
  | [] => Returns (inl argEntities)
  | entity :: entities =>
      if IsValidApplication entity then
        tagEntities entities
          (argEntities ++ [mkEntity (NewApplicationTag entity)])
      else if IsValidUnit entity then
        match NewUnitTag entity with
        | Returns tag =>
            tagEntities entities (argEntities ++ [mkEntity tag])
        | Panics => Panics
        end
      else
        Returns (inr (Trace (errors.New "Must be application or unit")))
  end.

(** [AdvanceGeneration] advances a unit and/or applications to the
    'next' generation. *)
Definition AdvanceGeneration (c : Client) (model : ModelTag)
    (entities : list string) (w : World)
  : outcome (option error) * World :=
  let model := mkEntity (ModelTag_String model) in
  if (Z.of_nat (length entities) =? 0) then
    (Returns
       (Some (Trace (errors.New "No units or applications to advance"))),
     w)
  else
    match tagEntities entities [] with
    | Panics => (Panics, w)
    | Returns (inr e) => (Returns (Some e), w)
    | Returns (inl argEntities) =>
        let arg := mkAdvanceGenerationArg model argEntities in
        let '(results, err, w) :=
          FacadeCall_results (facade c) "AdvanceGeneration"
            (ParamsAdvanceGeneration arg) w in
        match err with
        | Some e => (Returns (Some (Trace e)), w)
        | None => (Returns (Combine results), w)
        end
    end.

End Client.

End modelgeneration.
(* ===================================================================== *)
(** * juju/conn.go *)
(* ===================================================================== *)

(** The part of Go's regular expressions that conn.go uses, with the
    operators of regexp/syntax. *)
Module regexp.

Inductive Regexp : Type :=
  | OpNoMatch
  | OpEmptyMatch
  | OpLiteral (c : ascii)
  | OpCharClass (ranges : list (ascii * ascii))
  | OpConcat (r1 r2 : Regexp)
  | OpAlternate (r1 r2 : Regexp)
  | OpStar (r : Regexp)
  | OpPlus (r : Regexp).

(** Whether a character is in one of the ranges of a class. *)
Definition in_class (ranges : list (ascii * ascii)) (c : ascii) : bool :=
  existsb (λ '(lo, hi), (nat_of_ascii lo <=? nat_of_ascii c)%nat
                        && (nat_of_ascii c <=? nat_of_ascii hi)%nat) ranges.

(** Whether the expression matches the empty string. *)
Fixpoint nullable (r : Regexp) : bool :=
  match r with
  | OpNoMatch => false
  | OpEmptyMatch => true
  | OpLiteral _ => false
  | OpCharClass _ => false
  | OpConcat r1 r2 => nullable r1 && nullable r2
  | OpAlternate r1 r2 => nullable r1 || nullable r2
  | OpStar _ => true
  | OpPlus r => nullable r
  end.

(** What is left to match after the character [c]. *)
Fixpoint derive (c : ascii) (r : Regexp) : Regexp :=
  match r with
  | OpNoMatch => OpNoMatch
  | OpEmptyMatch => OpNoMatch
  | OpLiteral c' => if Ascii.eqb c c' then OpEmptyMatch else OpNoMatch
  | OpCharClass ranges =>
      if in_class ranges c then OpEmptyMatch else OpNoMatch
  | OpConcat r1 r2 =>
      if nullable r1
      then OpAlternate (OpConcat (derive c r1) r2) (derive c r2)
      else OpConcat (derive c r1) r2
  | OpAlternate r1 r2 => OpAlternate (derive c r1) (derive c r2)
  | OpStar r => OpConcat (derive c r) (OpStar r)
  | OpPlus r => OpConcat (derive c r) (OpStar r)
  end.

(** [MatchString] of an expression that stands between [^] and [$]: the
    whole string has to match. *)
Fixpoint MatchString (r : Regexp) (s : string) : bool :=
  match s with
  | EmptyString => nullable r
  | String c s => MatchString (derive c r) s
  end.

(** The strings an expression matches, as the package regexp/syntax
    describes its operators. *)
Inductive matches : Regexp → string → Prop :=
  | matches_empty : matches OpEmptyMatch ""
  | matches_literal c : matches (OpLiteral c) (String c "")
  | matches_class ranges c :
      in_class ranges c = true → matches (OpCharClass ranges) (String c "")
  | matches_concat r1 r2 s1 s2 :
      matches r1 s1 → matches r2 s2 → matches (OpConcat r1 r2) (s1 +:+ s2)
  | matches_alternate_l r1 r2 s :
      matches r1 s → matches (OpAlternate r1 r2) s
  | matches_alternate_r r1 r2 s :
      matches r2 s → matches (OpAlternate r1 r2) s
  | matches_star_nil r : matches (OpStar r) ""
  | matches_star_more r s1 s2 :
      matches r s1 → matches (OpStar r) s2 → matches (OpStar r) (s1 +:+ s2)
  | matches_plus r s1 s2 :
      matches r s1 → matches (OpStar r) s2 → matches (OpPlus r) (s1 +:+ s2).

(** The characters of a string. *)
Fixpoint chars (s : string) : list ascii :=
  match s with
  | EmptyString => []
  | String c s => c :: chars s
  end.

End regexp.

Module juju.
Import regexp.

(** [[a-z]], [[a-z0-9]] and [[0-9]] *)
Definition lower : Regexp := OpCharClass [("a", "z")]%char.
Definition lower_digit : Regexp :=
  OpCharClass [("a", "z"); ("0", "9")]%char.
Definition digit : Regexp := OpCharClass [("0", "9")]%char.

(** [ValidService], the expression of
    ["^[a-z][a-z0-9]*(-[a-z0-9]*[a-z][a-z0-9]*)*$"] *)
Definition ValidService : Regexp :=
  OpConcat lower
    (OpConcat (OpStar lower_digit)
       (OpStar
          (OpConcat (OpLiteral "-")
             (OpConcat (OpStar lower_digit)
                (OpConcat lower (OpStar lower_digit)))))).

(** [ValidUnit], the expression of
    ["^[a-z][a-z0-9]*(-[a-z0-9]*[a-z][a-z0-9]*)*/[0-9]+$"] *)
Definition ValidUnit : Regexp :=
  OpConcat lower
    (OpConcat (OpStar lower_digit)
       (OpConcat
          (OpStar
             (OpConcat (OpLiteral "-")
                (OpConcat (OpStar lower_digit)
                   (OpConcat lower (OpStar lower_digit)))))
          (OpConcat (OpLiteral "/") (OpPlus digit)))).

Section Conn.
(** The environments and their state servers. *)
Variable World : Type.

(** Types and functions of the packages environs and state:
    [environs.Environs] with [environs.ReadEnvirons] and its method
    [Open], [environs.Instance], [state.Info], [state.State] and
    [state.Open].  What is behind a pointer is an [option], [None]
    when nil. *)
Variables Environs Instance state_Info state_State : Type.

(** [environs.Environ]: the methods conn.go calls. *)
Record Environ : Type := mkEnviron {
  Environ_Bootstrap : bool → World → option error * World;
  Environ_Destroy : option (list Instance) → World → option error * World;
  StateInfo : World → (option state_Info * option error) * World }.

Variable ReadEnvirons :
  string → World → (option Environs * option error) * World.
Variable Environs_Open :
  option Environs → string → World
  → (option Environ * option error) * World.
Variable state_Open :
  option state_Info → World → (option state_State * option error) * World.

(** [Conn] holds a connection to a juju.  A nil interface value is
    [None]. *)
Record Conn : Type := mkConn {
  Conn_Environ : option Environ;
  state : option state_State }.

(** [NewConn] returns a Conn pointing at the environName environment,
    or the default environment if not specified. *)
Definition NewConn (environName : string) (w : World)
  : (option Conn * option error) * World :=
  let '(environs, err, w) := ReadEnvirons "" w in
  match err with
  | Some e => ((None, Some e), w)
  | None =>
      let '(environ, err, w) := Environs_Open environs environName w in
      match err with
      | Some e => ((None, Some e), w)
      | None => ((Some (mkConn environ None), None), w)
      end
  end.

(** [Bootstrap] initializes the Conn's environment and makes it ready
    to deploy services. *)
Definition Bootstrap (c : Conn) (uploadTools : bool) (w : World)
  : outcome (option error) * World :=
  match Conn_Environ c with
  | None => (Panics, w)
  | Some environ =>
      let '(err, w) := Environ_Bootstrap environ uploadTools w in
      (Returns err, w)
  end.

(** [Destroy] destroys the Conn's environment and all its instances. *)
Definition Destroy (c : Conn) (w : World)
  : outcome (option error) * World :=
  match Conn_Environ c with
  | None => (Panics, w)
  | Some environ =>
      let '(err, w) := Environ_Destroy environ None w in
      (Returns err, w)
  end.

(** [State] returns the conn's State.  The Conn behind the pointer [c]
    is an argument and, as it is when the call ends, a result. *)
Definition State (c : Conn) (w : World)
  : outcome (option state_State * option error) * Conn * World :=
  match state c with
  | None =>
      match Conn_Environ c with
      | None => (Panics, c, w)
      | Some environ =>
          let '(info, err, w) := StateInfo environ w in
          match err with
          | Some e => (Returns (None, Some e), c, w)
          | None =>
              let '(st, err, w) := state_Open info w in
              match err with
              | Some e => (Returns (None, Some e), c, w)
              | None =>
                  let c := mkConn (Conn_Environ c) st in
                  (Returns (state c, None), c, w)
              end
          end
      end
  | Some _ => (Returns (state c, None), c, w)
  end.

End Conn.

End juju.
(* ===================================================================== *)
(** * acceptancetests/repository/charms/simple-resource-http/hooks/install *)
(* ===================================================================== *)

Module install_hook.

Section Script.
(** The machine the hook runs on. *)
Variable World : Type.

(** Running a program with its arguments: its exit status. *)
Variable exec : list string → World → Z * World.

(** The shell: the variable [try_count], the lines written by [echo],
    the commands run so far, oldest first, and the machine. *)
Record shell : Type := mkShell {
  try_count : Z;
  stdout : list string;
  ran : list (list string);
  world : World }.

Definition run (cmd : list string) (sh : shell) : Z * shell :=
  let '(status, w) := exec cmd (world sh) in
  (status, mkShell (try_count sh) (stdout sh) (ran sh ++ [cmd]) w).

Definition echo (line : string) (sh : shell) : shell :=
  mkShell (try_count sh) (stdout sh ++ [line]) (ran sh) (world sh).

Definition set_try_count (n : Z) (sh : shell) : shell :=
  mkShell n (stdout sh) (ran sh) (world sh).

(** The loop
[[
  while ! cmd; do
      echo "Waiting 5 seconds"
      if [ $try_count -lt 10 ] ; then
          sleep 5
      else
          echo "Giving up."
          break
      fi
      try_count=$((try_count+1))
  done
]]
    for at most [fuel] runs of [cmd]: the shell when the loop ends,
    or [None] when it has not ended by then. *)
Fixpoint retry (fuel : nat) (cmd : list string) (sh : shell)
  : option shell :=
  match fuel with
  | O => None
  | S fuel =>
      let '(status, sh) := run cmd sh in
      if status =? 0 then Some sh
      else
        let sh := echo "Waiting 5 seconds" sh in
        if try_count sh <? 10 then
          let '(_, sh) := run ["sleep"; "5"] sh in
          let sh := set_try_count (try_count sh + 1) sh in
          retry fuel cmd sh
        else
          Some (echo "Giving up." sh)
  end.

(** The script: its exit status and the shell when it ends. *)
Definition install (fuel : nat) (w : World) : option (Z * shell) :=
  let sh := mkShell 0 [] [] w in
  sh ← retry fuel ["apt-get"; "update"] sh;
  let sh := set_try_count 0 sh in
  sh ← retry fuel ["apt-get"; "install"; "-y"; "python"] sh;
  let '(status, sh) := run ["status-set"; "maintenance"; "Installed"] sh in
  (* || true *)
  Some (if status =? 0 then status else 0, sh).

End Script.

End install_hook.
(* ===================================================================== *)
(** * Concrete inputs *)
(* ===================================================================== *)

Module Fixtures.

(** ** cloud.go *)

Definition explode0 : string → Z → list string := λ _ _, [].
Definition build0 (c r : string) : string := c +:+ "/" +:+ r.
Definition split0 (s : string) : list string :=
  GoStrings.SplitN explode0 s "/" 2.
Definition isNonPreferred0 (err : option error) : bool :=
  match err with
  | Some (NonPreferredStorageError _ _ _) => true
  | _ => false
  end.
Definition Error0 (e : error) : string :=
  match e with
  | Errorf msg => msg
  | ClusterQueryError msg => msg
  | _ => "error"
  end.

Definition checker0 : caas.ClusterMetadataChecker unit :=
  caas.mkChecker unit (λ _ _ w, (None, w)) (λ sp w, ((Some sp, None), w)).

(** A checker whose storage check fails with a cluster query error. *)
Definition checker_query : caas.ClusterMetadataChecker unit :=
  caas.mkChecker unit
    (λ _ _ w, (Some (ClusterQueryError "no storage"), w))
    (λ sp w, ((Some sp, None), w)).

Definition microk8s : cloud.Cloud :=
  cloud.mkCloud "microk8s" "kubernetes" ["certificate"] "https://1.2.3.4"
    None None [] "".

Definition metadata0 : caas.ClusterMetadata :=
  caas.mkClusterMetadata None None "gce" (Some {["us-east1"; "eu-west1"]}).

(** The user hit Ctrl+C: no metadata and no error. *)
Definition params_nometa : Provider.KubeCloudStorageParams unit :=
  Provider.mkStorageParams unit "" "" checker0 (λ _ w, ((None, None), w)).

Definition params_query : Provider.KubeCloudStorageParams unit :=
  Provider.mkStorageParams unit "" "" checker_query
    (λ _ w, ((Some metadata0, None), w)).

Definition Update0 :=
  Provider.UpdateKubeCloudWithStorage explode0 unit build0 split0
    isNonPreferred0 "workload-storage" "operator-storage" (λ s, s) Error0.

(** ** metricworker *)

Definition client_ok : metricworker.MetricsManagerClient unit :=
  metricworker.mkClient (λ w, (None, w)).
Definition client_failing : metricworker.MetricsManagerClient unit :=
  metricworker.mkClient (λ w, (Some (Errorf "api down"), w)).

Definition open_chan : metricworker.channel :=
  metricworker.mkChannel false 1 [] 0 [].
Definition full_chan : metricworker.channel :=
  metricworker.mkChannel false 1 ["cleanupCalled"] 0 [].
Definition closed_chan : metricworker.channel :=
  metricworker.mkChannel true 1 [] 0 [].

Definition env_of (ch : option metricworker.channel) : metricworker.env unit :=
  metricworker.mkEnv tt [] ch.

(** ** The dependency engine, with numbers for worker handles *)

Import dependency.

Definition outInt (w : nat) : value + error :=
  inl (mkValue "int" (IInt (Z.of_nat w))).

Definition startWith (w : nat) (_ : Context) (σ : unit)
  : (nat * option error) * unit := ((w, None), σ).

(** [A] has no inputs and an output; [B] depends on [A]. *)
Definition mA : Manifold nat unit :=
  mkManifold [] (startWith 1) (Some outInt) None.
Definition mB : Manifold nat unit :=
  mkManifold ["A"] (startWith 2) None None.

(** A chain: [A] on [X], [B] on [A]. *)
Definition mX : Manifold nat unit :=
  mkManifold [] (startWith 0) None None.
Definition mAX : Manifold nat unit :=
  mkManifold ["X"] (startWith 1) (Some outInt) None.

(** Declarations for [A] that close a cycle: on itself, and through [B]. *)
Definition mSelf : Manifold nat unit :=
  mkManifold ["A"] (startWith 1) None None.
Definition mAB : Manifold nat unit :=
  mkManifold ["B"] (startWith 1) None None.

(** [A] and [B] installed and started. *)
Definition both_up : list (event nat unit) :=
  [Install "A" mA; StartCompleted "A" (inl 1%nat);
   Install "B" mB; StartCompleted "B" (inl 2%nat)].

(** [B] is uninstalled and its worker does not end in time; then the
    worker of [A] ends with "terminate agent", and at last that of [B]
    ends. *)
Definition timeout_first : list (event nat unit) :=
  both_up ++ [Uninstall "B"; StopTimeout "B"].

(** The chain installed from the top down and started, then the worker
    of [X] fails, the workers asked to stop end, and everything comes up
    again. *)
Definition chain_bounce : list (event nat unit) :=
  [Install "B" mB; Install "A" mAX; Install "X" mX;
   StartCompleted "X" (inl 0%nat); StartCompleted "A" (inl 1%nat);
   StartCompleted "B" (inl 2%nat);
   WorkerExited "X" (Some (Errorf "boom"));
   WorkerExited "B" None; WorkerExited "A" None;
   BackoffElapsed "X";
   StartCompleted "X" (inl 10%nat); StartCompleted "A" (inl 11%nat);
   StartCompleted "B" (inl 12%nat)].

(** A chain of three, [B] on [A] and [C] on [B], installed and started;
    then the worker of [A] ends asking for a bounce, and [A] is started
    again. *)
Definition mC : Manifold nat unit :=
  mkManifold ["B"] (startWith 3) None None.
Definition three_up : list (event nat unit) :=
  both_up ++ [Install "C" mC; StartCompleted "C" (inl 3%nat)].
Definition self_bounce : list (event nat unit) :=
  three_up ++ [WorkerExited "A" (Some ErrBounce);
               StartCompleted "A" (inl 11%nat)].

(** An item without its Context. *)
Definition brief (it : Item) : string * string :=
  match it with
  | HStart n _ => ("start", n)
  | HStop n => ("stop", n)
  | HUp n => ("up", n)
  | HDown n => ("down", n)
  end.

(** The Context of the last start of [n] in a history. *)
Definition last_context (n : string) (h : list Item) : option Context :=
  EngineSpec.phase_ctx (EngineSpec.phase n h).

(** ** cloud.go: storage *)

(** A cluster on GCE with a nominated storage class and no operator
    storage class. *)
Definition metadata_gce : caas.ClusterMetadata :=
  caas.mkClusterMetadata
    (Some (caas.mkStorageProvisioner "standard" "kubernetes.io/gce-pd" None))
    None "gce" (Some {["us-east1"]}).

Definition params_ok : Provider.KubeCloudStorageParams unit :=
  Provider.mkStorageParams unit "" "" checker0
    (λ _ w, ((Some metadata_gce, None), w)).

Definition microk8s_updated : cloud.Cloud :=
  cloud.mkCloud "microk8s" "kubernetes" ["certificate"] "https://1.2.3.4"
    (Some [cloud.mkRegion "us-east1" ""])
    (Some (<["operator-storage" := IString "standard"]>
             (<["workload-storage" := IString "standard"]> ∅)))
    [] "gce/us-east1".

Definition message_ok : string :=
  String "010"%char
    "with operator storage provisioned by the workload storage class.".

(** A checker for a cluster where no storage class can be made. *)
Definition checker_no_class : caas.ClusterMetadataChecker unit :=
  caas.mkChecker unit (λ _ _ w, (None, w))
    (λ sp w, ((None, Some (NotFoundf "storage class %q" [caas.Name sp])), w)).

(** What is left of [microk8s] when the storage check of
    [params_query] has failed. *)
Definition microk8s_region_only : cloud.Cloud :=
  cloud.mkCloud "microk8s" "kubernetes" ["certificate"] "https://1.2.3.4"
    (Some [cloud.mkRegion "eu-west1" ""]) None [] "gce/eu-west1".

Definition params_named : Provider.KubeCloudStorageParams unit :=
  Provider.mkStorageParams unit "fast" "gce/us-east1" checker_no_class
    (λ _ w, ((Some metadata_gce, None), w)).

(** ** cloud.go: MicroK8s *)

(** A runner whose command ends with the given code and outputs. *)
Definition runner (code : Z) (out err : string)
  : Provider.CommandRunner unit :=
  Provider.mkCommandRunner unit
    (λ _ w, ((Some (Provider.mkExecResponse code out err), None), w)).

(** A decoder that knows one document. *)
Definition unmarshal0 (input : string) (status : Provider.microk8sStatus)
  : Provider.microk8sStatus * option error :=
  if String.eqb input "addons: {storage: enabled, dns: enabled}" then
    (Provider.mkMicrok8sStatus
       (Some (<["storage" := "enabled"]> (<["dns" := "enabled"]> ∅))), None)
  else (status, Some (Errorf "yaml: cannot decode")).

Definition broker0 : caas.ClusterMetadataBroker unit :=
  caas.mkBroker unit checker0 (λ _ w, ((Some metadata_gce, None), w)).

Definition provider0 (r : Provider.CommandRunner unit)
  : Provider.kubernetesEnvironProvider unit unit (gmap string iface) unit :=
  Provider.mkProvider unit unit (gmap string iface) unit r
    (λ _ w, ((microk8s, tt, "admin", None), w))
    (λ _ w, ((Some broker0, None), w)).

(** MicroK8s with its addons enabled, and MicroK8s that is not
    running. *)
Definition provider_ok :=
  provider0 (runner 0 "addons: {storage: enabled, dns: enabled}" "").
Definition provider_down :=
  provider0 (runner 1 "" "microk8s is not running").

Definition FinalizeCloud0 :=
  Provider.FinalizeCloud unit unmarshal0 unit string (gmap string iface)
    bool unit (λ w, (("6ba7b810", None), w)) (λ u, u) false
    "name" "type" "uuid" (λ _ attrs, (Some attrs, None)) tt
    (λ _ _ _, (tt, None)) "microk8s" explode0 build0 split0 isNonPreferred0
    "workload-storage" "operator-storage" (λ s, s) Error0.

Definition microk8s_finalized : cloud.Cloud :=
  cloud.mkCloud "microk8s" "kubernetes" ["certificate"] "https://1.2.3.4"
    (Some [cloud.mkRegion "us-east1" "https://1.2.3.4"])
    (Some (<["operator-storage" := IString "standard"]>
             (<["workload-storage" := IString "standard"]> ∅)))
    [] "gce/us-east1".

(** ** cloud.go: kubeconfig; a credential is its authentication type *)

Definition MapKeys0 (m : gmap string clientconfig.Context) : list string :=
  (map_to_list m).*1.

Definition kubeconfig (caData : iface) : clientconfig.ClientConfig string :=
  clientconfig.mkClientConfig string
    (Some {["ctx" := clientconfig.mkContext "cluster" "admin"]})
    (Some {["cluster" :=
              clientconfig.mkCloudConfig "https://1.2.3.4"
                (Some {["CAData" := caData]})]})
    (Some {["admin" := "userpass"]}).

Definition kube_params (caData : iface)
  : Provider.KubeCloudParams unit unit string unit :=
  Provider.mkKubeCloudParams unit unit string unit "" "" "mycloud"
    "gce/us-east1" "kubernetes"
    (λ _ w, ((Some (λ _ _ _ _ w, ((Some (kubeconfig caData), None), w)),
              None), w)).

Definition newCloud0 :=
  Provider.newCloudCredentialFromKubeConfig unit unit string unit
    "" (λ c, c) tt MapKeys0.

(** ** modelgeneration.go; the server is the list of the requests made *)

Definition facade0 : modelgeneration.FacadeCaller (list string) nat :=
  modelgeneration.mkFacadeCaller (list string) nat
    (λ request _ w, ((modelgeneration.mkErrorResult None, None),
                     w ++ [request]))
    (λ request _ w, ((modelgeneration.mkErrorResults [], None),
                     w ++ [request])).

Definition client0 : modelgeneration.Client (list string) nat :=
  modelgeneration.mkClient (list string) nat facade0.

Definition SwitchGeneration0 :=
  modelgeneration.SwitchGeneration (list string) string nat
    (λ model, "model-" +:+ model) 1%nat 2%nat.

Definition NewUnitTag0 (name : string) : outcome string :=
  Returns ("unit-" +:+ name).

Definition AdvanceGeneration0 :=
  modelgeneration.AdvanceGeneration (list string) string nat
    (λ model, "model-" +:+ model)
    (regexp.MatchString juju.ValidService)
    (regexp.MatchString juju.ValidUnit)
    (λ name, "application-" +:+ name)
    NewUnitTag0
    (λ _, None).

(** ** conn.go; the environment counts the states opened *)

Definition environ0 : juju.Environ nat unit string :=
  juju.mkEnviron nat unit string
    (λ _ w, (None, w)) (λ _ w, (None, w))
    (λ w, ((Some "info", None), w)).

Definition state_Open0 (info : option string) (w : nat)
  : (option nat * option error) * nat :=
  ((Some w, None), S w).

Definition conn0 : juju.Conn nat unit string nat :=
  juju.mkConn nat unit string nat (Some environ0) None.

End Fixtures.
(* ===================================================================== *)
(** * Properties of the string helpers *)
(* ===================================================================== *)

Module GoStringsFacts.
Import GoStrings.

Lemma app_empty_l (s : string) : "" +:+ s = s.
Proof. reflexivity. Qed.

Lemma app_String c (a s : string) : String c a +:+ s = String c (a +:+ s).
Proof. reflexivity. Qed.

Lemma Contains_cons_ne c s :
  c ≠ "/"%char → Contains (String c s) "/" → Contains s "/".
Proof.
  intros Hc [a [b Hab]]. destruct a as [|c' a].
  - rewrite app_empty_l, app_String in Hab. congruence.
  - rewrite app_String in Hab. injection Hab as _ ->. by exists a, b.
Qed.

Lemma not_Contains_empty : ¬ Contains "" "/".
Proof.
  intros [[|c a] [b Hab]]; rewrite ?app_empty_l, app_String in Hab;
    discriminate.
Qed.

(** What [Index] computes for the separator of a cloud region. *)
Lemma Index_slash s :
  (¬ Contains s "/" ∧ Index s "/" = -1)
  ∨ (∃ c r, s = c +:+ "/" +:+ r ∧ ¬ Contains c "/"
            ∧ Index s "/" = len c
            ∧ slice_to s (len c) = c
            ∧ slice_from s (len c + len "/") = r).
Proof.
  induction s as [|d s IH].
  - left. split; [apply not_Contains_empty | reflexivity].
  - destruct (Ascii.eqb_spec "/"%char d) as [<-|Hne].
    + right. exists "", s.
      split; [reflexivity|]. split; [apply not_Contains_empty|].
      split; [reflexivity|]. split; reflexivity.
    + assert (Hix : Index (String d s) "/"
                    = if Index s "/" <? 0 then -1 else Index s "/" + 1).
      { cbn [Index HasPrefix].
        destruct (Ascii.eqb_spec "/"%char d); [congruence | reflexivity]. }
      destruct IH as [[Hno Hi] | (c & r & -> & Hno & Hi & Ht & Hd)].
      * left. split.
        -- intros HC. apply Hno. eapply Contains_cons_ne; eauto.
        -- rewrite Hix, Hi. reflexivity.
      * right. exists (String d c), r.
        assert (Hlen : len (String d c) = len c + 1).
        { unfold len. simpl String.length. lia. }
        split; [reflexivity|]. split.
        { intros HC. apply Hno. eapply Contains_cons_ne; eauto. }
        split.
        { rewrite Hix, Hi, Hlen.
          destruct (Z.ltb_spec (len c) 0) as [Hlt|]; [|done].
          unfold len in Hlt. lia. }
        unfold slice_to, slice_from in *. rewrite Hlen.
        assert (Hc0 : 0 ≤ len c) by (unfold len; lia).
        replace (Z.to_nat (len c + 1)) with (S (Z.to_nat (len c))) by lia.
        replace (Z.to_nat (len c + 1 + len "/"))
          with (S (Z.to_nat (len c + len "/")))
          by (unfold len in *; simpl String.length in *; lia).
        simpl. split; [by rewrite Ht | exact Hd].
Qed.

(** The first separator of a string is where it is: two decompositions
    around a first ["/"] agree. *)
Lemma first_slash_unique c r c' r' :
  c +:+ "/" +:+ r = c' +:+ "/" +:+ r' →
  ¬ Contains c "/" → ¬ Contains c' "/" → c = c' ∧ r = r'.
Proof.
  revert c'. induction c as [|d c IH]; intros [|d' c'] Heq Hc Hc';
    repeat (rewrite app_empty_l in Heq || rewrite app_String in Heq).
  - injection Heq as Hr. by subst.
  - injection Heq as Hd _. subst d'. exfalso. apply Hc'. by exists "", c'.
  - injection Heq as Hd _. subst d. exfalso. apply Hc. by exists "", c.
  - injection Heq as Hd Heq. subst d'.
    destruct (IH c' Heq) as [-> ->]; [| |done].
    + intros [a [b ->]]. apply Hc. by exists (String d a), b.
    + intros [a [b ->]]. apply Hc'. by exists (String d a), b.
Qed.

Lemma len_0 s : len s = 0 ↔ s = "".
Proof.
  unfold len. destruct s; simpl; split; try done; try lia.
Qed.

End GoStringsFacts.

Module ProviderFacts.
Import GoStrings GoStringsFacts Provider.

(** The two fields [SplitN(s, "/", 2)] yields. *)
Lemma SplitN_slash_2 explode s :
  (¬ Contains s "/" ∧ SplitN explode s "/" 2 = [s])
  ∨ (∃ c r, s = c +:+ "/" +:+ r ∧ ¬ Contains c "/"
            ∧ SplitN explode s "/" 2 = [c; r]).
Proof.
  unfold SplitN, genSplit.
  change (2 =? 0) with false. change (String.eqb "/" "") with false.
  change (2 <? 0) with false. cbv iota.
  destruct (Z.gtb_spec 2 (len s + 1)) as [Hgt|Hle].
  - assert (s = "") as ->.
    { apply len_0. unfold len in *. lia. }
    left. split; [apply not_Contains_empty | reflexivity].
  - change (Z.to_nat (2 - 1)) with 1%nat. simpl genSplit_loop.
    destruct (Index_slash s) as [[Hno Hi] | (c & r & Hs & Hno & Hi & Ht & Hd)].
    + left. rewrite Hi. by split.
    + right. exists c, r. rewrite Hi.
      destruct (Z.ltb_spec (len c) 0) as [Hlt|_].
      { unfold len in Hlt. lia. }
      rewrite Z.add_0_r, Ht, Hd. done.
Qed.

(** C9. [ParseCloudRegion s] returns [(cloud, region, nil)], where
    [cloud] is the part of [s] before its first ["/"] and [region] is
    everything after it, exactly when [s] contains a ["/"] and both parts
    are non-empty; for every other [s] it returns two empty strings and a
    not-valid error. *)
Theorem ParseCloudRegion_spec explode (s : string) :
  (∃ cloud region,
      s = cloud +:+ "/" +:+ region ∧ ¬ Contains cloud "/"
      ∧ cloud ≠ "" ∧ region ≠ ""
      ∧ ParseCloudRegion explode s = (cloud, region, None))
  ∨ (¬ (∃ cloud region,
           s = cloud +:+ "/" +:+ region ∧ ¬ Contains cloud "/"
           ∧ cloud ≠ "" ∧ region ≠ "")
     ∧ ParseCloudRegion explode s
       = ("", "", Some (NotValidf "cloud region %q" [s]))).
Proof.
  unfold ParseCloudRegion.
  destruct (SplitN_slash_2 explode s)
    as [[Hno ->] | (c & r & Hs & Hno & ->)].
  - right. split; [|done].
    intros (c & r & -> & _). apply Hno. by exists c, r.
  - destruct (String.eqb_spec c "") as [Hc|Hc];
      [|destruct (String.eqb_spec r "") as [Hr|Hr]]; simpl.
    + right. split; [|done].
      intros (c' & r' & Hs' & Hno' & Hc' & _). rewrite Hs in Hs'.
      destruct (first_slash_unique _ _ _ _ Hs' Hno Hno'). congruence.
    + right. split; [|done].
      intros (c' & r' & Hs' & Hno' & _ & Hr'). rewrite Hs in Hs'.
      destruct (first_slash_unique _ _ _ _ Hs' Hno Hno'). congruence.
    + left. by exists c, r.
Qed.

Example ParseCloudRegion_examples explode :
  ParseCloudRegion explode "gce/us-east1" = ("gce", "us-east1", None)
  ∧ ParseCloudRegion explode "a/b/c" = ("a", "b/c", None)
  ∧ ParseCloudRegion explode "/us-east1"
    = ("", "", Some (NotValidf "cloud region %q" ["/us-east1"]))
  ∧ ParseCloudRegion explode "gce/"
    = ("", "", Some (NotValidf "cloud region %q" ["gce/"]))
  ∧ ParseCloudRegion explode "gce"
    = ("", "", Some (NotValidf "cloud region %q" ["gce"]))
  ∧ ParseCloudRegion explode ""
    = ("", "", Some (NotValidf "cloud region %q" [""])).
Proof. repeat split; reflexivity. Qed.

Section UpdateKubeCloudWithStorage.
Context (explode : string → Z → list string) (World : Type)
  (BuildHostCloudRegion : string → string → string)
  (SplitHostCloudRegion : string → list string)
  (IsNonPreferredStorageError : option error → bool)
  (WorkloadStorageKey OperatorStorageKey : string)
  (quote : string → string) (Error : error → string).

Abbreviation Update :=
  (UpdateKubeCloudWithStorage explode World BuildHostCloudRegion
     SplitHostCloudRegion IsNonPreferredStorageError
     WorkloadStorageKey OperatorStorageKey quote Error).
Abbreviation finish :=
  (finish_storage World WorkloadStorageKey OperatorStorageKey quote).
Abbreviation region_of :=
  (hostCloudRegion_of World BuildHostCloudRegion).

(** The tail of the function returns no [ClusterQueryError]. *)
Lemma finish_storage_not_ClusterQueryError k8sCloud storageParams
    clusterMetadata err w s msg cloud' w' :
  finish k8sCloud storageParams clusterMetadata err w
  ≠ (Returns (s, Some (ClusterQueryError msg)), cloud', w').
Proof.
  unfold finish_storage. intros H.
  repeat case_match; simplify_eq.
Qed.

(** C10. Whenever [UpdateKubeCloudWithStorage] returns a
    [ClusterQueryError], the cloud behind [k8sCloud] is what it was
    before the call, and the error is one of the two returned before
    any field is assigned: the cluster metadata could not be had
    (the query failed or gave nil), or no host cloud region could be
    determined. *)
Theorem UpdateKubeCloudWithStorage_ClusterQueryError_frame
    (k8sCloud : cloud.Cloud) (storageParams : KubeCloudStorageParams World)
    (w : World) (s msg : string) (cloud' : cloud.Cloud) (w' : World) :
  Update k8sCloud storageParams w
  = (Returns (s, Some (ClusterQueryError msg)), cloud', w') →
  cloud' = k8sCloud
  ∧ s = ""
  ∧ ((∃ e, (GetClusterMetadata World storageParams
              (MetadataChecker World storageParams) w).1.2 = Some e
           ∧ msg = Error e)
     ∨ ((GetClusterMetadata World storageParams
           (MetadataChecker World storageParams) w).1
        = (None, None) ∧ msg = "cannot get cluster metadata")
     ∨ (∃ clusterMetadata,
           (GetClusterMetadata World storageParams
              (MetadataChecker World storageParams) w).1
           = (Some clusterMetadata, None)
           ∧ region_of storageParams clusterMetadata = Returns ""
           ∧ msg = "")).
Proof.
  unfold UpdateKubeCloudWithStorage.
  destruct (GetClusterMetadata World storageParams _ w)
    as [[clusterMetadata err] w1]; simpl.
  destruct err as [e|].
  { intros [= <- <- <- <-]. split; [done|]. split; [done|].
    left. by exists e. }
  destruct clusterMetadata as [clusterMetadata|].
  2:{ intros [= <- <- <- <-]. split; [done|]. split; [done|].
      right; left. done. }
  destruct (region_of storageParams clusterMetadata) as [r|] eqn:Hr;
    [|done].
  destruct (String.eqb_spec r "") as [->|Hne].
  { intros [= <- <- <- <-]. split; [done|]. split; [done|].
    right; right. by exists clusterMetadata. }
  intros H. exfalso.
  repeat case_match; simplify_eq;
    by eapply finish_storage_not_ClusterQueryError.
Qed.

End UpdateKubeCloudWithStorage.

Import Fixtures.

Lemma UpdateKubeCloudWithStorage_ClusterQueryError_frame_witness :
  Update0 microk8s params_nometa tt
  = (Returns ("", Some (ClusterQueryError "cannot get cluster metadata")),
     microk8s, tt)
  ∧ microk8s = microk8s.
Proof.
  split; [reflexivity|].
  symmetry.
  apply (UpdateKubeCloudWithStorage_ClusterQueryError_frame
           explode0 unit build0 split0 isNonPreferred0
           "workload-storage" "operator-storage" (λ s, s) Error0
           microk8s params_nometa tt ""
           "cannot get cluster metadata" microk8s tt).
  reflexivity.
Defined.

(** A failure after line 125 leaves the cloud updated: here the storage
    check fails with a cluster query error of its own, which comes back
    wrapped by [errors.Trace], not as a [ClusterQueryError]. *)
Example UpdateKubeCloudWithStorage_later_failure :
  Update0 microk8s params_query tt
  = (Returns ("", Some (Trace (ClusterQueryError "no storage"))),
     cloud.mkCloud "microk8s" "kubernetes" ["certificate"] "https://1.2.3.4"
       (Some [cloud.mkRegion "eu-west1" ""]) None [] "gce/eu-west1",
     tt).
Proof. vm_compute. reflexivity. Qed.

End ProviderFacts.

(* ===================================================================== *)
(** * The termination worker's manifold *)
(* ===================================================================== *)

Module TerminationFacts.
Import dependency terminationworker.

(** C7. The termination worker's manifold is the component contract in
    its minimal form: no declared inputs, no output function, no filter,
    and a start function that, for every Context, returns the worker that
    its call of [NewWorker] creates, with a nil error. *)
Theorem Manifold_minimal {Worker Sys : Type} (NewWorker : Sys → Worker * Sys) :
  Inputs (Manifold NewWorker) = []
  ∧ Output (Manifold NewWorker) = None
  ∧ Filter (Manifold NewWorker) = None
  ∧ ∀ (ctx : Context) (σ : Sys),
      Start (Manifold NewWorker) ctx σ
      = (((NewWorker σ).1, None), (NewWorker σ).2).
Proof.
  repeat split. intros ctx σ. simpl. by destruct (NewWorker σ).
Qed.

(** Two starts in a row call [NewWorker] twice, each in the process state
    the previous call left. *)
Lemma Start_twice {Worker Sys : Type} (NewWorker : Sys → Worker * Sys)
    (ctx1 ctx2 : Context) (σ : Sys) :
  let r1 := Start (Manifold NewWorker) ctx1 σ in
  let r2 := Start (Manifold NewWorker) ctx2 r1.2 in
  r1.1 = ((NewWorker σ).1, None)
  ∧ r2.1 = ((NewWorker (NewWorker σ).2).1, None).
Proof.
  simpl. destruct (NewWorker σ) as [w1 σ1] eqn:H1. simpl.
  by destruct (NewWorker σ1).
Qed.

End TerminationFacts.

(* ===================================================================== *)
(** * The cleanup worker *)
(* ===================================================================== *)

Module MetricWorkerFacts.
Import metricworker Fixtures.

(** With a notify channel that has been closed, a successful cleanup
    panics in the send: the function does not return nil for every
    client and every channel. *)
Lemma cleanup_closed_notify_panics :
  ¬ (∀ (client : MetricsManagerClient unit) (σ : env unit),
        (cleanup client σ).1 = Returns None).
Proof.
  intros H. specialize (H client_ok (env_of (Some closed_chan))).
  vm_compute in H. discriminate.
Qed.

Lemma try_send_open ch v :
  (∀ c, ch = Some c → closed c = false) →
  ∃ ch', try_send ch v = Returns ch'.
Proof.
  intros Hopen. destruct ch as [c|]; simpl; [|eauto].
  rewrite (Hopen c eq_refl). destruct (receivers c); [|eauto].
  destruct (_ <? _)%nat; eauto.
Qed.

Lemma try_send_skip ch v :
  ch = None
  ∨ (∃ c, ch = Some c ∧ closed c = false ∧ receivers c = 0%nat
          ∧ (capacity c ≤ length (buffer c))%nat) →
  try_send ch v = Returns ch.
Proof.
  intros [-> | (c & -> & Hc & Hr & Hfull)]; [done|].
  simpl. rewrite Hc, Hr.
  destruct (Nat.ltb_spec (length (buffer c)) (capacity c)); [lia|done].
Qed.

(** C8, amended. For every metrics-manager client and every notify
    channel that has not been closed, the iteration function of
    [newCleanup] returns nil on every path: when [CleanupOldMetrics]
    returns an error the function logs it, leaves the channel alone and
    returns nil; when it succeeds nothing is logged and the send does not
    block, a nil or full channel being skipped. *)
Theorem cleanup_returns_nil {World : Type}
    (client : MetricsManagerClient World) (σ : env World) :
  (∀ c, notify σ = Some c → closed c = false) →
  (cleanup client σ).1 = Returns None
  ∧ world (cleanup client σ).2 = (CleanupOldMetrics client (world σ)).2
  ∧ (∀ e, (CleanupOldMetrics client (world σ)).1 = Some e →
       log (cleanup client σ).2
       = (log σ ++ [mkLogEntry "WARNING"
                      "failed to cleanup %v - will retry later" e])%list
       ∧ notify (cleanup client σ).2 = notify σ)
  ∧ ((CleanupOldMetrics client (world σ)).1 = None →
       log (cleanup client σ).2 = log σ
       ∧ try_send (notify σ) "cleanupCalled"
         = Returns (notify (cleanup client σ).2)
       ∧ (notify σ = None
          ∨ (∃ c, notify σ = Some c ∧ closed c = false
                  ∧ receivers c = 0%nat
                  ∧ (capacity c ≤ length (buffer c))%nat) →
          notify (cleanup client σ).2 = notify σ)).
Proof.
  intros Hopen. unfold cleanup.
  destruct (CleanupOldMetrics client (world σ)) as [[e|] w] eqn:Hc; simpl.
  - split; [done|]. split; [done|]. split; [|done].
    intros e' [= <-]. done.
  - destruct (try_send_open (notify σ) "cleanupCalled" Hopen) as [ch' Hs].
    rewrite Hs. simpl. split; [done|]. split; [done|]. split; [done|].
    intros _. split; [done|]. split; [done|].
    intros Hskip. rewrite (try_send_skip _ _ Hskip) in Hs. congruence.
Qed.

Lemma cleanup_returns_nil_witness :
  (∀ c, notify (env_of (Some open_chan)) = Some c → closed c = false)
  ∧ (cleanup client_failing (env_of (Some open_chan))).1 = Returns None
  ∧ (cleanup client_ok (env_of (Some full_chan))).1 = Returns None.
Proof.
  split; [by intros c [= <-]|]. split.
  - apply (cleanup_returns_nil client_failing (env_of (Some open_chan))).
    by intros c [= <-].
  - apply (cleanup_returns_nil client_ok (env_of (Some full_chan))).
    by intros c [= <-].
Defined.

Example cleanup_examples :
  cleanup client_ok (env_of (Some open_chan))
  = (Returns None,
     mkEnv tt [] (Some (mkChannel false 1 ["cleanupCalled"] 0 [])))
  ∧ cleanup client_ok (env_of (Some full_chan))
    = (Returns None, env_of (Some full_chan))
  ∧ cleanup client_ok (env_of None) = (Returns None, env_of None)
  ∧ cleanup client_failing (env_of (Some open_chan))
    = (Returns None,
       mkEnv tt [mkLogEntry "WARNING"
                   "failed to cleanup %v - will retry later"
                   (Errorf "api down")] (Some open_chan))
  ∧ (cleanup client_ok (env_of (Some closed_chan))).1 = Panics.
Proof. repeat split. Qed.

End MetricWorkerFacts.

(* ===================================================================== *)
(** * The dependency graph: closures and the cycle check *)
(* ===================================================================== *)

Module EngineGraphFacts.
Import dependency EngineSpec.

Section Closure.
Variable next : string → gset string.

Abbreviation expand := (expand next).
Abbreviation closed := (closed next).

Lemma elem_of_expand S y :
  y ∈ expand S ↔ y ∈ S ∨ ∃ x, x ∈ S ∧ y ∈ next x.
Proof.
  unfold expand. rewrite elem_of_union, elem_of_union_list.
  split; intros [H|H]; auto; right.
  - destruct H as (X & HX & Hy).
    apply list_elem_of_fmap in HX as (x & -> & Hx).
    exists x. by rewrite <- elem_of_elements.
  - destruct H as (x & Hx & Hy). exists (next x). split; [|done].
    apply list_elem_of_fmap. exists x. by rewrite elem_of_elements.
Qed.

Lemma closure_succ k S :
  closure next (Datatypes.S k) S = closure next k (expand S).
Proof. reflexivity. Qed.

Lemma closure_incl k S : S ⊆ closure next k S.
Proof.
  revert S. induction k as [|k IH]; intros S; [done|].
  rewrite closure_succ. etrans; [|apply IH].
  intros x Hx. apply elem_of_expand. by left.
Qed.

Lemma expand_closed S : closed S → expand S = S.
Proof.
  intros HS. apply set_eq. intros y. rewrite elem_of_expand.
  split; [|by left]. intros [H|(x & Hx & Hy)]; [done|]. by eapply HS.
Qed.

Lemma closure_closed_id k S : closed S → closure next k S = S.
Proof.
  intros HS. induction k as [|k IH]; [done|].
  by rewrite closure_succ, expand_closed.
Qed.

(** Outside of the finite set [D] nothing has a successor: the closure
    is closed once the fuel exceeds what of [D] is still missing. *)
Lemma closure_closed (D : gset string) k S :
  (∀ x, x ∉ D → next x = ∅) →
  (size (D ∖ S) < k)%nat →
  closed (closure next k S).
Proof.
  intros HD. revert S. induction k as [|k IH]; intros S Hk; [lia|].
  rewrite closure_succ.
  assert (Hsub : D ∖ expand S ⊆ D ∖ S).
  { intros x. rewrite !elem_of_difference, elem_of_expand. naive_solver. }
  destruct (decide (size (D ∖ expand S) = size (D ∖ S))) as [Heq|Hne].
  - assert (Hsame : D ∖ expand S ≡ D ∖ S).
    { apply set_subseteq_size_equiv; [done|lia]. }
    assert (Hcl : closed (expand S)).
    { intros x y Hx Hy.
      apply elem_of_expand in Hx as [Hx|(x0 & Hx0 & Hx)].
      - apply elem_of_expand. right. eauto.
      - destruct (decide (x ∈ D)) as [HxD|HxD].
        + destruct (decide (x ∈ S)) as [HxS|HxS].
          * apply elem_of_expand. right. eauto.
          * assert (x ∈ D ∖ S) as Hin by set_solver.
            apply Hsame in Hin.
            apply elem_of_difference in Hin as [_ Hin].
            exfalso. apply Hin. apply elem_of_expand. right. eauto.
        + rewrite (HD x HxD) in Hy. set_solver. }
    by rewrite closure_closed_id.
  - apply IH. apply subseteq_size in Hsub. lia.
Qed.

End Closure.

Section Graph.
Context {Worker Sys : Type}.
Implicit Types (m : gmap string (Entry Worker Sys)).

Lemma inputs_of_not_dom m x : x ∉ dom m → inputs_of m x = [].
Proof.
  intros Hx. unfold inputs_of.
  by rewrite (not_elem_of_dom_1 m x Hx).
Qed.

(** A closed set that holds [x] holds whatever [x] reaches. *)
Lemma reaches_closed m (C : gset string) x y :
  closed (λ x, list_to_set (inputs_of m x)) C →
  reaches m x y → x ∈ C → y ∈ C.
Proof.
  intros HC Hr. induction Hr as [x y Hy | x y z Hy _ IH]; intros Hx.
  - eapply HC; [done|]. by apply elem_of_list_to_set.
  - apply IH. eapply HC; [done|]. by apply elem_of_list_to_set.
Qed.

Lemma transitive_inputs_closed m ins :
  closed (λ x, list_to_set (inputs_of m x)) (transitive_inputs m ins).
Proof.
  unfold transitive_inputs.
  apply (closure_closed _ (dom m)).
  - intros x Hx. by rewrite inputs_of_not_dom.
  - rewrite <- (size_dom (D:=gset string) m).
    pose proof (subseteq_size (dom m ∖ list_to_set ins) (dom m)) as Hs.
    assert (dom m ∖ list_to_set ins ⊆ dom m) as Hsub by set_solver.
    specialize (Hs Hsub). lia.
Qed.

(** The check finds every cycle. *)
Lemma transitive_inputs_complete m ins i y :
  i ∈ ins → (i = y ∨ reaches m i y) → y ∈ transitive_inputs m ins.
Proof.
  intros Hi Hy.
  assert (Hin : i ∈ transitive_inputs m ins).
  { apply closure_incl. by apply elem_of_list_to_set. }
  destruct Hy as [<-|Hr]; [done|].
  eapply reaches_closed; eauto using transitive_inputs_closed.
Qed.

(** Members of a closure are reached from the set it starts from. *)
Lemma closure_sound m k (S : gset string) y :
  y ∈ closure (λ x, list_to_set (inputs_of m x)) k S →
  ∃ x, x ∈ S ∧ (x = y ∨ reaches m x y).
Proof.
  revert S. induction k as [|k IH]; intros S Hy; [eauto|].
  rewrite closure_succ in Hy. apply IH in Hy as (x & Hx & Hxy).
  apply elem_of_expand in Hx as [Hx|(x0 & Hx0 & Hx)]; [eauto|].
  apply elem_of_list_to_set in Hx.
  exists x0. split; [done|]. right.
  destruct Hxy as [<-|Hr]; [by constructor|].
  by eapply reaches_trans.
Qed.

Lemma reaches_insert_fresh m name en x y :
  m !! name = None → reaches m x y → reaches (<[name := en]> m) x y.
Proof.
  intros Hn Hr.
  assert (Hin : ∀ x y, y ∈ inputs_of m x
                       → y ∈ inputs_of (<[name := en]> m) x).
  { intros x' y'. unfold inputs_of.
    destruct (decide (name = x')) as [<-|Hne].
    - rewrite Hn. by intros ?%elem_of_nil.
    - by rewrite lookup_insert_ne. }
  induction Hr; [constructor 1 | econstructor 2]; eauto.
Qed.

End Graph.

End EngineGraphFacts.

Module EngineInstallFacts.
Import dependency EngineSpec EngineGraphFacts.

Section Install.
Context {Worker Sys : Type}.
Implicit Types (e : Engine Worker Sys) (d : Manifold Worker Sys).

Lemma checkAcyclic_cycle (m : gmap string (Entry Worker Sys)) name d :
  m !! name = None →
  transitively_includes m d name →
  checkAcyclic m name d = false.
Proof.
  intros Hfresh (i & Hi & Hreach). unfold checkAcyclic.
  rewrite bool_decide_eq_true_2; [done|].
  eapply transitive_inputs_complete; [done|].
  destruct Hreach as [->|Hr]; [by left|right].
  by apply reaches_insert_fresh.
Qed.

(** C3, amended. For every declaration whose name is not installed yet
    and whose inputs transitively include its own name, the install
    fails with the cycle-detected error and leaves the engine, its
    installed set and every worker record included, exactly as it
    was. *)
Theorem install_cycle_rejected e name d :
  entries e !! name = None →
  transitively_includes (entries e) d name →
  step e (Install name d) = (e, Some ErrCycleDetected).
Proof.
  intros Hfresh Hcyc. simpl. unfold install.
  by rewrite Hfresh, checkAcyclic_cycle.
Qed.

(** C4. For every installed name that is listed among the inputs of
    another installed declaration, the uninstall fails with
    [ErrStillDepended] and the engine is exactly what it was: no record
    is removed, no worker is stopped, no field changes. *)
Theorem uninstall_still_depended e name other en en' :
  entries e !! name = Some en →
  entries e !! other = Some en' →
  other ≠ name →
  name ∈ Inputs (decl en') →
  step e (Uninstall name) = (e, Some ErrStillDepended).
Proof.
  intros _ Hother _ Hin. simpl. unfold uninstall.
  rewrite bool_decide_eq_false_2; [done|].
  intros Hempty.
  assert (other ∈ dependents (entries e) name) as Hd.
  { unfold dependents. apply elem_of_dom. exists en'.
    by apply map_lookup_filter_Some. }
  rewrite Hempty in Hd. by apply not_elem_of_empty in Hd.
Qed.

End Install.

End EngineInstallFacts.

(* ===================================================================== *)
(** * Histories *)
(* ===================================================================== *)

Module HistoryFacts.
Import dependency EngineSpec.

Lemma phase_from_app p n h h' :
  phase_from p n (h ++ h') = phase_from (phase_from p n h) n h'.
Proof. revert p. induction h as [|it h IH]; intros p; simpl; [done|apply IH]. Qed.

Lemma phase_app n h h' : phase n (h ++ h') = phase_from (phase n h) n h'.
Proof. apply phase_from_app. Qed.

Lemma phase_snoc n h it :
  phase n (h ++ [it])
  = if bool_decide (item_name it = n) then next_phase (phase n h) it
    else phase n h.
Proof. by rewrite phase_app. Qed.

Lemma ordered_after_app pre h h' :
  ordered_after pre (h ++ h')
  ↔ ordered_after pre h ∧ ordered_after (pre ++ h) h'.
Proof.
  revert pre. induction h as [|it h IH]; intros pre; simpl.
  - rewrite app_nil_r. naive_solver.
  - rewrite IH, <- app_assoc. simpl. naive_solver.
Qed.

Lemma ordered_after_split pre h :
  ordered_after pre h
  ↔ ∀ h1 it h2, h = h1 ++ it :: h2 → admissible (pre ++ h1) it.
Proof.
  revert pre. induction h as [|it h IH]; intros pre; simpl.
  - split; [|done]. intros _ [|??] ?? ?; simplify_eq.
  - rewrite IH. split.
    + intros [Hit Hrest] [|it' h1] it'' h2 Heq; simplify_eq/=.
      * by rewrite app_nil_r.
      * specialize (Hrest h1 it'' h2 eq_refl).
        by rewrite <- app_assoc in Hrest.
    + intros Hall. split.
      * specialize (Hall [] it h eq_refl). by rewrite app_nil_r in Hall.
      * intros h1 it' h2 ->. rewrite <- app_assoc.
        by apply (Hall (it :: h1) it' h2).
Qed.

Lemma well_ordered_ordered h : well_ordered h ↔ ordered_after [] h.
Proof. by rewrite ordered_after_split. Qed.

Lemma well_ordered_app h h' :
  well_ordered h → ordered_after h h' → well_ordered (h ++ h').
Proof.
  rewrite !well_ordered_ordered, ordered_after_app. by split.
Qed.

Lemma well_ordered_snoc h it :
  well_ordered h → admissible h it → well_ordered (h ++ [it]).
Proof. intros Hh Hit. apply well_ordered_app; [done|]. by split. Qed.

Lemma well_ordered_prefix h h' : well_ordered (h ++ h') → well_ordered h.
Proof. rewrite !well_ordered_ordered, ordered_after_app. by intros [? _]. Qed.

(** ** Items made from the records of a map, one for each at most *)

Section Batch.
Context {A : Type} (f : string * A → option Item).
Hypothesis f_name : ∀ p it, f p = Some it → item_name it = p.1.

Lemma phase_from_omap_other p n (l : list (string * A)) :
  (∀ q, q ∈ l → q.1 = n → f q = None) →
  phase_from p n (omap f l) = p.
Proof.
  revert p. induction l as [|q l IH]; intros p Hl; simpl; [done|].
  destruct (f q) as [it|] eqn:Hq; simpl.
  - rewrite bool_decide_eq_false_2.
    + apply IH. intros q' Hq'. apply Hl. by right.
    + rewrite (f_name _ _ Hq). intros Hn.
      rewrite (Hl q) in Hq; [done|by left|done].
  - apply IH. intros q' Hq'. apply Hl. by right.
Qed.

Lemma phase_from_omap_in p n a (l : list (string * A)) :
  NoDup l.*1 → (n, a) ∈ l →
  phase_from p n (omap f l)
  = match f (n, a) with
    | Some it => next_phase p it
    | None => p
    end.
Proof.
  revert p. induction l as [|q l IH]; intros p Hnd Hin; simpl.
  { by apply elem_of_nil in Hin. }
  rewrite fmap_cons in Hnd. apply NoDup_cons in Hnd as [Hq Hnd].
  assert (Hrest : ∀ q', q' ∈ l → q'.1 = q.1 → f q' = None).
  { intros q' Hq' Heq. exfalso. apply Hq. rewrite <- Heq.
    apply list_elem_of_fmap. by exists q'. }
  apply elem_of_cons in Hin as [<-|Hin].
  - destruct (f (n, a)) as [it|] eqn:Hf; simpl.
    + rewrite bool_decide_eq_true_2 by (by rewrite (f_name _ _ Hf)).
      by apply phase_from_omap_other.
    + by apply phase_from_omap_other.
  - assert (q.1 ≠ n) as Hne.
    { intros Heq. apply Hq. rewrite Heq. apply list_elem_of_fmap.
      by exists (n, a). }
    destruct (f q) as [it|] eqn:Hf; simpl.
    + rewrite bool_decide_eq_false_2 by (by rewrite (f_name _ _ Hf)).
      by apply IH.
    + by apply IH.
Qed.

Lemma ordered_after_omap pre (l : list (string * A)) :
  (∀ l1 q l2 it, l = l1 ++ q :: l2 → f q = Some it →
     admissible (pre ++ omap f l1) it) →
  ordered_after pre (omap f l).
Proof.
  revert pre. induction l as [|q l IH]; intros pre Hall; simpl; [done|].
  destruct (f q) as [it|] eqn:Hf; simpl.
  - split.
    + specialize (Hall [] q l it eq_refl Hf). by rewrite app_nil_r in Hall.
    + apply IH. intros l1 q' l2 it' -> Hf'. rewrite <- app_assoc. simpl.
      specialize (Hall (q :: l1) q' l2 it' eq_refl Hf').
      simpl in Hall. by rewrite Hf in Hall.
  - apply IH. intros l1 q' l2 it' -> Hf'.
    specialize (Hall (q :: l1) q' l2 it' eq_refl Hf').
    simpl in Hall. by rewrite Hf in Hall.
Qed.
End Batch.

Lemma phase_ctx_next_stop p it :
  (∃ n, it = HStop n) → phase_ctx (next_phase p it) = phase_ctx p.
Proof. intros [n ->]. by destruct p. Qed.

Lemma phase_ctx_from_stops p n h :
  (∀ it, it ∈ h → ∃ a, it = HStop a) →
  phase_ctx (phase_from p n h) = phase_ctx p.
Proof.
  revert p. induction h as [|it h IH]; intros p Hh; simpl; [done|].
  rewrite IH by (intros it' ?; apply Hh; by right).
  case_bool_decide; [|done].
  apply phase_ctx_next_stop, Hh. by left.
Qed.

End HistoryFacts.

(* ===================================================================== *)
(** * The invariant of the control loop *)
(* ===================================================================== *)

Module EngineInvariant.
Import dependency EngineSpec HistoryFacts.

Section Invariant.
Context {Worker Sys : Type}.
Implicit Types (e : Engine Worker Sys) (en : Entry Worker Sys)
  (m : gmap string (Entry Worker Sys))
  (g : Entry Worker Sys → Entry Worker Sys).

Lemma lookup_imap_total {B : Type} (g : string → Entry Worker Sys → B) m n :
  map_imap (λ x en, Some (g x en)) m !! n = g n <$> m !! n.
Proof. rewrite map_lookup_imap. by destruct (m !! n). Qed.

(** ** Records and phases *)

Lemma agrees_running (o : option (Entry Worker Sys)) p ctx :
  agrees o p → phase_ctx p = Some ctx →
  ∃ en, o = Some en ∧ state en ≠ Stopped
        ∧ ctx_inputs ctx = Inputs (decl en).
Proof.
  destruct o as [en|]; simpl; [|by intros ->].
  destruct (state en) eqn:Hs.
  - by intros ->.
  - intros (_ & c & -> & Hc) [= <-]. exists en. by rewrite Hs.
  - intros (_ & c & -> & Hc) [= <-]. exists en. by rewrite Hs.
  - intros (c & Hc & Hp) Hctx. exists en. rewrite Hs.
    split; [done|]. split; [done|].
    destruct (abort en); [|destruct Hp]; subst p; simpl in Hctx;
      by simplify_eq.
Qed.

Lemma agrees_decideStop en p :
  agrees (Some en) p → agrees (Some (decideStop en)) p.
Proof.
  unfold decideStop, agrees. destruct (state en) eqn:Hs; simpl;
    rewrite ?Hs; try done.
  - intros (Ha & c & -> & Hc). exists c. rewrite Ha. auto.
  - intros (Ha & c & -> & Hc). exists c. rewrite Ha. auto.
Qed.

Lemma agrees_same en en' p :
  decl en' = decl en → state en' = state en → abort en' = abort en →
  agrees (Some en) p → agrees (Some en') p.
Proof. unfold agrees. by intros -> -> ->. Qed.

(** ** The passes that leave the history alone *)

Abbreviation quiet := (@quiet Worker Sys).

Lemma quiet_decideStop : quiet decideStop.
Proof. intros en p. apply agrees_decideStop. Qed.

Lemma quiet_id : quiet (@id (Entry Worker Sys)).
Proof. by intros en p. Qed.

Lemma quiet_with_eligible b : quiet (with_eligible b).
Proof. intros en p. by apply agrees_same. Qed.

Lemma quiet_with_removing b : quiet (with_removing b).
Proof. intros en p. by apply agrees_same. Qed.

Lemma quiet_compose g1 g2 : quiet g1 → quiet g2 → quiet (g1 ∘ g2).
Proof. intros H1 H2 en p Hp. apply H1, H2, Hp. Qed.

Lemma quiet_if (b : bool) g1 g2 :
  quiet g1 → quiet g2 → quiet (λ en, if b then g1 en else g2 en).
Proof. intros H1 H2 en p. destruct b; [apply H1|apply H2]. Qed.

Lemma consistent_with_entries e m' :
  consistent e →
  (∀ n, agrees (entries e !! n) (phase n (history e)) →
        agrees (m' !! n) (phase n (history e))) →
  consistent (with_entries m' e).
Proof.
  intros [Hwo Hag] Hm. split; [done|]. intros n. apply Hm, Hag.
Qed.

Lemma consistent_imap e (gn : string → Entry Worker Sys → Entry Worker Sys) :
  (∀ n, quiet (gn n)) → consistent e →
  consistent (with_entries (map_imap (λ n en, Some (gn n en)) (entries e)) e).
Proof.
  intros Hg He. apply consistent_with_entries; [done|].
  intros n. rewrite lookup_imap_total.
  destruct (entries e !! n) as [en|]; simpl; [apply Hg|done].
Qed.

Lemma consistent_fmap e g :
  quiet g → consistent e →
  consistent (with_entries (g <$> entries e) e).
Proof.
  intros Hg He. apply consistent_with_entries; [done|].
  intros n. rewrite lookup_fmap.
  destruct (entries e !! n) as [en|]; simpl; [apply Hg|done].
Qed.

Lemma consistent_alter e g name :
  quiet g → consistent e →
  consistent (with_entries (alter g name (entries e)) e).
Proof.
  intros Hg He. apply consistent_with_entries; [done|].
  intros n. destruct (decide (name = n)) as [<-|Hne].
  - rewrite lookup_alter_eq.
    destruct (entries e !! name) as [en|]; simpl; [apply Hg|done].
  - by rewrite lookup_alter_ne.
Qed.

Lemma consistent_insert_quiet e name en g :
  entries e !! name = Some en → quiet g → consistent e →
  consistent (with_entries (<[name := g en]> (entries e)) e).
Proof.
  intros Hn Hg He. apply consistent_with_entries; [done|].
  intros n. destruct (decide (name = n)) as [<-|Hne].
  - rewrite lookup_insert_eq, Hn. apply Hg.
  - by rewrite lookup_insert_ne.
Qed.

Lemma consistent_bounceDependents n e :
  consistent e → consistent (bounceDependents n e).
Proof.
  intros He. unfold bounceDependents.
  apply (consistent_imap e
           (λ x en, if bool_decide (x ∈ transitive_dependents (entries e) n)
                    then decideStop en else en)); [|done].
  intros x. apply (quiet_if _ decideStop id);
    [apply quiet_decideStop | apply quiet_id].
Qed.

Lemma consistent_wakeDependents n e :
  consistent e → consistent (wakeDependents n e).
Proof.
  intros He. unfold wakeDependents.
  apply consistent_fmap; [|done].
  intros en p Hp. case_bool_decide; [|done].
  by apply quiet_with_eligible.
Qed.

Lemma consistent_beginShutdown err e :
  consistent e → consistent (beginShutdown err e).
Proof.
  intros [Hwo Hag]. split; [done|]. intros n. simpl.
  rewrite lookup_fmap. specialize (Hag n).
  destruct (entries e !! n) as [en|]; simpl; [|done].
  by apply agrees_decideStop.
Qed.

Lemma consistent_escalate err e :
  consistent e → consistent (escalate err e).
Proof.
  intros He. unfold escalate. destruct (isFatal err); [|done].
  by apply consistent_beginShutdown.
Qed.

(** ** Removal *)

Lemma consistent_removeEval e : consistent e → consistent (removeEval e).
Proof.
  intros [Hwo Hag]. split; [done|]. intros n. simpl.
  specialize (Hag n).
  destruct (entries e !! n) as [en|] eqn:Hn.
  - destruct (decide (removing en = true ∧ state en = Stopped))
      as [[Hrm Hs]|Hkeep].
    + rewrite (proj2 (map_lookup_filter_None _ _ n)).
      * simpl in *. by rewrite Hs in Hag.
      * right. intros en' Hn'. simplify_eq. simpl. intros Hnot.
        by apply Hnot.
    + rewrite (map_lookup_filter_Some_2 _ _ n en); done.
  - rewrite (proj2 (map_lookup_filter_None _ _ n)); [done|by left].
Qed.

(** ** Stop evaluation *)

Lemma stop_ready_spec m n en :
  stop_ready m n en = true →
  state en = Stopping ∧ abort en = false
  ∧ ∀ x ex, m !! x = Some ex → n ∈ Inputs (decl ex) → state ex = Stopped.
Proof.
  unfold stop_ready. rewrite !andb_true_iff, negb_true_iff.
  intros [[Hs Ha] Hall].
  apply bool_decide_eq_true in Hs. apply bool_decide_eq_true in Hall.
  split; [done|]. split; [done|].
  intros x ex Hx. by apply (map_Forall_lookup_1 _ _ _ _ Hall Hx).
Qed.

Lemma map_to_list_split_lookup m l1 (q : string * Entry Worker Sys) l2 :
  map_to_list m = l1 ++ q :: l2 →
  m !! q.1 = Some q.2
  ∧ (∀ q', q' ∈ l1 → q'.1 ≠ q.1)
  ∧ (∀ q', q' ∈ l1 → m !! q'.1 = Some q'.2).
Proof.
  intros Hl.
  assert (Hin : ∀ q', q' ∈ l1 ++ q :: l2 → m !! q'.1 = Some q'.2).
  { intros [x ex] Hq'. rewrite <- Hl in Hq'.
    by apply elem_of_map_to_list in Hq'. }
  split; [apply Hin; set_solver|]. split.
  - pose proof (NoDup_fst_map_to_list m) as Hnd.
    rewrite Hl, fmap_app, fmap_cons in Hnd.
    apply NoDup_app in Hnd as (_ & Hnd & _).
    intros q' Hq' Heq. apply (Hnd q'.1).
    + apply list_elem_of_fmap. by exists q'.
    + rewrite Heq. by left.
  - intros q' Hq'. apply Hin. set_solver.
Qed.

Lemma consistent_stopEval e : consistent e → consistent (stopEval e).
Proof.
  intros [Hwo Hag]. unfold stopEval.
  set (m := entries e). set (h := history e).
  set (f := λ p : string * Entry Worker Sys,
              if stop_ready m p.1 p.2 then Some (HStop p.1) else None).
  assert (f_name : ∀ p it, f p = Some it → item_name it = p.1).
  { intros p it. unfold f. destruct (stop_ready _ _ _); [|done].
    by intros [= <-]. }
  assert (f_stop : ∀ (l : list (string * Entry Worker Sys)) it,
            it ∈ omap f l → ∃ a, it = HStop a).
  { intros l it Hit. apply list_elem_of_omap in Hit as (p & _ & Hp).
    unfold f in Hp. destruct (stop_ready _ _ _); [|done].
    simplify_eq. eauto. }
  split; simpl.
  - apply well_ordered_app; [done|].
    apply ordered_after_omap.
    intros l1 [a ea] l2 it Hl Hf.
    destruct (map_to_list_split_lookup m l1 (a, ea) l2 Hl)
      as (Ha & Hfresh & _). simpl in Ha.
    unfold f in Hf. simpl in Hf.
    destruct (stop_ready m a ea) eqn:Hready; [|done].
    injection Hf as <-.
    apply stop_ready_spec in Hready as (Hs & Hab & Hdeps).
    split; simpl.
    + rewrite phase_app, (phase_from_omap_other f f_name).
      2:{ intros q' Hq' Heq. by destruct (Hfresh q' Hq'). }
      specialize (Hag a). fold m h in Hag. rewrite Ha in Hag.
      simpl in Hag. rewrite Hs, Hab in Hag.
      destruct Hag as (c & _ & [-> | ->]); done.
    + intros b ctx. rewrite phase_app, phase_ctx_from_stops by eauto.
      intros Hctx.
      destruct (agrees_running _ _ _ (Hag b) Hctx) as (eb & Hb & Hsb & Hin).
      rewrite Hin. intros Hdep. apply Hsb. by eapply Hdeps.
  - intros n. rewrite lookup_imap_total, phase_app.
    specialize (Hag n). fold m h in Hag |- *.
    destruct (m !! n) as [en|] eqn:Hn; simpl.
    + rewrite (phase_from_omap_in f f_name _ n en).
      2:{ apply NoDup_fst_map_to_list. }
      2:{ by apply elem_of_map_to_list. }
      unfold f. simpl.
      destruct (stop_ready m n en) eqn:Hready; [|done].
      apply stop_ready_spec in Hready as (Hs & Hab & _).
      simpl in *. rewrite Hs, Hab in Hag. rewrite Hs.
      destruct Hag as (c & Hc & [-> | ->]); by exists c.
    + rewrite (phase_from_omap_other f f_name); [done|].
      intros [x ex] Hq Heq. simpl in Heq. subst x.
      apply elem_of_map_to_list in Hq. congruence.
Qed.

(** ** Readiness evaluation *)

Lemma input_ready_spec m i :
  input_ready m i = true → ∃ en, m !! i = Some en ∧ state en = Started.
Proof.
  unfold input_ready. destruct (m !! i) as [en|]; [|done].
  rewrite andb_true_iff. intros [Hs _].
  apply bool_decide_eq_true in Hs. eauto.
Qed.

Lemma start_ready_spec m en :
  start_ready m en = true →
  state en = Stopped
  ∧ ∀ i, i ∈ Inputs (decl en) → ∃ ei, m !! i = Some ei ∧ state ei = Started.
Proof.
  unfold start_ready. rewrite !andb_true_iff.
  intros [[[Hs _] _] Hall]. apply bool_decide_eq_true in Hs.
  split; [done|]. intros i Hi. apply input_ready_spec.
  rewrite forallb_forall in Hall. apply Hall. by apply list_elem_of_In.
Qed.

Lemma consistent_readinessEval e :
  consistent e → consistent (readinessEval e).
Proof.
  intros [Hwo Hag]. unfold readinessEval.
  destruct (dying e); [done|].
  set (m := entries e). set (h := history e).
  set (f := λ p : string * Entry Worker Sys,
              if start_ready m p.2
              then Some (HStart p.1 (buildContext m (decl p.2)))
              else None).
  assert (f_name : ∀ p it, f p = Some it → item_name it = p.1).
  { intros p it. unfold f. destruct (start_ready _ _); [|done].
    by intros [= <-]. }
  split; simpl.
  - apply well_ordered_app; [done|].
    apply ordered_after_omap.
    intros l1 [b eb] l2 it Hl Hf.
    destruct (map_to_list_split_lookup m l1 (b, eb) l2 Hl)
      as (Hb & Hfresh & Hl1). simpl in Hb.
    unfold f in Hf. simpl in Hf.
    destruct (start_ready m eb) eqn:Hready; [|done].
    injection Hf as <-.
    apply start_ready_spec in Hready as (Hs & Hins).
    split; simpl.
    + rewrite phase_app, (phase_from_omap_other f f_name).
      2:{ intros q' Hq' Heq. by destruct (Hfresh q' Hq'). }
      specialize (Hag b). fold m h in Hag. rewrite Hb in Hag.
      simpl in Hag. rewrite Hs in Hag. by rewrite Hag.
    + intros a Ha. destruct (Hins a Ha) as (ea & Hea & Hsa).
      rewrite phase_app, (phase_from_omap_other f f_name).
      * specialize (Hag a). fold m h in Hag. rewrite Hea in Hag.
        simpl in Hag. rewrite Hsa in Hag.
        by destruct Hag as (_ & c & -> & _).
      * intros [x ex] Hq Heq. simpl in Heq. subst x.
        specialize (Hl1 _ Hq). simpl in Hl1.
        assert (ex = ea) as -> by congruence.
        unfold f, start_ready. simpl.
        rewrite (bool_decide_eq_false_2 (state ea = Stopped)); [done|].
        by rewrite Hsa.
  - intros n. rewrite lookup_imap_total, phase_app.
    specialize (Hag n). fold m h in Hag |- *.
    destruct (m !! n) as [en|] eqn:Hn; simpl.
    + rewrite (phase_from_omap_in f f_name _ n en).
      2:{ apply NoDup_fst_map_to_list. }
      2:{ by apply elem_of_map_to_list. }
      unfold f. simpl.
      destruct (start_ready m en) eqn:Hready; [|done].
      simpl. split; [done|]. eauto.
    + rewrite (phase_from_omap_other f f_name); [done|].
      intros [x ex] Hq Heq. simpl in Heq. subst x.
      apply elem_of_map_to_list in Hq. congruence.
Qed.

Lemma consistent_evaluate e : consistent e → consistent (evaluate e).
Proof.
  intros He. unfold evaluate.
  by apply consistent_readinessEval, consistent_removeEval,
    consistent_stopEval.
Qed.

(** ** What the handlers record *)

Lemma agrees_other (o : option (Entry Worker Sys)) n it h :
  item_name it ≠ n → agrees o (phase n h) → agrees o (phase n (h ++ [it])).
Proof. intros Hne. rewrite phase_snoc. by rewrite bool_decide_eq_false_2. Qed.

Lemma consistent_ended e name en err :
  consistent e → entries e !! name = Some en → state en ≠ Stopped →
  consistent
    (record (HDown name)
       (with_entries (<[name := ended err en]> (entries e)) e)).
Proof.
  intros [Hwo Hag] Hn Hs. split; simpl.
  - apply well_ordered_snoc; [done|]. split; [|done]. simpl.
    specialize (Hag name). rewrite Hn in Hag. simpl in Hag.
    destruct (state en); try done.
    + by destruct Hag as (_ & c & -> & _).
    + by destruct Hag as (_ & c & -> & _).
    + destruct Hag as (c & _ & Hp).
      destruct (abort en); [|destruct Hp as [Hp|Hp]]; by rewrite Hp.
  - intros n. destruct (decide (name = n)) as [<-|Hne].
    + rewrite lookup_insert_eq, phase_snoc. simpl.
      by rewrite bool_decide_eq_true_2.
    + rewrite lookup_insert_ne by done. by apply agrees_other.
Qed.

Lemma consistent_started e name en w :
  consistent e → entries e !! name = Some en → state en = Starting →
  consistent
    (record (HUp name)
       (with_entries
          (<[name := started w (with_state Started en)]> (entries e)) e)).
Proof.
  intros [Hwo Hag] Hn Hs.
  pose proof (Hag name) as Hname. rewrite Hn in Hname. simpl in Hname.
  rewrite Hs in Hname. destruct Hname as (Hab & c & Hp & Hc).
  split; simpl.
  - apply well_ordered_snoc; [done|]. split; [|done]. simpl.
    by rewrite Hp.
  - intros n. destruct (decide (name = n)) as [<-|Hne].
    + rewrite lookup_insert_eq, phase_snoc. simpl.
      rewrite bool_decide_eq_true_2, Hp by done. simpl. eauto.
    + rewrite lookup_insert_ne by done. by apply agrees_other.
Qed.

Lemma consistent_placeholder e name d :
  consistent e → entries e !! name = None →
  consistent (with_entries (<[name := placeholder d]> (entries e)) e).
Proof.
  intros He Hn. apply consistent_with_entries; [done|].
  intros n. destruct (decide (name = n)) as [<-|Hne].
  - rewrite lookup_insert_eq, Hn. done.
  - by rewrite lookup_insert_ne.
Qed.

Lemma live_not_stopped en : live en = true → state en ≠ Stopped.
Proof. unfold live. by destruct (state en). Qed.

Lemma in_flight_not_stopped en : in_flight en = true → state en ≠ Stopped.
Proof. unfold in_flight. by destruct (state en). Qed.

(** ** The control loop keeps the invariant *)

Lemma consistent_fresh : consistent (@fresh Worker Sys).
Proof.
  split; simpl.
  - intros [|??] ?? ?; simplify_eq.
  - intros n. by rewrite lookup_empty.
Qed.

Lemma consistent_step e ev : consistent e → consistent (step e ev).1.
Proof.
  intros He. destruct ev as [name d|name|name err|cause|name r|name|name];
    simpl.
  - unfold install. destruct (entries e !! name) eqn:Hn; [done|].
    destruct (checkAcyclic _ _ _); [|done]. simpl.
    by apply consistent_evaluate, consistent_placeholder.
  - unfold uninstall. case_bool_decide; [|done]. simpl.
    apply consistent_evaluate, consistent_alter; [|done].
    apply (quiet_compose (with_removing true) decideStop);
      [apply quiet_with_removing | apply quiet_decideStop].
  - unfold workerExited. destruct (entries e !! name) as [en|] eqn:Hn;
      [|done].
    destruct (live en) eqn:Hlive; [|done].
    apply consistent_evaluate, consistent_escalate,
      consistent_bounceDependents, consistent_ended; try done.
    by apply live_not_stopped.
  - unfold stopEngine.
    apply consistent_evaluate, consistent_beginShutdown.
    destruct He as [Hwo Hag]. by split.
  - unfold startCompleted. destruct (entries e !! name) as [en|] eqn:Hn;
      [|done].
    destruct (in_flight en) eqn:Hfl; [|done].
    destruct r as [w|err].
    + assert (Hquiet : consistent
                (with_entries (<[name := started w en]> (entries e)) e)).
      { apply (consistent_insert_quiet e name en (started w));
          [done| |done].
        intros en' p. by apply agrees_same. }
      destruct (state en) eqn:Hs; try done.
      apply consistent_evaluate, consistent_wakeDependents,
        consistent_started; done.
    + apply consistent_evaluate, consistent_escalate,
        consistent_ended; try done.
      by apply in_flight_not_stopped.
  - unfold stopTimeout. destruct (entries e !! name) as [en|]; [|done].
    destruct (_ && _); [|done].
    by apply consistent_evaluate, consistent_beginShutdown.
  - unfold backoffElapsed.
    destruct (entries e !! name) as [en|] eqn:Hn; [|done].
    destruct (_ && _); [|done].
    apply consistent_evaluate.
    apply (consistent_insert_quiet e name en (with_eligible true));
      [done|apply quiet_with_eligible|done].
Qed.

Lemma run_app e evs evs' : run e (evs ++ evs') = run (run e evs) evs'.
Proof. apply foldl_app. Qed.

Lemma consistent_run e evs : consistent e → consistent (run e evs).
Proof.
  revert e. induction evs as [|ev evs IH]; intros e He; [done|].
  simpl. by apply IH, consistent_step.
Qed.

End Invariant.

End EngineInvariant.

(* ===================================================================== *)
(** * Fatal errors and termination *)
(* ===================================================================== *)

Module EngineFatalFacts.
Import dependency EngineSpec EngineInvariant.

Section Fatal.
Context {Worker Sys : Type}.
Implicit Types (e : Engine Worker Sys) (en : Entry Worker Sys)
  (m : gmap string (Entry Worker Sys)) (ev : event Worker Sys).

(** ** The flags of the engine *)

Lemma readinessEval_flags e :
  dying (readinessEval e) = dying e
  ∧ firstFatal (readinessEval e) = firstFatal e
  ∧ stopCause (readinessEval e) = stopCause e.
Proof. unfold readinessEval. by destruct (dying e) eqn:Hd. Qed.

Lemma evaluate_flags e :
  dying (evaluate e) = dying e
  ∧ firstFatal (evaluate e) = firstFatal e
  ∧ stopCause (evaluate e) = stopCause e.
Proof.
  unfold evaluate.
  destruct (readinessEval_flags (removeEval (stopEval e))) as (-> & -> & ->).
  done.
Qed.

Lemma evaluate_dying e : dying (evaluate e) = dying e.
Proof. apply evaluate_flags. Qed.

Lemma evaluate_firstFatal e : firstFatal (evaluate e) = firstFatal e.
Proof. apply evaluate_flags. Qed.

Lemma escalate_firstFatal err e :
  firstFatal (escalate err e)
  = match firstFatal e with
    | Some f => Some f
    | None => if isFatal err then err else None
    end.
Proof.
  unfold escalate. destruct (isFatal err); simpl; by destruct (firstFatal e).
Qed.

Lemma escalate_dying err e :
  dying (escalate err e) = dying e || isFatal err.
Proof.
  unfold escalate. destruct (isFatal err); simpl;
    by rewrite ?orb_true_r, ?orb_false_r.
Qed.

Local Arguments evaluate : simpl never.
Local Arguments escalate : simpl never.
Local Arguments isFatal : simpl never.

(** The first fatal error is kept: a turn of the control loop sets it
    only when there is none yet, to the fatal error it meets. *)
Lemma firstFatal_step e ev :
  firstFatal (step e ev).1
  = match firstFatal e with
    | Some f => Some f
    | None => encounter e ev
    end.
Proof.
  destruct ev as [name d|name|name err|cause|name r|name|name]; simpl.
  - unfold install. destruct (entries e !! name);
      [simpl; by destruct (firstFatal e)|].
    destruct (checkAcyclic _ _ _); simpl;
      rewrite ?evaluate_firstFatal; simpl; by destruct (firstFatal e).
  - unfold uninstall. case_bool_decide; simpl;
      rewrite ?evaluate_firstFatal; simpl; by destruct (firstFatal e).
  - unfold workerExited.
    destruct (entries e !! name) as [en|] eqn:Hn; simpl.
    2:{ destruct (firstFatal e), err; done. }
    destruct (live en) eqn:Hlive.
    2:{ destruct (firstFatal e), err; done. }
    rewrite evaluate_firstFatal.
    rewrite escalate_firstFatal. simpl.
    destruct (firstFatal e); [done|].
    destruct err as [x|]; simpl; [|done].
    destruct (isFatal (Some (applyFilter (decl en) x))); done.
  - unfold stopEngine. simpl. rewrite ?evaluate_firstFatal. simpl.
    by destruct (firstFatal e).
  - unfold startCompleted.
    destruct (entries e !! name) as [en|] eqn:Hn; simpl.
    2:{ destruct (firstFatal e), r; done. }
    destruct (in_flight en) eqn:Hfl.
    2:{ destruct (firstFatal e), r; done. }
    destruct r as [w|x]; simpl.
    + destruct (state en); rewrite ?evaluate_firstFatal; simpl;
        by destruct (firstFatal e).
    + rewrite evaluate_firstFatal, escalate_firstFatal. simpl.
      destruct (firstFatal e); [done|].
      destruct (isFatal (Some (applyFilter (decl en) x))); done.
  - unfold stopTimeout.
    destruct (entries e !! name) as [en|] eqn:Hn; simpl.
    2:{ by destruct (firstFatal e). }
    destruct (bool_decide (state en = Stopping) && abort en); simpl;
      rewrite ?evaluate_firstFatal; simpl; by destruct (firstFatal e).
  - unfold backoffElapsed.
    destruct (entries e !! name) as [en|] eqn:Hn; simpl.
    2:{ by destruct (firstFatal e). }
    destruct (_ && _); simpl;
      rewrite ?evaluate_firstFatal; simpl; by destruct (firstFatal e).
Qed.

Lemma firstFatal_run e evs :
  firstFatal (run e evs)
  = match firstFatal e with
    | Some f => Some f
    | None => head (fatal_errors e evs)
    end.
Proof.
  revert e. induction evs as [|ev evs IH]; intros e; simpl.
  - by destruct (firstFatal e).
  - rewrite IH, firstFatal_step.
    destruct (firstFatal e); [done|].
    by destruct (encounter e ev).
Qed.

(** Shutdown, once begun, stays begun. *)
Lemma dying_step e ev : dying e = true → dying (step e ev).1 = true.
Proof.
  intros Hd.
  destruct ev as [name d|name|name err|cause|name r|name|name]; simpl.
  - unfold install. destruct (entries e !! name); [done|].
    destruct (checkAcyclic _ _ _); simpl; by rewrite ?evaluate_dying.
  - unfold uninstall. case_bool_decide; simpl; by rewrite ?evaluate_dying.
  - unfold workerExited. destruct (entries e !! name) as [en|]; [|done].
    destruct (live en); [|done].
    rewrite evaluate_dying, escalate_dying. simpl. by rewrite Hd.
  - unfold stopEngine. simpl. by rewrite ?evaluate_dying.
  - unfold startCompleted. destruct (entries e !! name) as [en|]; [|done].
    destruct (in_flight en); [|done].
    destruct r as [w|x].
    + destruct (state en); by rewrite ?evaluate_dying.
    + rewrite evaluate_dying, escalate_dying. simpl. by rewrite Hd.
  - unfold stopTimeout. destruct (entries e !! name) as [en|]; [|done].
    destruct (_ && _); by rewrite ?evaluate_dying.
  - unfold backoffElapsed. destruct (entries e !! name) as [en|]; [|done].
    destruct (_ && _); by rewrite ?evaluate_dying.
Qed.

Lemma dying_run e evs : dying e = true → dying (run e evs) = true.
Proof.
  revert e. induction evs as [|ev evs IH]; intros e Hd; [done|].
  simpl. by apply IH, dying_step.
Qed.

(** A fatal error met begins the shutdown. *)
Lemma encounter_dying e ev err :
  encounter e ev = Some err → dying (step e ev).1 = true.
Proof.
  destruct ev as [name d|name|name [x|]|cause|name [w|x]|name|name];
    simpl; try done.
  - unfold workerExited. destruct (entries e !! name) as [en|]; [|done].
    simpl. destruct (live en); [|done]. simpl.
    destruct (isFatal (Some (applyFilter (decl en) x))) eqn:Hf; [|done].
    intros _. rewrite evaluate_dying, escalate_dying. simpl.
    rewrite Hf. apply orb_true_r.
  - unfold startCompleted. destruct (entries e !! name) as [en|]; [|done].
    simpl. destruct (in_flight en); [|done]. simpl.
    destruct (isFatal (Some (applyFilter (decl en) x))) eqn:Hf; [|done].
    intros _. rewrite evaluate_dying, escalate_dying. simpl.
    rewrite Hf. apply orb_true_r.
  - unfold stopTimeout. destruct (entries e !! name) as [en|]; [|done].
    simpl. destruct (_ && _); [|done].
    intros _. by rewrite evaluate_dying.
Qed.

Lemma fatal_errors_dying e evs err rest :
  fatal_errors e evs = err :: rest → dying (run e evs) = true.
Proof.
  revert e. induction evs as [|ev evs IH]; intros e; simpl; [done|].
  destruct (encounter e ev) as [x|] eqn:Henc.
  - intros _. apply dying_run. by eapply encounter_dying.
  - apply IH.
Qed.

Lemma fatal_errors_app e evs evs' :
  fatal_errors e (evs ++ evs')
  = fatal_errors e evs ++ fatal_errors (run e evs) evs'.
Proof.
  revert e. induction evs as [|ev evs IH]; intros e; simpl; [done|].
  rewrite IH. by destruct (encounter e ev).
Qed.

Lemma Wait_terminated e :
  terminated e = true →
  Wait e = Some (match firstFatal e with
                 | Some f => Some f
                 | None => stopCause e
                 end).
Proof. unfold Wait. by intros ->. Qed.

Lemma Wait_running e : terminated e = false → Wait e = None.
Proof. unfold Wait. by intros ->. Qed.

(** ** Stopped records have no handle *)

Lemma records_ok_imap m (gn : string → Entry Worker Sys → Entry Worker Sys) :
  (∀ n en, entry_ok en → entry_ok (gn n en)) →
  map_Forall (λ _, entry_ok) m →
  map_Forall (λ _, entry_ok) (map_imap (λ n en, Some (gn n en)) m).
Proof.
  intros Hg Hm n en'. rewrite lookup_imap_total.
  destruct (m !! n) as [en|] eqn:Hn; [|done].
  intros [= <-]. apply Hg. by eapply Hm.
Qed.

Lemma entry_ok_decideStop en : entry_ok en → entry_ok (decideStop en).
Proof.
  unfold decideStop, entry_ok.
  destruct (state en) eqn:Hs; simpl; rewrite ?Hs; done.
Qed.

Lemma entry_ok_same en en' :
  state en' = state en → handle en' = handle en →
  entry_ok en → entry_ok en'.
Proof. unfold entry_ok. by intros -> ->. Qed.

Lemma records_ok_stopEval e :
  map_Forall (λ _, entry_ok) (entries e) →
  map_Forall (λ _, entry_ok) (entries (stopEval e)).
Proof.
  intros He. simpl. apply (records_ok_imap _
    (λ n en, if stop_ready (entries e) n en then signal en else en));
    [|done].
  intros n en Hen. destruct (stop_ready _ _ _); [|done].
  by apply (entry_ok_same en).
Qed.

Lemma records_ok_removeEval e :
  map_Forall (λ _, entry_ok) (entries e) →
  map_Forall (λ _, entry_ok) (entries (removeEval e)).
Proof.
  intros He n en Hn. simpl in Hn.
  apply map_lookup_filter_Some in Hn as [Hn _]. by eapply He.
Qed.

Lemma records_ok_readinessEval e :
  map_Forall (λ _, entry_ok) (entries e) →
  map_Forall (λ _, entry_ok) (entries (readinessEval e)).
Proof.
  intros He. unfold readinessEval. destruct (dying e); [done|]. simpl.
  apply (records_ok_imap _
    (λ n en, if start_ready (entries e) en
             then launch (buildContext (entries e) (decl en)) en else en));
    [|done].
  intros n en Hen. by destruct (start_ready _ _).
Qed.

Lemma records_ok_evaluate e :
  map_Forall (λ _, entry_ok) (entries e) →
  map_Forall (λ _, entry_ok) (entries (evaluate e)).
Proof.
  intros He. unfold evaluate.
  by apply records_ok_readinessEval, records_ok_removeEval,
    records_ok_stopEval.
Qed.

Lemma records_ok_escalate err e :
  map_Forall (λ _, entry_ok) (entries e) →
  map_Forall (λ _, entry_ok) (entries (escalate err e)).
Proof.
  intros He. unfold escalate. destruct (isFatal err); [|done]. simpl.
  apply map_Forall_fmap. intros n en Hn. simpl.
  apply entry_ok_decideStop. by eapply He.
Qed.

Lemma records_ok_step e ev :
  map_Forall (λ _, entry_ok) (entries e) →
  map_Forall (λ _, entry_ok) (entries (step e ev).1).
Proof.
  intros He.
  destruct ev as [name d|name|name err|cause|name r|name|name];
    cbn [step fst].
  - unfold install. destruct (entries e !! name); [done|].
    destruct (checkAcyclic _ _ _); [|done]. simpl.
    apply records_ok_evaluate. simpl. by apply map_Forall_insert_2.
  - unfold uninstall. case_bool_decide; [|done]. simpl.
    apply records_ok_evaluate. simpl.
    intros n en'. destruct (decide (name = n)) as [<-|Hne].
    + rewrite lookup_alter_eq.
      destruct (entries e !! name) as [en|] eqn:Hn; [|done].
      intros [= <-].
      apply (entry_ok_same (decideStop en)); [done..|].
      apply entry_ok_decideStop. by eapply He.
    + rewrite lookup_alter_ne by done. apply He.
  - unfold workerExited. destruct (entries e !! name) as [en|]; [|done].
    destruct (live en); [|done].
    apply records_ok_evaluate, records_ok_escalate. simpl.
    apply (records_ok_imap _
      (λ x en0, if bool_decide (x ∈ transitive_dependents
                   (<[name:=ended (applyFilter (decl en) <$> err) en]>
                      (entries e)) name)
                then decideStop en0 else en0)).
    + intros n en' Hen'. case_bool_decide; [|done].
      by apply entry_ok_decideStop.
    + by apply map_Forall_insert_2.
  - unfold stopEngine. cbv zeta. apply records_ok_evaluate. simpl.
    apply map_Forall_fmap. intros n en Hn. simpl.
    apply entry_ok_decideStop. by eapply He.
  - unfold startCompleted.
    destruct (entries e !! name) as [en|] eqn:Hn; [|done].
    destruct (in_flight en) eqn:Hfl; [|done].
    destruct r as [w|x].
    + assert (Hkeep : map_Forall (λ _, entry_ok)
                (<[name := started w en]> (entries e))).
      { apply map_Forall_insert_2; [|done].
        unfold entry_ok. simpl. intros Hs.
        unfold in_flight in Hfl. by rewrite Hs in Hfl. }
      destruct (state en); try done.
      apply records_ok_evaluate. simpl.
      apply map_Forall_fmap. intros n en'.
      destruct (decide (name = n)) as [<-|Hne].
      * rewrite lookup_insert_eq. intros [= <-]. simpl.
        case_bool_decide; done.
      * rewrite lookup_insert_ne by done. intros Hn'. simpl.
        case_bool_decide; [|by eapply He].
        apply (entry_ok_same en'); [done..|]. by eapply He.
    + apply records_ok_evaluate, records_ok_escalate. simpl.
      by apply map_Forall_insert_2.
  - unfold stopTimeout. destruct (entries e !! name) as [en|]; [|done].
    destruct (_ && _); [|done].
    apply records_ok_evaluate. simpl.
    apply map_Forall_fmap. intros n en' Hn. simpl.
    apply entry_ok_decideStop. by eapply He.
  - unfold backoffElapsed.
    destruct (entries e !! name) as [en|] eqn:Hn; [|done].
    destruct (_ && _); [|done].
    apply records_ok_evaluate. simpl.
    apply map_Forall_insert_2; [|done].
    apply (entry_ok_same en); [done..|]. by eapply He.
Qed.

Lemma records_ok_run e evs :
  map_Forall (λ _, entry_ok) (entries e) →
  map_Forall (λ _, entry_ok) (entries (run e evs)).
Proof.
  revert e. induction evs as [|ev evs IH]; intros e He; [done|].
  simpl. by apply IH, records_ok_step.
Qed.

Lemma records_ok_fresh :
  map_Forall (λ _, entry_ok) (entries (@fresh Worker Sys)).
Proof. apply map_Forall_empty. Qed.

(** ** A terminated engine stays terminated *)

Abbreviation all_stopped m := (map_Forall (λ _ en, state en = Stopped) m).

Lemma terminated_spec e :
  terminated e = true ↔ dying e = true ∧ all_stopped (entries e).
Proof.
  unfold terminated. rewrite andb_true_iff, bool_decide_eq_true. done.
Qed.

Lemma all_stopped_evaluate e :
  dying e = true → all_stopped (entries e) →
  all_stopped (entries (evaluate e)).
Proof.
  intros Hd He. unfold evaluate, readinessEval.
  replace (dying (removeEval (stopEval e))) with true by done.
  intros n en Hn. simpl in Hn.
  apply map_lookup_filter_Some in Hn as [Hn _].
  rewrite lookup_imap_total in Hn.
  destruct (entries e !! n) as [en0|] eqn:Hn0; [|done].
  injection Hn as <-. specialize (He n en0 Hn0). simpl in He.
  by destruct (stop_ready _ _ _).
Qed.

Lemma all_stopped_not_live m n en :
  all_stopped m → m !! n = Some en →
  live en = false ∧ in_flight en = false ∧ decideStop en = en.
Proof.
  intros Hm Hn. specialize (Hm n en Hn). simpl in Hm.
  unfold live, in_flight, decideStop. by rewrite Hm.
Qed.

Lemma all_stopped_decideStop m :
  all_stopped m → all_stopped (decideStop <$> m).
Proof.
  intros Hm. apply map_Forall_fmap. intros n en Hn. simpl.
  destruct (all_stopped_not_live m n en Hm Hn) as (_ & _ & ->).
  by apply (Hm n).
Qed.

Lemma terminated_step e ev :
  terminated e = true → terminated (step e ev).1 = true.
Proof.
  rewrite !terminated_spec. intros [Hd He].
  split; [by apply dying_step|].
  destruct ev as [name d|name|name err|cause|name r|name|name];
    cbn [step fst].
  - unfold install. destruct (entries e !! name); [done|].
    destruct (checkAcyclic _ _ _); [|done]. simpl.
    apply all_stopped_evaluate; [done|]. simpl.
    by apply map_Forall_insert_2.
  - unfold uninstall. case_bool_decide; [|done]. simpl.
    apply all_stopped_evaluate; [done|]. simpl.
    intros n en'. destruct (decide (name = n)) as [<-|Hne].
    + rewrite lookup_alter_eq.
      destruct (entries e !! name) as [en|] eqn:Hn; [|done].
      intros [= <-]. simpl.
      destruct (all_stopped_not_live _ _ _ He Hn) as (_ & _ & ->).
      by apply (He name).
    + rewrite lookup_alter_ne by done. apply He.
  - unfold workerExited.
    destruct (entries e !! name) as [en|] eqn:Hn; [|done].
    by destruct (all_stopped_not_live _ _ _ He Hn) as (-> & _ & _).
  - unfold stopEngine. cbv zeta.
    apply all_stopped_evaluate; [done|]. simpl.
    by apply all_stopped_decideStop.
  - unfold startCompleted.
    destruct (entries e !! name) as [en|] eqn:Hn; [|done].
    by destruct (all_stopped_not_live _ _ _ He Hn) as (_ & -> & _).
  - unfold stopTimeout.
    destruct (entries e !! name) as [en|] eqn:Hn; [|done].
    rewrite (He name en Hn). done.
  - unfold backoffElapsed.
    destruct (entries e !! name) as [en|] eqn:Hn; [|done].
    destruct (_ && _); [|done].
    apply all_stopped_evaluate; [done|]. simpl.
    apply map_Forall_insert_2; [|done]. simpl. by apply (He name).
Qed.

Lemma terminated_run e evs :
  terminated e = true → terminated (run e evs) = true.
Proof.
  revert e. induction evs as [|ev evs IH]; intros e He; [done|].
  simpl. by apply IH, terminated_step.
Qed.

(** In a terminated engine that was run from the fresh one, no worker
    is left running. *)
Lemma terminated_no_worker evs n en :
  terminated (@run Worker Sys fresh evs) = true →
  entries (run fresh evs) !! n = Some en →
  state en = Stopped ∧ handle en = None.
Proof.
  intros [_ Hall]%terminated_spec Hn.
  assert (state en = Stopped) as Hs by apply (Hall n en Hn).
  split; [done|].
  by apply (records_ok_run fresh evs records_ok_fresh n en Hn).
Qed.

(** ** The terminal result *)

(** C2. For every execution in which a fatal error is met, the first
    one met is the engine's result from then on, whatever comes after,
    a later fatal error included: shutdown has begun, the wait has
    either not returned yet or returns that error, and it returns it
    once the engine has terminated. *)
Theorem first_fatal_is_result (evs evs' : list (event Worker Sys))
    (err : error) (rest : list error) :
  fatal_errors fresh evs = err :: rest →
  let e := run fresh (evs ++ evs') in
  firstFatal e = Some err
  ∧ dying e = true
  ∧ (Wait e = None ∨ Wait e = Some (Some err))
  ∧ (terminated e = true → Wait e = Some (Some err)).
Proof.
  intros Hfatal e.
  assert (Hff : firstFatal e = Some err).
  { unfold e. rewrite firstFatal_run, fatal_errors_app, Hfatal. done. }
  split; [done|]. split.
  { unfold e. rewrite run_app. apply dying_run.
    by eapply fatal_errors_dying. }
  split.
  - destruct (terminated e) eqn:Ht.
    + right. by rewrite Wait_terminated, Hff.
    + left. by apply Wait_running.
  - intros Ht. by rewrite Wait_terminated, Hff.
Qed.


End Fatal.

End EngineFatalFacts.

(* ===================================================================== *)
(** * Stop and start order *)
(* ===================================================================== *)

Module EngineOrderFacts.
Import dependency EngineSpec HistoryFacts EngineInvariant.

Ltac norm_app := repeat (progress (rewrite <- ?app_assoc; cbn [app])).

Lemma well_ordered_at h1 it h2 :
  well_ordered (h1 ++ it :: h2) → well_ordered h1 ∧ admissible h1 it.
Proof.
  intros Hwo. split.
  - by eapply well_ordered_prefix.
  - by apply (Hwo h1 it h2).
Qed.

Lemma well_ordered_snoc_inv h it :
  well_ordered (h ++ [it]) → well_ordered h ∧ admissible h it.
Proof. apply well_ordered_at. Qed.

(** A component that was started and has not ended since still has the
Context of that start. *)
Lemma started_until_down b ctx h1 h2 :
  well_ordered (h1 ++ HStart b ctx :: h2) →
  HDown b ∈ h2
  ∨ phase_ctx (phase b (h1 ++ HStart b ctx :: h2)) = Some ctx.
Proof.
  induction h2 as [|it h2 IH] using rev_ind; intros Hwo.
  - right. rewrite phase_snoc. simpl. by rewrite bool_decide_eq_true_2.
  - rewrite app_comm_cons, app_assoc in Hwo.
    apply well_ordered_snoc_inv in Hwo as [Hwo [Hlegal _]].
    destruct (IH Hwo) as [Hin | Hctx].
    { left. apply elem_of_app. by left. }
    rewrite app_comm_cons, app_assoc, phase_snoc.
    case_bool_decide as Hname; [|by right].
    rewrite Hname in Hlegal.
    destruct (phase b (h1 ++ HStart b ctx :: h2)) as [|c|c|c];
      simpl in Hctx; [done|..]; injection Hctx as ->;
      destruct it as [x c'|x|x|x]; simpl in *; subst;
      try done; try (by right);
      left; apply elem_of_app; right; by left.
Qed.

(** The stop order. A component that was started with [a] among its
    inputs has ended by the time [a] is asked to stop. *)
Lemma stop_after_dependents a b ctx h1 h2 h3 :
  well_ordered (h1 ++ HStart b ctx :: h2 ++ HStop a :: h3) →
  a ∈ ctx_inputs ctx →
  HDown b ∈ h2.
Proof.
  intros Hwo Ha.
  rewrite app_comm_cons, app_assoc in Hwo.
  apply well_ordered_at in Hwo as [Hwo [_ Hcross]]. simpl in Hcross.
  destruct (started_until_down b ctx h1 h2 Hwo) as [Hin | Hctx]; [done|].
  by destruct (Hcross b ctx Hctx).
Qed.

Lemma restarted_other a p h2 it :
  restarted a p h2 → restarted a p (h2 ++ [it]).
Proof.
  destruct p as [|c|c|c]; simpl.
  - intros (k1 & k2 & ->). exists k1, (k2 ++ [it]).
    by norm_app.
  - intros (k1 & k2 & k3 & c' & ->). exists k1, k2, (k3 ++ [it]), c'.
    by norm_app.
  - intros (k1 & k2 & k3 & c' & -> & Hup).
    exists k1, k2, (k3 ++ [it]), c'. split.
    + by norm_app.
    + apply elem_of_app. by left.
  - done.
Qed.

Lemma restarted_after_stop a pre h2 :
  (∃ c, phase a pre = Halting c) →
  well_ordered (pre ++ h2) →
  restarted a (phase a (pre ++ h2)) h2.
Proof.
  intros [c0 Hpre].
  induction h2 as [|it h2 IH] using rev_ind; intros Hwo.
  - rewrite app_nil_r, Hpre. done.
  - rewrite app_assoc in Hwo.
    apply well_ordered_snoc_inv in Hwo as [Hwo [Hlegal _]].
    specialize (IH Hwo).
    rewrite app_assoc, phase_snoc.
    case_bool_decide as Hname; [|by apply restarted_other].
    rewrite Hname in Hlegal.
    destruct (phase a (pre ++ h2)) as [|c|c|c];
      destruct it as [x c'|x|x|x]; simpl in *; subst; try done.
    + destruct IH as (k1 & k2 & ->). exists k1, k2, [], c'.
      by norm_app.
    + destruct IH as (k1 & k2 & k3 & c' & ->).
      exists k1, k2, (k3 ++ [HUp a]), c'. split.
      * by norm_app.
      * apply elem_of_app. right. by left.
    + by exists h2, [].
    + by exists h2, [].
    + by exists h2, [].
Qed.

(** The start order. Between a stop request to [a] and a later start of
    a component with [a] among its inputs, [a] has ended, has been
    started again and has come up. *)
Lemma start_after_dependencies a b ctx h1 h2 h3 :
  well_ordered (h1 ++ HStop a :: h2 ++ HStart b ctx :: h3) →
  a ∈ ctx_inputs ctx →
  ∃ k1 k2 k3 c,
    h2 = k1 ++ HDown a :: k2 ++ HStart a c :: k3 ∧ HUp a ∈ k3.
Proof.
  intros Hwo Ha.
  rewrite app_comm_cons, app_assoc in Hwo.
  apply well_ordered_at in Hwo as [Hwo [_ Hcross]]. simpl in Hcross.
  specialize (Hcross a Ha).
  assert (Hhalt : ∃ c, phase a (h1 ++ [HStop a]) = Halting c).
  { pose proof Hwo as Hwo'.
    apply well_ordered_at in Hwo' as [_ [Hlegal _]]. simpl in Hlegal.
    rewrite phase_snoc. simpl. rewrite bool_decide_eq_true_2 by done.
    destruct (phase a h1); try done; eauto. }
  change (h1 ++ HStop a :: h2) with (h1 ++ [HStop a] ++ h2) in Hwo, Hcross.
  rewrite app_assoc in Hwo, Hcross.
  pose proof (restarted_after_stop a _ h2 Hhalt Hwo) as Hre.
  destruct (phase a ((h1 ++ [HStop a]) ++ h2)); done.
Qed.

Lemma started_other a p h2 it :
  match p with
  | Down => True
  | Launching _ | Halting _ => ∃ k1 k2 c, h2 = k1 ++ HStart a c :: k2
  | Up _ => ∃ k1 k2 c, h2 = k1 ++ HStart a c :: k2 ∧ HUp a ∈ k2
  end →
  match p with
  | Down => True
  | Launching _ | Halting _ =>
      ∃ k1 k2 c, h2 ++ [it] = k1 ++ HStart a c :: k2
  | Up _ => ∃ k1 k2 c, h2 ++ [it] = k1 ++ HStart a c :: k2 ∧ HUp a ∈ k2
  end.
Proof.
  destruct p as [|c|c|c]; [done|..].
  - intros (k1 & k2 & c' & ->). exists k1, (k2 ++ [it]), c'. by norm_app.
  - intros (k1 & k2 & c' & -> & Hup). exists k1, (k2 ++ [it]), c'. split.
    + by norm_app.
    + apply elem_of_app. by left.
  - intros (k1 & k2 & c' & ->). exists k1, (k2 ++ [it]), c'. by norm_app.
Qed.

(** What [a] has been through in [h2], from down, by the phase it is
    in: it is not down only after a new start, and up only after that
    start gave a worker. *)
Lemma started_since_down a pre h2 :
  phase a pre = Down →
  well_ordered (pre ++ h2) →
  match phase a (pre ++ h2) with
  | Down => True
  | Launching _ | Halting _ => ∃ k1 k2 c, h2 = k1 ++ HStart a c :: k2
  | Up _ => ∃ k1 k2 c, h2 = k1 ++ HStart a c :: k2 ∧ HUp a ∈ k2
  end.
Proof.
  intros Hpre.
  induction h2 as [|it h2 IH] using rev_ind; intros Hwo.
  - by rewrite app_nil_r, Hpre.
  - rewrite app_assoc in Hwo.
    apply well_ordered_snoc_inv in Hwo as [Hwo [Hlegal _]].
    specialize (IH Hwo).
    rewrite app_assoc, phase_snoc.
    case_bool_decide as Hname; [|by apply started_other].
    rewrite Hname in Hlegal.
    destruct (phase a (pre ++ h2)) as [|c|c|c];
      destruct it as [x c'|x|x|x]; simpl in *; subst; try done.
    + by exists h2, [], c'.
    + destruct IH as (k1 & k2 & c' & ->).
      exists k1, (k2 ++ [HStop a]), c'. by norm_app.
    + destruct IH as (k1 & k2 & c' & ->).
      exists k1, (k2 ++ [HUp a]), c'. split.
      * by norm_app.
      * apply elem_of_app. right. by left.
    + destruct IH as (k1 & k2 & c' & -> & _).
      exists k1, (k2 ++ [HStop a]), c'. by norm_app.
Qed.

(** The start order after any end.  Between the end of [a], asked for
    or not, and a later start of a component with [a] among its inputs,
    [a] has been started again and has come up. *)
Lemma start_after_end a b ctx h1 h2 h3 :
  well_ordered (h1 ++ HDown a :: h2 ++ HStart b ctx :: h3) →
  a ∈ ctx_inputs ctx →
  ∃ k1 k2 c, h2 = k1 ++ HStart a c :: k2 ∧ HUp a ∈ k2.
Proof.
  intros Hwo Ha.
  rewrite app_comm_cons, app_assoc in Hwo.
  apply well_ordered_at in Hwo as [Hwo [_ Hcross]]. simpl in Hcross.
  specialize (Hcross a Ha).
  assert (Hdown : phase a (h1 ++ [HDown a]) = Down).
  { rewrite phase_snoc. simpl. by rewrite bool_decide_eq_true_2. }
  change (h1 ++ HDown a :: h2) with (h1 ++ [HDown a] ++ h2) in Hwo, Hcross.
  rewrite app_assoc in Hwo, Hcross.
  pose proof (started_since_down a _ h2 Hdown Hwo) as Hre.
  destruct (phase a ((h1 ++ [HDown a]) ++ h2)); done.
Qed.
Section Order.
Context {Worker Sys : Type}.


End Order.

End EngineOrderFacts.

(* ===================================================================== *)
(** * The engine on concrete executions *)
(* ===================================================================== *)

Module EngineExamples.
Import dependency EngineSpec Fixtures.
Import EngineInstallFacts EngineFatalFacts EngineOrderFacts.

(** A declaration for a name that is installed already is rejected as a
    duplicate, also when its inputs include its own name: a cycle is not
    always what the install reports. *)
Lemma install_cycle_duplicate_name :
  ¬ (∀ (e : Engine nat unit) (name : string) (d : Manifold nat unit),
        transitively_includes (entries e) d name →
        step e (Install name d) = (e, Some ErrCycleDetected)).
Proof.
  intros H.
  specialize (H (run fresh [Install "A" mA]) "A" mSelf).
  assert (Hcyc : transitively_includes
                   (entries (run fresh [Install "A" mA])) mSelf "A").
  { exists "A". split; [|by left]. simpl. by left. }
  assert (Hdup : (step (run fresh [Install "A" mA]) (Install "A" mSelf)).2
                 = Some ErrDuplicateName) by (vm_compute; reflexivity).
  rewrite (H Hcyc) in Hdup. discriminate.
Qed.

Lemma install_cycle_rejected_witness :
  let e := run fresh [Install "B" mB] in
  step e (Install "A" mAB) = (e, Some ErrCycleDetected).
Proof.
  intros e. apply install_cycle_rejected.
  - vm_compute. reflexivity.
  - exists "B". split; [simpl; by left|]. right.
    apply reaches_input.
    assert (Hin : inputs_of (entries e) "B" = ["A"])
      by (vm_compute; reflexivity).
    rewrite Hin. by left.
Defined.

Lemma uninstall_still_depended_witness :
  let e := run fresh [Install "B" mB; Install "A" mA] in
  step e (Uninstall "A") = (e, Some ErrStillDepended).
Proof.
  intros e.
  assert (HA : is_Some (entries e !! "A")) by (vm_compute; eauto).
  assert (HB : (λ en, Inputs (decl en)) <$> (entries e !! "B")
               = Some ["A"]) by (vm_compute; reflexivity).
  destruct HA as [enA HA].
  destruct (entries e !! "B") as [enB|] eqn:HenB; [|discriminate].
  injection HB as HB.
  apply (uninstall_still_depended e "A" "B" enA enB); [done..| |].
  - discriminate.
  - rewrite HB. by left.
Defined.

(** The worker of [A] ends with "terminate agent" while [B] runs; [B],
    asked to stop, ends with a fatal error of its own, which does not
    replace the first. *)
Lemma first_fatal_is_result_witness :
  fatal_errors fresh
    (both_up ++ [WorkerExited "A" (Some ErrTerminateAgent)])
  = [ErrTerminateAgent]
  ∧ fatal_errors fresh
      (both_up ++ [WorkerExited "A" (Some ErrTerminateAgent);
                   WorkerExited "B" (Some ErrStopTimeout)])
    = [ErrTerminateAgent; ErrStopTimeout]
  ∧ Wait (run fresh
            ((both_up ++ [WorkerExited "A" (Some ErrTerminateAgent)])
             ++ [WorkerExited "B" (Some ErrStopTimeout)]))
    = Some (Some ErrTerminateAgent).
Proof.
  split; [vm_compute; reflexivity|]. split; [vm_compute; reflexivity|].
  apply (first_fatal_is_result
           (both_up ++ [WorkerExited "A" (Some ErrTerminateAgent)])
           [WorkerExited "B" (Some ErrStopTimeout)]
           ErrTerminateAgent []).
  - vm_compute. reflexivity.
  - vm_compute. reflexivity.
Defined.



(** The worker of [A] ends asking for a bounce while [B], which depends
    on it, and [C], which depends on [B], run.  [C] is asked to stop;
    [A], whose inputs are none, is started again at once and comes up;
    [B] waits for [C] to end and has not been asked to stop. *)
Example self_bounce_history :
  brief <$> drop 6 (history (run fresh self_bounce))
  = [("down", "A"); ("stop", "C"); ("start", "A"); ("up", "A")].
Proof. vm_compute. reflexivity. Qed.


(** The worker of [X] fails while [A], which depends on it, and [B],
    which depends on [A], run: [B] is asked to stop and ends, then [A]
    is asked to stop and ends; after the backoff [X] is started again,
    then [A], then [B]. *)
Example chain_bounce_history :
  brief <$> drop 6 (history (run fresh chain_bounce))
  = [("down", "X");
     ("stop", "B"); ("down", "B"); ("stop", "A"); ("down", "A");
     ("start", "X"); ("up", "X"); ("start", "A"); ("up", "A");
     ("start", "B"); ("up", "B")].
Proof. vm_compute. reflexivity. Qed.

(** [B] installed before [A]: the engine starts [A] first, then [B],
    and the Context of [B] fetches the output of [A]. *)
Example install_B_then_A :
  let e := run fresh [Install "B" mB; Install "A" mA;
                      StartCompleted "A" (inl 1%nat);
                      StartCompleted "B" (inl 2%nat)] in
  brief <$> history e
  = [("start", "A"); ("up", "A"); ("start", "B"); ("up", "B")]
  ∧ (λ ctx, Get ctx "A" "int") <$> last_context "B" (history e)
    = Some (inl (mkValue "int" (IInt 1)))
  ∧ state <$> entries e = {["A" := Started; "B" := Started]}.
Proof. vm_compute. repeat split. Qed.

End EngineExamples.
(* ===================================================================== *)
(** * More on cloud.go: cloud regions and storage details *)
(* ===================================================================== *)

Module ProviderStorageFacts.
Import GoStrings GoStringsFacts Provider ProviderFacts.

(** X1. A cloud region parses to [(cloud, region)] without error exactly
    when it is [cloud], a ["/"], and [region], with both parts non-empty
    and no ["/"] in [cloud]: parsing undoes the joining of the two parts,
    and the two parts give the string back. *)
Theorem ParseCloudRegion_round_trip explode (s cloud region : string) :
  ParseCloudRegion explode s = (cloud, region, None)
  ↔ s = cloud +:+ "/" +:+ region
    ∧ cloud ≠ "" ∧ region ≠ "" ∧ ¬ Contains cloud "/".
Proof.
  destruct (ParseCloudRegion_spec explode s)
    as [(c & r & Hs & Hno & Hc & Hr & Hp) | [Hnot Hp]]; rewrite Hp.
  - split.
    + intros [= <- <-]. done.
    + intros (Hs' & _ & _ & Hno'). rewrite Hs in Hs'.
      destruct (first_slash_unique _ _ _ _ Hs' Hno Hno') as [-> ->]. done.
  - split; [done|]. intros (Hs & Hc & Hr & Hno). destruct Hnot. eauto 10.
Qed.

Section Storage.
Context (explode : string → Z → list string) (World : Type)
  (BuildHostCloudRegion : string → string → string)
  (SplitHostCloudRegion : string → list string)
  (IsNonPreferredStorageError : option error → bool)
  (WorkloadStorageKey OperatorStorageKey : string)
  (quote : string → string) (Error : error → string).

Abbreviation Update :=
  (UpdateKubeCloudWithStorage explode World BuildHostCloudRegion
     SplitHostCloudRegion IsNonPreferredStorageError
     WorkloadStorageKey OperatorStorageKey quote Error).
Abbreviation finish :=
  (finish_storage World WorkloadStorageKey OperatorStorageKey quote).
Abbreviation region_of :=
  (hostCloudRegion_of World BuildHostCloudRegion).

Implicit Types (k8sCloud : cloud.Cloud)
  (storageParams : KubeCloudStorageParams World)
  (clusterMetadata : caas.ClusterMetadata).

(** Setting a default keeps what the map holds. *)
Lemma set_default_preserves key v (m : gmap string iface) k x :
  m !! k = Some x → set_default key v m !! k = Some x.
Proof.
  intros Hk. unfold set_default.
  destruct (m !! key) eqn:Hkey; [done|].
  rewrite lookup_insert_ne; [done|]. congruence.
Qed.

Lemma set_default_defined key v (m : gmap string iface) :
  is_Some (set_default key v m !! key).
Proof.
  unfold set_default. destruct (m !! key) eqn:Hkey; [by rewrite Hkey|].
  rewrite lookup_insert_eq. eauto.
Qed.

Lemma lookup_set_default_eq key v (m : gmap string iface) :
  set_default key v m !! key = Some (default v (m !! key)).
Proof.
  unfold set_default. destruct (m !! key) eqn:Hkey; cbn; [done|].
  by rewrite lookup_insert_eq.
Qed.

Lemma lookup_set_default_ne key v (m : gmap string iface) k :
  k ≠ key → set_default key v m !! k = m !! k.
Proof.
  intros Hk. unfold set_default. destruct (m !! key); [done|].
  by rewrite lookup_insert_ne.
Qed.

Lemma set_default_is_Some key v (m : gmap string iface) k :
  is_Some (m !! k) → is_Some (set_default key v m !! k).
Proof. intros [x Hx]. exists x. by apply set_default_preserves. Qed.

(** What the tail of the function does to the cloud: nothing, when
    it fails, or the two configuration defaults. *)
Lemma finish_storage_inv k8sCloud storageParams clusterMetadata err w
    res cloud' w' :
  finish k8sCloud storageParams clusterMetadata err w = (res, cloud', w') →
  (cloud' = k8sCloud ∧ ∀ msg, res ≠ Returns (msg, None))
  ∨ (∃ msg, res = Returns (msg, None))
    ∧ let workload :=
        match caas.NominatedStorageClass clusterMetadata with
        | Some nominated =>
            if String.eqb (WorkloadStorage _ storageParams) ""
            then caas.Name nominated else WorkloadStorage _ storageParams
        | None => WorkloadStorage _ storageParams
        end in
      let operator :=
        match caas.OperatorStorageClass clusterMetadata with
        | Some operator => caas.Name operator
        | None => workload
        end in
      cloud' = set_config k8sCloud
                 (set_default OperatorStorageKey (IString operator)
                    (set_default WorkloadStorageKey (IString workload)
                       (default ∅ (cloud.Config k8sCloud)))).
Proof.
  unfold finish_storage. intros H.
  match type of H with
  | match ?s with _ => _ end = _ =>
      destruct s as [[r w2]|[m w2]] eqn:Hstep
  end.
  - left. injection H as <- <- <-. split; [done|]. intros msg ->.
    clear -Hstep.
    destruct (negb _); [|done].
    destruct (caas.EnsureStorageProvisioner _ _ _) as [[sp [e|]] w3].
    + by destruct (errors.IsNotFound _).
    + destruct (errors.Cause <$> err) as [[]|]; try done.
      destruct sp; [|done]. by destruct (String.eqb _ _).
  - right.
    destruct (caas.OperatorStorageClass clusterMetadata) as [op|];
      injection H as <- <- <-; (split; [by eexists|]);
      by destruct (caas.NominatedStorageClass clusterMetadata).
Qed.

Lemma finish_storage_error k8sCloud storageParams clusterMetadata err w
    res cloud' w' :
  finish k8sCloud storageParams clusterMetadata err w = (res, cloud', w') →
  (∀ msg, res ≠ Returns (msg, None)) → cloud' = k8sCloud.
Proof.
  intros H Hres.
  destruct (finish_storage_inv _ _ _ _ _ _ _ _ H)
    as [[-> _]|[[msg ->] _]]; [done|].
  by destruct (Hres msg).
Qed.

Lemma finish_storage_success k8sCloud storageParams clusterMetadata err w
    msg cloud' w' :
  finish k8sCloud storageParams clusterMetadata err w
    = (Returns (msg, None), cloud', w') →
  let workload :=
    match caas.NominatedStorageClass clusterMetadata with
    | Some nominated =>
        if String.eqb (WorkloadStorage _ storageParams) ""
        then caas.Name nominated else WorkloadStorage _ storageParams
    | None => WorkloadStorage _ storageParams
    end in
  let operator :=
    match caas.OperatorStorageClass clusterMetadata with
    | Some operator => caas.Name operator
    | None => workload
    end in
  cloud' = set_config k8sCloud
             (set_default OperatorStorageKey (IString operator)
                (set_default WorkloadStorageKey (IString workload)
                   (default ∅ (cloud.Config k8sCloud)))).
Proof.
  intros H.
  destruct (finish_storage_inv _ _ _ _ _ _ _ _ H)
    as [[_ Hno]|[_ Hc]]; [by destruct (Hno msg)|done].
Qed.

(** The ways a call can end, by the line it ends at. *)
Lemma UpdateKubeCloudWithStorage_inv k8sCloud storageParams w
    res cloud' w' :
  Update k8sCloud storageParams w = (res, cloud', w') →
  (cloud' = k8sCloud ∧ ∀ msg, res ≠ Returns (msg, None))
  ∨ ∃ clusterMetadata w1 hostCloudRegion c region,
      GetClusterMetadata _ storageParams
        (MetadataChecker _ storageParams) w
        = (Some clusterMetadata, None, w1)
      ∧ region_of storageParams clusterMetadata = Returns hostCloudRegion
      ∧ ParseCloudRegion explode hostCloudRegion = (c, region, None)
      ∧ ((cloud' = set_region k8sCloud hostCloudRegion region
          ∧ ∀ msg, res ≠ Returns (msg, None))
         ∨ ∃ err w2,
             finish (set_region k8sCloud hostCloudRegion region)
               (mkStorageParams _ (WorkloadStorage _ storageParams)
                  hostCloudRegion (MetadataChecker _ storageParams)
                  (GetClusterMetadata _ storageParams))
               clusterMetadata err w2 = (res, cloud', w')).
Proof.
  unfold UpdateKubeCloudWithStorage. intros H.
  destruct (GetClusterMetadata _ _ _ _) as [[md err] w1] eqn:Hget.
  destruct err as [e|]; [left; by simplify_eq|].
  destruct md as [md|]; [|left; by simplify_eq].
  destruct (hostCloudRegion_of _ _ _ _) as [host|] eqn:Hhost;
    [|left; by simplify_eq].
  destruct (String.eqb host ""); [left; by simplify_eq|].
  destruct (ParseCloudRegion explode host) as [[c region] [e|]] eqn:Hparse;
    [left; by simplify_eq|].
  right. exists md, w1, host, c, region. split_and!; [done..|].
  destruct (SplitHostCloudRegion host) as [|cloudType ?];
    [left; by simplify_eq|].
  destruct (caas.CheckDefaultWorkloadStorage _ _ _ _) as [err w2].
  cbn [WorkloadStorage] in H.
  repeat case_match; simplify_eq; eauto.
Qed.

(** A call that returns without error went through every step. *)
Lemma UpdateKubeCloudWithStorage_success_inv k8sCloud storageParams w
    msg cloud' w' :
  Update k8sCloud storageParams w = (Returns (msg, None), cloud', w') →
  ∃ clusterMetadata w1 hostCloudRegion c region,
    GetClusterMetadata _ storageParams (MetadataChecker _ storageParams) w
      = (Some clusterMetadata, None, w1)
    ∧ region_of storageParams clusterMetadata = Returns hostCloudRegion
    ∧ ParseCloudRegion explode hostCloudRegion = (c, region, None)
    ∧ let workload :=
        match caas.NominatedStorageClass clusterMetadata with
        | Some nominated =>
            if String.eqb (WorkloadStorage _ storageParams) ""
            then caas.Name nominated else WorkloadStorage _ storageParams
        | None => WorkloadStorage _ storageParams
        end in
      let operator :=
        match caas.OperatorStorageClass clusterMetadata with
        | Some operator => caas.Name operator
        | None => workload
        end in
      cloud' = set_config (set_region k8sCloud hostCloudRegion region)
                 (set_default OperatorStorageKey (IString operator)
                    (set_default WorkloadStorageKey (IString workload)
                       (default ∅ (cloud.Config k8sCloud)))).
Proof.
  intros H.
  destruct (UpdateKubeCloudWithStorage_inv _ _ _ _ _ _ H)
    as [[_ Hno]|(md & w1 & host & c & region & Hget & Hhost & Hparse & Hend)];
    [by destruct (Hno msg)|].
  destruct Hend as [[_ Hno]|(err & w2 & Hfin)]; [by destruct (Hno msg)|].
  apply finish_storage_success in Hfin.
  by exists md, w1, host, c, region.
Qed.

(** *** Properties *)

(** X2. When [UpdateKubeCloudWithStorage] returns without error, the
    cloud's host cloud region is the one of the parameters, or the one
    built from the cluster's metadata when the parameters have none;
    it is a valid cloud region; the cloud's regions are the single
    region parsed from it, with no endpoint; and the cloud's name,
    type, authentication types, endpoint and CA certificates are the
    ones it had. *)
Theorem UpdateKubeCloudWithStorage_success_region
    (k8sCloud : cloud.Cloud) (storageParams : KubeCloudStorageParams World)
    (w : World) (msg : string) (cloud' : cloud.Cloud) (w' : World) :
  Update k8sCloud storageParams w = (Returns (msg, None), cloud', w') →
  ∃ clusterMetadata w1 c region,
    GetClusterMetadata _ storageParams (MetadataChecker _ storageParams) w
      = (Some clusterMetadata, None, w1)
    ∧ region_of storageParams clusterMetadata
        = Returns (cloud.HostCloudRegion cloud')
    ∧ ParseCloudRegion explode (cloud.HostCloudRegion cloud')
        = (c, region, None)
    ∧ cloud.Regions cloud' = Some [cloud.mkRegion region ""]
    ∧ cloud.Name cloud' = cloud.Name k8sCloud
    ∧ cloud.Type_ cloud' = cloud.Type_ k8sCloud
    ∧ cloud.AuthTypes cloud' = cloud.AuthTypes k8sCloud
    ∧ cloud.Endpoint cloud' = cloud.Endpoint k8sCloud
    ∧ cloud.CACertificates cloud' = cloud.CACertificates k8sCloud.
Proof.
  intros H.
  destruct (UpdateKubeCloudWithStorage_success_inv _ _ _ _ _ _ H)
    as (md & w1 & host & c & region & Hget & Hhost & Hparse & ->).
  exists md, w1, c, region. by cbn.
Qed.

(** X3. When [UpdateKubeCloudWithStorage] returns without error, the
    cloud's configuration has a value for the workload storage key and
    one for the operator storage key.  A value the configuration had
    for either key is kept.  Where it had none, the workload storage
    is the one of the parameters, or the name of the cluster's
    nominated storage class when the parameters have none, and the
    operator storage is the name of the cluster's operator storage
    class, or the workload storage just described when the cluster has
    none.  No other key of the configuration is added, removed or
    changed. *)
Theorem UpdateKubeCloudWithStorage_storage_defaults
    (k8sCloud : cloud.Cloud) (storageParams : KubeCloudStorageParams World)
    (w : World) (msg : string) (cloud' : cloud.Cloud) (w' : World) :
  WorkloadStorageKey ≠ OperatorStorageKey →
  Update k8sCloud storageParams w = (Returns (msg, None), cloud', w') →
  ∃ clusterMetadata w1 cfg',
    GetClusterMetadata _ storageParams (MetadataChecker _ storageParams) w
      = (Some clusterMetadata, None, w1)
    ∧ cloud.Config cloud' = Some cfg'
    ∧ let cfg := default ∅ (cloud.Config k8sCloud) in
      let workload :=
        match caas.NominatedStorageClass clusterMetadata with
        | Some nominated =>
            if String.eqb (WorkloadStorage _ storageParams) ""
            then caas.Name nominated else WorkloadStorage _ storageParams
        | None => WorkloadStorage _ storageParams
        end in
      let operator :=
        match caas.OperatorStorageClass clusterMetadata with
        | Some operator => caas.Name operator
        | None => workload
        end in
      cfg' !! WorkloadStorageKey
        = Some (default (IString workload) (cfg !! WorkloadStorageKey))
      ∧ cfg' !! OperatorStorageKey
        = Some (default (IString operator) (cfg !! OperatorStorageKey))
      ∧ ∀ k, k ≠ WorkloadStorageKey → k ≠ OperatorStorageKey →
             cfg' !! k = cfg !! k.
Proof.
  intros Hkeys H.
  destruct (UpdateKubeCloudWithStorage_success_inv _ _ _ _ _ _ H)
    as (md & w1 & host & c & region & Hget & Hhost & Hparse & ->).
  eexists md, w1, _. split; [done|]. split; [reflexivity|].
  cbn [set_region cloud.Config]. cbv zeta. split_and!.
  - rewrite lookup_set_default_ne by done.
    apply lookup_set_default_eq.
  - rewrite lookup_set_default_eq.
    by rewrite lookup_set_default_ne.
  - intros k Hk1 Hk2. by rewrite !lookup_set_default_ne.
Qed.

(** X4. When [UpdateKubeCloudWithStorage] fails, by an error or by a panic,
    the cloud's configuration is untouched: the cloud is as it was, or
    only its host cloud region and its regions were set, from a host
    cloud region that is a valid cloud region. *)
Theorem UpdateKubeCloudWithStorage_failure_frame
    (k8sCloud : cloud.Cloud) (storageParams : KubeCloudStorageParams World)
    (w : World) (res : outcome (string * option error))
    (cloud' : cloud.Cloud) (w' : World) :
  Update k8sCloud storageParams w = (res, cloud', w') →
  (∀ msg, res ≠ Returns (msg, None)) →
  cloud' = k8sCloud
  ∨ ∃ hostCloudRegion c region,
      ParseCloudRegion explode hostCloudRegion = (c, region, None)
      ∧ cloud' = set_region k8sCloud hostCloudRegion region.
Proof.
  intros H Hres.
  destruct (UpdateKubeCloudWithStorage_inv _ _ _ _ _ _ H)
    as [[-> _]|(md & w1 & host & c & region & Hget & Hhost & Hparse & Hend)];
    [by left|].
  right. exists host, c, region. split; [done|].
  destruct Hend as [[-> _]|(err & w2 & Hfin)]; [done|].
  by apply finish_storage_error in Hfin.
Qed.

(** X5. With a workload storage named in the parameters, the result of the
    check of the cluster's default storage never makes the call fail:
    an error the call returns is a [ClusterQueryError], the error of
    an invalid cloud region, or the error of making sure that the
    named storage class exists, and never an [UnknownClusterError], a
    [NoRecommendedStorageError] or the error of the check. *)
Theorem UpdateKubeCloudWithStorage_named_storage_errors
    (k8sCloud : cloud.Cloud) (storageParams : KubeCloudStorageParams World)
    (w : World) (msg : string) (e : error) (cloud' : cloud.Cloud)
    (w' : World) :
  WorkloadStorage _ storageParams ≠ "" →
  Update k8sCloud storageParams w = (Returns (msg, Some e), cloud', w') →
  (∃ m, e = ClusterQueryError m)
  ∨ (∃ e0 hostCloudRegion,
        e = Annotatef e0 "validating cloud region %q" [hostCloudRegion])
  ∨ (∃ e0, e = Wrap e0 (NotFoundf "storage class %q"
                          [WorkloadStorage _ storageParams]))
  ∨ (∃ e0, e = Annotatef e0 "creating storage class %q"
                 [WorkloadStorage _ storageParams]).
Proof.
  intros Hnamed H. apply String.eqb_neq in Hnamed.
  unfold UpdateKubeCloudWithStorage in H.
  destruct (GetClusterMetadata _ _ _ _) as [[md err] w1].
  destruct err as [e1|]; [simplify_eq; eauto|].
  destruct md as [md|]; [|simplify_eq; eauto].
  destruct (hostCloudRegion_of _ _ _ _) as [host|]; [|done].
  destruct (String.eqb host ""); [simplify_eq; eauto|].
  destruct (ParseCloudRegion explode host) as [[c region] [e1|]];
    [simplify_eq; eauto 10|].
  destruct (SplitHostCloudRegion host) as [|cloudType ?]; [done|].
  destruct (caas.CheckDefaultWorkloadStorage _ _ _ _) as [err w2].
  cbn [WorkloadStorage] in H. rewrite Hnamed in H.
  unfold finish_storage in H. cbn [WorkloadStorage] in H.
  rewrite Hnamed in H. cbn [negb] in H.
  match type of H with
  | match ?s with _ => _ end = _ =>
      destruct s as [[r w3]|[m w3]] eqn:Hstep
  end.
  - injection H as -> <- <-.
    destruct (caas.EnsureStorageProvisioner _ _ _) as [[sp [e1|]] w4].
    + destruct (errors.IsNotFound _); injection Hstep as <- <-; eauto 10.
    + exfalso. clear -Hstep. repeat case_match; discriminate.
  - by destruct (caas.OperatorStorageClass md).
Qed.

(** X6. With no workload storage named in the parameters, the call returns
    without error only if the check of the cluster's default storage
    for the cloud of the host cloud region passes without any error,
    and then nothing more is asked of the cluster: no storage class
    is made, and the state of the cluster is the one the check left. *)
Theorem UpdateKubeCloudWithStorage_default_storage_checked
    (k8sCloud : cloud.Cloud) (storageParams : KubeCloudStorageParams World)
    (w : World) (msg : string) (cloud' : cloud.Cloud) (w' : World) :
  WorkloadStorage _ storageParams = "" →
  Update k8sCloud storageParams w = (Returns (msg, None), cloud', w') →
  ∃ clusterMetadata w1 cloudType rest,
    GetClusterMetadata _ storageParams (MetadataChecker _ storageParams) w
      = (Some clusterMetadata, None, w1)
    ∧ SplitHostCloudRegion (cloud.HostCloudRegion cloud')
        = cloudType :: rest
    ∧ caas.CheckDefaultWorkloadStorage (MetadataChecker _ storageParams)
        cloudType (caas.NominatedStorageClass clusterMetadata) w1
        = (None, w').
Proof.
  intros Hnone H. apply String.eqb_eq in Hnone.
  unfold UpdateKubeCloudWithStorage in H.
  destruct (GetClusterMetadata _ _ _ _) as [[md err] w1].
  destruct err as [e1|]; [done|].
  destruct md as [md|]; [|done].
  destruct (hostCloudRegion_of _ _ _ _) as [host|]; [|done].
  destruct (String.eqb host ""); [done|].
  destruct (ParseCloudRegion explode host) as [[c region] [e1|]]; [done|].
  destruct (SplitHostCloudRegion host) as [|cloudType rest] eqn:Hsplit;
    [done|].
  destruct (caas.CheckDefaultWorkloadStorage _ _ _ _) as [err w2] eqn:Hchk.
  cbn [WorkloadStorage] in H. rewrite Hnone in H.
  exists md, w1, cloudType, rest.
  destruct (errors.IsNotFound err); [done|].
  destruct (IsNonPreferredStorageError err);
    [repeat case_match; simplify_eq|].
  destruct err as [e1|]; [done|].
  unfold finish_storage in H. cbn [WorkloadStorage] in H.
  rewrite Hnone in H. cbn [negb] in H.
  destruct (caas.OperatorStorageClass md);
    injection H as <- <- <-; by cbn.
Qed.

End Storage.

End ProviderStorageFacts.
(* ===================================================================== *)
(** * More on cloud.go: MicroK8s *)
(* ===================================================================== *)

Module MicroK8sFacts.
Import GoStrings Provider ProviderStorageFacts.

(** The command [microK8sStatus] runs. *)
Abbreviation status_command :=
  (mkRunParams "microk8s.status --wait-ready --timeout 15 --yaml").

(** An addon is acceptable when the status does not list it or lists
    it as enabled. *)
Abbreviation addon_ok status name :=
  (index (Addons status) name = None
   ∨ index (Addons status) name = Some "enabled").

Section MicroK8s.
Context (World : Type)
  (Unmarshal : string → microk8sStatus → microk8sStatus * option error).

Abbreviation status_of := (microK8sStatus World Unmarshal).
Abbreviation suitable := (ensureMicroK8sSuitable World Unmarshal).

Lemma addon_ok_eqb status name :
  addon_ok status name
  ↔ match index (Addons status) name with
    | Some v => String.eqb v "enabled" = true
    | None => True
    end.
Proof.
  destruct (index (Addons status) name) as [v|].
  - rewrite String.eqb_eq. split; [intros [|]; congruence|].
    intros ->. by right.
  - split; [done|]. by left.
Qed.

(** [microK8sStatus] returns a status and no error exactly when the
    command ran, exited with code 0, and its output was decoded
    without error. *)
Lemma microK8sStatus_ok cmdRunner w status w' :
  status_of cmdRunner w = (Returns (status, None), w')
  ↔ ∃ result,
      RunCommands World cmdRunner status_command w
        = (Some result, None, w')
      ∧ Code result = 0
      ∧ Unmarshal (Stdout result) (mkMicrok8sStatus None) = (status, None).
Proof.
  unfold microK8sStatus.
  destruct (RunCommands _ _ _ _) as [[result err] w1].
  destruct err as [e|]; [split; [done|]; by intros (? & [=] & _)|].
  destruct result as [result|]; [|split; [done|]; by intros (? & [=] & _)].
  destruct (Z.eqb_spec (Code result) 0) as [Hc|Hc]; cbn [negb].
  - destruct (Unmarshal _ _) as [st [e|]] eqn:Hu.
    + split; [done|]. intros (r & [= <- <-] & _ & Hu'). congruence.
    + split.
      * intros [= <- <-]. by exists result.
      * intros (r & [= <- <-] & _ & Hu'). congruence.
  - split; [done|]. intros (r & [= <- <-] & Hc' & _). done.
Qed.

(** X7. [ensureMicroK8sSuitable] returns no error exactly when the command
    [microk8s.status] ran and exited with code 0, its output was
    decoded without error, and the status decoded from it lists
    neither the storage addon nor the dns addon with a value other
    than "enabled": an addon the status does not list is accepted.
    Nothing else was run. *)
Theorem ensureMicroK8sSuitable_nil_iff (cmdRunner : CommandRunner World)
    (w w' : World) :
  suitable cmdRunner w = (Returns None, w')
  ↔ ∃ result status,
      RunCommands World cmdRunner status_command w
        = (Some result, None, w')
      ∧ Code result = 0
      ∧ Unmarshal (Stdout result) (mkMicrok8sStatus None) = (status, None)
      ∧ addon_ok status "storage"
      ∧ addon_ok status "dns".
Proof.
  unfold ensureMicroK8sSuitable.
  destruct (status_of cmdRunner w) as [[[status [e|]]|] w1] eqn:Hst.
  - split; [done|]. intros (result & status' & Hrun & Hc & Hu & _).
    assert (status_of cmdRunner w = (Returns (status', None), w')) as Hok
      by (apply microK8sStatus_ok; eauto).
    congruence.
  - apply microK8sStatus_ok in Hst as (result & Hrun & Hc & Hu).
    split.
    + intros H.
      assert (w' = w1) as ->
        by (clear -H; repeat case_match; by simplify_eq).
      exists result, status. split_and!; [done..| |].
      * apply addon_ok_eqb.
        destruct (index (Addons status) "storage") as [s|]; [|done].
        by destruct (String.eqb s "enabled").
      * apply addon_ok_eqb.
        destruct (index (Addons status) "dns") as [d|]; [|done].
        destruct (String.eqb d "enabled"); [done|].
        cbn [negb] in H. by repeat case_match.
    + intros (result' & status' & Hrun' & _ & Hu' & Hs & Hd).
      assert (result' = result ∧ w' = w1) as [-> ->]
        by (split; congruence).
      assert (status' = status) as -> by congruence.
      apply addon_ok_eqb in Hs, Hd.
      destruct (index (Addons status) "storage") as [s|];
        destruct (index (Addons status) "dns") as [d|];
        rewrite ?Hs, ?Hd; done.
  - split; [done|]. intros (result & status' & Hrun & Hc & Hu & _).
    assert (status_of cmdRunner w = (Returns (status', None), w')) as Hok
      by (apply microK8sStatus_ok; eauto).
    congruence.
Qed.

(** X8. When the command [microk8s.status] exits with a code other than 0,
    [microK8sStatus] returns the zero status and an error whose
    message is never empty: the standard error of the command, or
    its standard output when the standard error is empty, or a fixed
    text when both are.  The output is not decoded. *)
Theorem microK8sStatus_exit_code (cmdRunner : CommandRunner World)
    (w : World) (result : ExecResponse) (w' : World) :
  RunCommands World cmdRunner status_command w = (Some result, None, w') →
  Code result ≠ 0 →
  ∃ msg,
    status_of cmdRunner w
      = (Returns (mkMicrok8sStatus None, Some (errors.New msg)), w')
    ∧ msg ≠ ""
    ∧ (Stderr result ≠ "" → msg = Stderr result)
    ∧ (Stderr result = "" → Stdout result ≠ "" → msg = Stdout result)
    ∧ (Stderr result = "" → Stdout result = "" →
       msg = "unknown error running microk8s.status").
Proof.
  intros Hrun Hc. unfold microK8sStatus. rewrite Hrun.
  apply Z.eqb_neq in Hc. rewrite Hc. cbn [negb].
  eexists. split; [reflexivity|].
  destruct (String.eqb_spec (Stderr result) "") as [He|He];
    [destruct (String.eqb_spec (Stdout result) "") as [Ho|Ho]|];
    cbn; [split_and!; done..|].
  apply String.eqb_neq in He as He'. rewrite He'. by split_and!.
Qed.

Section FinalizeCloud.
Context (Credential UUID Config Defaulting CloudSpec : Type)
  (NewUUID : World → (UUID * option error) * World)
  (UUID_String : UUID → string) (NoDefaults : Defaulting)
  (NameKey TypeKey UUIDKey : string)
  (config_New :
     Defaulting → gmap string iface → option Config * option error)
  (zeroCloudSpec : CloudSpec)
  (MakeCloudSpec :
     cloud.Cloud → string → Credential → CloudSpec * option error)
  (K8sCloudMicrok8s : string)
  (explode : string → Z → list string)
  (BuildHostCloudRegion : string → string → string)
  (SplitHostCloudRegion : string → list string)
  (IsNonPreferredStorageError : option error → bool)
  (WorkloadStorageKey OperatorStorageKey : string)
  (quote : string → string) (Error : error → string).

Abbreviation Finalize :=
  (FinalizeCloud World Unmarshal Credential UUID Config Defaulting
     CloudSpec NewUUID UUID_String NoDefaults NameKey TypeKey UUIDKey
     config_New zeroCloudSpec MakeCloudSpec K8sCloudMicrok8s explode
     BuildHostCloudRegion SplitHostCloudRegion
     IsNonPreferredStorageError WorkloadStorageKey OperatorStorageKey
     quote Error).

Implicit Types
  (p : kubernetesEnvironProvider World Credential Config CloudSpec)
  (cld : cloud.Cloud).

(** The regions of a cloud whose single region has no endpoint,
    after the loop that fills the endpoints. *)
Lemma fill_endpoints_single k8sCloud region :
  cloud.Regions k8sCloud = Some [cloud.mkRegion region ""] →
  cloud.Regions (fill_endpoints k8sCloud)
  = Some [cloud.mkRegion region (cloud.Endpoint k8sCloud)].
Proof. intros H. cbn. by rewrite H. Qed.

(** X9. When [FinalizeCloud] returns without error, the cloud it
    returns is the one it was given, or the cloud is the one named
    microk8s, whose configuration has no operator storage or the
    empty string, MicroK8s is suitable, and every step gave no
    error: the builtin cloud getter gave a cloud and a credential,
    [BaseKubeCloudOpenParams] made open parameters of them, the
    broker getter gave a broker for these, and the broker's
    [GetClusterMetadata], asked about the storage class "", gave
    the metadata of the cluster.  The cloud returned is the one of
    the builtin cloud getter, with the name and the endpoint that
    one gave it, with a host cloud region built from the cloud of
    that metadata and the first of its regions in sorted order,
    with one region, the one parsed from the host cloud region,
    whose endpoint is the endpoint of the cloud, and with a
    configuration that has a workload storage and an operator
    storage. *)
Theorem FinalizeCloud_success
    (p : kubernetesEnvironProvider World Credential Config CloudSpec)
    (cld : cloud.Cloud) (w : World) (cld' : cloud.Cloud) (w' : World) :
  Finalize p cld w = (Returns (cld', None), w') →
  cld' = cld
  ∨ (cloud.Name cld = K8sCloudMicrok8s
     ∧ (index (cloud.Config cld) OperatorStorageKey = None
        ∨ index (cloud.Config cld) OperatorStorageKey
          = Some (IString ""))
     ∧ ∃ w0 mk8sCloud credential name w1 openParams w2 broker w3
         clusterMetadata w4 regions first rest c region cfg,
         suitable (cmdRunner _ _ _ _ p) w = (Returns None, w0)
         ∧ builtinCloudGetter _ _ _ _ p (cmdRunner _ _ _ _ p) w0
           = (mk8sCloud, credential, name, None, w1)
         ∧ BaseKubeCloudOpenParams World Credential UUID Config
             Defaulting CloudSpec NewUUID UUID_String NoDefaults
             NameKey TypeKey UUIDKey config_New zeroCloudSpec
             MakeCloudSpec mk8sCloud credential w1
           = (openParams, None, w2)
         ∧ brokerGetter _ _ _ _ p openParams w2
           = (Some broker, None, w3)
         ∧ caas.GetClusterMetadata broker "" w3
           = (Some clusterMetadata, None, w4)
         ∧ cloud.Name cld' = cloud.Name mk8sCloud
         ∧ cloud.Endpoint cld' = cloud.Endpoint mk8sCloud
         ∧ caas.Regions clusterMetadata = Some regions
         ∧ caas.SortedValues regions = first :: rest
         ∧ cloud.HostCloudRegion cld'
           = BuildHostCloudRegion (caas.Cloud clusterMetadata) first
         ∧ ParseCloudRegion explode (cloud.HostCloudRegion cld')
           = (c, region, None)
         ∧ cloud.Regions cld'
           = Some [cloud.mkRegion region (cloud.Endpoint cld')]
         ∧ cloud.Config cld' = Some cfg
         ∧ is_Some (cfg !! WorkloadStorageKey)
         ∧ is_Some (cfg !! OperatorStorageKey)).
Proof.
  unfold FinalizeCloud. intros H.
  destruct (String.eqb_spec (cloud.Name cld) K8sCloudMicrok8s)
    as [Hname|Hname]; cbn [negb] in H; [|left; congruence].
  destruct (suitable (cmdRunner _ _ _ _ p) w) as [[[e|]|] w0] eqn:Hok;
    [done| |done].
  match type of H with
  | (if ?b then _ else _) = _ => destruct b eqn:Hop
  end; [left; congruence|].
  right. split; [done|]. split.
  { destruct (index (cloud.Config cld) OperatorStorageKey)
      as [[s| | |]|]; try done; [|by left].
    cbn in Hop. apply negb_false_iff, String.eqb_eq in Hop.
    right. by subst s. }
  destruct (builtinCloudGetter _ _ _ _ p _ w0)
    as [[[[mk8sCloud credential] name] [e|]] w1] eqn:Hbuiltin; [done|].
  destruct (BaseKubeCloudOpenParams _ _ _ _ _ _ _ _ _ _ _ _ _ _ _ _ _ _)
    as [[openParams [e|]] w2] eqn:Hopen; [done|].
  destruct (brokerGetter _ _ _ _ p openParams w2)
    as [[broker [e|]] w3] eqn:Hbroker; [done|].
  destruct broker as [broker|]; [|done].
  destruct (UpdateKubeCloudWithStorage _ _ _ _ _ _ _ _ _ _ _ _)
    as [[[[msg [e|]]|] mk8sCloud'] w4] eqn:Hupdate; [done| |done].
  injection H as <- <-.
  apply UpdateKubeCloudWithStorage_success_inv in Hupdate
    as (md & w5 & host & c & region & Hget & Hhost & Hparse & ->).
  cbn [GetClusterMetadata MetadataChecker] in Hget.
  unfold getClusterMetadata in Hget.
  destruct (caas.GetClusterMetadata broker "" w3)
    as [[md' [e|]] w6] eqn:Hmeta; [done|].
  injection Hget as -> ->.
  unfold hostCloudRegion_of in Hhost. cbn in Hhost.
  destruct (caas.Regions md) as [regions|] eqn:Hregions.
  2:{ injection Hhost as <-. discriminate Hparse. }
  destruct (caas.Size regions >? 0).
  2:{ injection Hhost as <-. discriminate Hparse. }
  destruct (caas.SortedValues regions) as [|first rest] eqn:Hsorted;
    [done|].
  injection Hhost as <-.
  eexists w0, mk8sCloud, credential, name, w1, openParams, w2, broker,
    w3, md, w5, regions, first, rest, c, region, _.
  split_and!; try done; try reflexivity.
  - cbn [fill_endpoints set_config set_region cloud.Config].
    apply set_default_is_Some, set_default_defined.
  - apply set_default_defined.
Qed.

(** X10. When [FinalizeCloud] returns an error, the cloud is the one
    named microk8s and the error is wrapped by [errors.Trace].  The
    cloud returned with it is the one given when the error is that
    MicroK8s is not suitable, and the zero cloud when a later step
    failed. *)
Theorem FinalizeCloud_error
    (p : kubernetesEnvironProvider World Credential Config CloudSpec)
    (cld : cloud.Cloud) (w : World) (cld' : cloud.Cloud) (e : error)
    (w' : World) :
  Finalize p cld w = (Returns (cld', Some e), w') →
  cloud.Name cld = K8sCloudMicrok8s
  ∧ ∃ e0, e = Trace e0
    ∧ ((cld' = cld
        ∧ suitable (cmdRunner _ _ _ _ p) w = (Returns (Some e0), w'))
       ∨ (cld' = zeroCloud
          ∧ ∃ w0, suitable (cmdRunner _ _ _ _ p) w = (Returns None, w0))).
Proof.
  unfold FinalizeCloud. intros H.
  destruct (String.eqb_spec (cloud.Name cld) K8sCloudMicrok8s)
    as [Hname|Hname]; cbn [negb] in H; [|done].
  split; [done|].
  destruct (suitable (cmdRunner _ _ _ _ p) w) as [[[e1|]|] w0] eqn:Hok;
    [|  |done].
  { injection H as <- <- <-. eauto. }
  match type of H with
  | (if ?b then _ else _) = _ => destruct b
  end; [done|].
  destruct (builtinCloudGetter _ _ _ _ p _ w0)
    as [[[[mk8sCloud credential] name] [e1|]] w1];
    [injection H as <- <- <-; eauto 10|].
  destruct (BaseKubeCloudOpenParams _ _ _ _ _ _ _ _ _ _ _ _ _ _ _ _ _ _)
    as [[openParams [e1|]] w2]; [injection H as <- <- <-; eauto 10|].
  destruct (brokerGetter _ _ _ _ p openParams w2)
    as [[broker [e1|]] w3]; [injection H as <- <- <-; eauto 10|].
  destruct broker as [broker|]; [|done].
  destruct (UpdateKubeCloudWithStorage _ _ _ _ _ _ _ _ _ _ _ _)
    as [[[[msg [e1|]]|] mk8sCloud'] w4]; [|done..].
  injection H as <- <- <-; eauto 10.
Qed.

End FinalizeCloud.
End MicroK8s.
End MicroK8sFacts.
(* ===================================================================== *)
(** * More on cloud.go: clouds from a kubeconfig *)
(* ===================================================================== *)

Module KubeConfigFacts.
Import Provider.

Section KubeConfig.
Context (World Reader Credential K8sCredentialResolver : Type)
  (zeroCredential : Credential) (AuthType : Credential → string)
  (EnsureK8sCredential : K8sCredentialResolver)
  (MapKeys : gmap string clientconfig.Context → list string).

Abbreviation newCloud :=
  (newCloudCredentialFromKubeConfig World Reader Credential
     K8sCredentialResolver zeroCredential AuthType EnsureK8sCredential
     MapKeys).

Implicit Types
  (cloudParams : KubeCloudParams World Reader Credential
                   K8sCredentialResolver)
  (credential : Credential).

(** X11. When [newCloudCredentialFromKubeConfig] returns without error,
    the configuration read has a context, one of those [MapKeys]
    lists, whose cloud is in the configuration with a string as its
    CAData attribute.  The cloud returned has the name, the type and
    the host cloud region of the parameters, the endpoint of the
    context's cloud, its CAData as the one CA certificate, and the
    authentication type of the credential as the only one; it has no
    regions and no configuration.  The name returned is the
    context's credential name, and the credential is the one the
    configuration has under that name, or the zero credential when it
    has none: a credential that is missing is no error. *)
Theorem newCloudCredentialFromKubeConfig_success (reader : Reader)
    (cloudParams : KubeCloudParams World Reader Credential
                     K8sCredentialResolver)
    (w : World) (cld : cloud.Cloud) (credential : Credential)
    (name : string) (w' : World) :
  (∀ m k, k ∈ MapKeys m → is_Some (m !! k)) →
  newCloud reader cloudParams w
    = (Returns (cld, credential, name, None), w') →
  ∃ clientConfigFunc w1 caasConfig contexts key context currentCloud
      cloudCAData,
    ClientConfigGetter _ _ _ _ cloudParams (CaasType _ _ _ _ cloudParams) w
      = (Some clientConfigFunc, None, w1)
    ∧ clientConfigFunc reader (ContextName _ _ _ _ cloudParams)
        (ClusterName _ _ _ _ cloudParams) EnsureK8sCredential w1
      = (Some caasConfig, None, w')
    ∧ clientconfig.Contexts caasConfig = Some contexts
    ∧ key ∈ MapKeys contexts
    ∧ contexts !! key = Some context
    ∧ name = clientconfig.CredentialName context
    ∧ credential
      = default zeroCredential
          (index (clientconfig.Credentials caasConfig) name)
    ∧ index (clientconfig.Clouds caasConfig)
        (clientconfig.CloudName context) = Some currentCloud
    ∧ index (clientconfig.Attributes currentCloud) "CAData"
      = Some (IString cloudCAData)
    ∧ cld = cloud.mkCloud (CaasName _ _ _ _ cloudParams)
              (CaasType _ _ _ _ cloudParams) [AuthType credential]
              (clientconfig.Endpoint currentCloud) None None
              [cloudCAData]
              (KubeCloudParams_HostCloudRegion _ _ _ _ cloudParams).
Proof.
  intros Hkeys. unfold newCloudCredentialFromKubeConfig. intros H.
  destruct (ClientConfigGetter _ _ _ _ _ _ _)
    as [[clientConfigFunc [e|]] w1]; [done|].
  destruct clientConfigFunc as [clientConfigFunc|]; [|done].
  destruct (clientConfigFunc _ _ _ _ _) as [[caasConfig [e|]] w2] eqn:Hcfg;
    [done|].
  destruct caasConfig as [caasConfig|]; [|done].
  destruct (clientconfig.Contexts caasConfig) as [contexts|] eqn:Hctx;
    cbn [from_option id] in H; [|by rewrite map_size_empty in H].
  destruct (Z.of_nat _ =? 0); [done|].
  destruct (MapKeys contexts) as [|key keys] eqn:Hmap; [done|].
  destruct (Hkeys contexts key) as [context Hcontext];
    [rewrite Hmap; by left|].
  rewrite Hcontext in H. cbn [from_option id] in H.
  destruct (index (clientconfig.Clouds caasConfig) _)
    as [currentCloud|] eqn:Hcloud; [|done].
  cbn [from_option id] in H.
  destruct (index (clientconfig.Attributes currentCloud) "CAData")
    as [[cloudCAData| | |]|] eqn:Hca; try done.
  injection H as <- <- <- <-.
  exists clientConfigFunc, w1, caasConfig, contexts, key, context,
    currentCloud, cloudCAData.
  rewrite Hmap. split_and!; try done. by left.
Qed.

(** X12. When [newCloudCredentialFromKubeConfig] returns an error, the
    cloud returned is the zero cloud and the name is empty.  The
    credential is the zero credential, unless the error is that the
    CAData attribute is no string: then it is the credential that was
    read, the one the configuration has under the credential name of
    its context, the first of those [MapKeys] lists, or the zero
    credential when the configuration has none under that name. *)
Theorem newCloudCredentialFromKubeConfig_failure (reader : Reader)
    (cloudParams : KubeCloudParams World Reader Credential
                     K8sCredentialResolver)
    (w : World) (cld : cloud.Cloud) (credential : Credential)
    (name : string) (e : error) (w' : World) :
  newCloud reader cloudParams w
    = (Returns (cld, credential, name, Some e), w') →
  cld = zeroCloud ∧ name = ""
  ∧ (credential = zeroCredential
     ∨ e = Errorf "CAData attribute should be a string"
       ∧ ∃ clientConfigFunc w1 caasConfig contexts key keys,
           ClientConfigGetter _ _ _ _ cloudParams
             (CaasType _ _ _ _ cloudParams) w
           = (Some clientConfigFunc, None, w1)
           ∧ clientConfigFunc reader (ContextName _ _ _ _ cloudParams)
               (ClusterName _ _ _ _ cloudParams) EnsureK8sCredential w1
             = (Some caasConfig, None, w')
           ∧ clientconfig.Contexts caasConfig = Some contexts
           ∧ MapKeys contexts = key :: keys
           ∧ credential
             = default zeroCredential
                 (index (clientconfig.Credentials caasConfig)
                    (clientconfig.CredentialName
                       (default (clientconfig.mkContext "" "")
                          (contexts !! key))))).
Proof.
  unfold newCloudCredentialFromKubeConfig. intros H.
  destruct (ClientConfigGetter _ _ _ _ _ _ _)
    as [[clientConfigFunc [e1|]] w1] eqn:Hgetter;
    [simplify_eq; split_and!; [done..|by left]|].
  destruct clientConfigFunc as [clientConfigFunc|]; [|done].
  destruct (clientConfigFunc _ _ _ _ _) as [[caasConfig [e1|]] w2] eqn:Hcfg;
    [simplify_eq; split_and!; [done..|by left]|].
  destruct caasConfig as [caasConfig|]; [|done].
  destruct (Z.of_nat _ =? 0) eqn:Hsize;
    [simplify_eq; split_and!; [done..|by left]|].
  destruct (clientconfig.Contexts caasConfig) as [contexts|] eqn:Hctx;
    cbn [from_option id] in H, Hsize;
    [|by rewrite map_size_empty in Hsize].
  destruct (MapKeys contexts) as [|key keys] eqn:Hmap; [done|].
  destruct (index (clientconfig.Attributes _) "CAData")
    as [[cloudCAData| | |]|]; simplify_eq;
    (split; [done|]); (split; [done|]); right; (split; [done|]);
    by exists clientConfigFunc, w1, caasConfig, contexts, key, keys.
Qed.

End KubeConfig.
End KubeConfigFacts.
(* ===================================================================== *)
(** * The model generation client *)
(* ===================================================================== *)

Module ModelGenerationFacts.
Import modelgeneration.

Section Client.
Context (World ModelTag GenerationVersion : Type)
  (ModelTag_String : ModelTag → string)
  (GenerationCurrent GenerationNext : GenerationVersion)
  (IsValidApplication IsValidUnit : string → bool)
  (NewApplicationTag : string → string)
  (NewUnitTag : string → outcome string)
  (Combine : ErrorResults → option error).

Abbreviation Switch :=
  (SwitchGeneration World ModelTag GenerationVersion ModelTag_String
     GenerationCurrent GenerationNext).
Abbreviation Advance :=
  (AdvanceGeneration World ModelTag GenerationVersion ModelTag_String
     IsValidApplication IsValidUnit NewApplicationTag NewUnitTag Combine).
Abbreviation tags_of :=
  (tagEntities IsValidApplication IsValidUnit NewApplicationTag NewUnitTag).

(** An entity that is neither the name of an application nor the name
    of a unit. *)
Abbreviation invalid entity :=
  (IsValidApplication entity = false ∧ IsValidUnit entity = false).

(** The tag made for an entity: the application tag when the entity
    is the name of an application, the unit tag when it is not and is
    the name of a unit. *)
Abbreviation tagged entity tag :=
  (if IsValidApplication entity
   then tag = mkEntity (NewApplicationTag entity)
   else IsValidUnit entity = true
        ∧ NewUnitTag entity = Returns (Tag tag)).

Implicit Types (c : Client World GenerationVersion) (model : ModelTag)
  (entities : list string) (argEntities : list Entity).

(** With an entity that is not valid, the loop ends with the error,
    whatever it has collected. *)
Lemma tagEntities_invalid entities argEntities :
  (∀ e, IsValidUnit e = true → ∃ tag, NewUnitTag e = Returns tag) →
  Exists (λ e, invalid e) entities →
  tags_of entities argEntities
  = Returns (inr (Trace (errors.New "Must be application or unit"))).
Proof.
  intros Hunit Hex. revert argEntities.
  induction entities as [|entity entities IH]; intros argEntities;
    [by apply Exists_nil in Hex|].
  cbn [tagEntities].
  destruct (IsValidApplication entity) eqn:Happ.
  - apply IH. apply Exists_cons in Hex as [[? _]|]; [congruence|done].
  - destruct (IsValidUnit entity) eqn:Hu; [|done].
    destruct (Hunit entity Hu) as [tag ->].
    apply IH. apply Exists_cons in Hex as [[_ ?]|]; [congruence|done].
Qed.

(** With valid entities only, the loop adds one tag for each entity,
    in the order of the entities. *)
Lemma tagEntities_valid entities argEntities :
  (∀ e, IsValidUnit e = true → ∃ tag, NewUnitTag e = Returns tag) →
  Forall (λ e, IsValidApplication e = true ∨ IsValidUnit e = true)
    entities →
  ∃ tags,
    Forall2 (λ e tag, tagged e tag) entities tags
    ∧ tags_of entities argEntities = Returns (inl (argEntities ++ tags)).
Proof.
  intros Hunit Hall. revert argEntities.
  induction Hall as [|entity entities Hvalid Hall IH]; intros argEntities.
  - exists []. split; [constructor|]. cbn. by rewrite app_nil_r.
  - cbn [tagEntities].
    destruct (IsValidApplication entity) eqn:Happ.
    + destruct (IH (argEntities ++ [mkEntity (NewApplicationTag entity)]))
        as (tags & Htags & ->).
      exists (mkEntity (NewApplicationTag entity) :: tags).
      split; [|by rewrite <- app_assoc].
      constructor; [by rewrite Happ|done].
    + destruct Hvalid as [|Hu]; [done|]. rewrite Hu.
      destruct (Hunit entity Hu) as [tag Htag]. rewrite Htag.
      destruct (IH (argEntities ++ [mkEntity tag])) as (tags & Htags & ->).
      exists (mkEntity tag :: tags).
      split; [|by rewrite <- app_assoc].
      constructor; [by rewrite Happ|done].
Qed.

(** X13. [AdvanceGeneration] sends nothing to the API server when there is
    nothing to advance or when one of the entities is neither the name
    of an application nor the name of a unit: it returns an error,
    and the server is as it was. *)
Theorem AdvanceGeneration_rejects (c : Client World GenerationVersion)
    (model : ModelTag) (entities : list string) (w : World) :
  (∀ e, IsValidUnit e = true → ∃ tag, NewUnitTag e = Returns tag) →
  entities = [] ∨ Exists (λ e, invalid e) entities →
  ∃ msg,
    Advance c model entities w
    = (Returns (Some (Trace (errors.New msg))), w)
    ∧ (entities = [] → msg = "No units or applications to advance")
    ∧ (entities ≠ [] → msg = "Must be application or unit").
Proof.
  intros Hunit [->|Hex].
  - by eexists.
  - unfold AdvanceGeneration.
    destruct entities as [|entity entities];
      [by apply Exists_nil in Hex|].
    cbn [length]. rewrite tagEntities_invalid by done.
    by eexists.
Qed.

(** X14. With at least one entity, each the name of an application or of a
    unit, [AdvanceGeneration] makes one call to the facade,
    "AdvanceGeneration", with the tag of the model and one tag for
    each entity, in the order of the entities: the application tag
    for the name of an application, the unit tag for another.  It
    returns the error of the call, wrapped by [errors.Trace], or what
    [Combine] makes of the results. *)
Theorem AdvanceGeneration_calls (c : Client World GenerationVersion)
    (model : ModelTag) (entities : list string) (w : World) :
  (∀ e, IsValidUnit e = true → ∃ tag, NewUnitTag e = Returns tag) →
  entities ≠ [] →
  Forall (λ e, IsValidApplication e = true ∨ IsValidUnit e = true)
    entities →
  ∃ tags,
    Forall2 (λ e tag, tagged e tag) entities tags
    ∧ Advance c model entities w
      = let '(results, err, w') :=
          FacadeCall_results _ _ (facade _ _ c) "AdvanceGeneration"
            (ParamsAdvanceGeneration _
               (mkAdvanceGenerationArg
                  (mkEntity (ModelTag_String model)) tags)) w in
        (Returns match err with
                 | Some e => Some (Trace e)
                 | None => Combine results
                 end, w').
Proof.
  intros Hunit Hne Hall.
  destruct (tagEntities_valid entities [] Hunit Hall) as (tags & Htags & Heq).
  exists tags. split; [done|].
  unfold AdvanceGeneration. rewrite Heq. cbn [app].
  destruct entities as [|entity entities]; [done|]. cbn [length].
  destruct (FacadeCall_results _ _ _ _ _ _) as [[results [e|]] w'];
    reflexivity.
Qed.

(** X15. [SwitchGeneration] returns no error exactly when the version
    is "current" or "next" and the call "SwitchGeneration" to the
    facade, with the tag of the model and the generation that goes
    with the version, returns neither an error nor a result with an
    error.  For any other version no call is made: whatever the
    facade, the error "version must be 'next' or 'current'" comes
    back, wrapped by [errors.Trace], and the server is as it was. *)
Theorem SwitchGeneration_version_checked
    (c : Client World GenerationVersion) (model : ModelTag)
    (version : string) (w w' : World) :
  (Switch c model version w = (None, w')
   ↔ ∃ v,
       (version = "current" ∧ v = GenerationCurrent
        ∨ version = "next" ∧ v = GenerationNext)
       ∧ FacadeCall _ _ (facade _ _ c) "SwitchGeneration"
           (ParamsGenerationVersion _
              (mkGenerationVersionArg _
                 (mkEntity (ModelTag_String model)) v)) w
         = (mkErrorResult None, None, w'))
  ∧ (version ≠ "current" → version ≠ "next" →
     Switch c model version w
     = (Some (Trace (errors.New "version must be 'next' or 'current'")),
        w)).
Proof.
  split.
  - unfold SwitchGeneration.
    destruct (String.eqb_spec version "current") as [->|Hcur].
    + destruct (FacadeCall _ _ _ _ _ _) as [[[res] [e|]] w1] eqn:Hcall.
      * split; [done|]. intros (v & [[_ ->]|[? _]] & Hv); congruence.
      * destruct res as [e|]; cbn [Error].
        -- split; [done|]. intros (v & [[_ ->]|[? _]] & Hv); congruence.
        -- split.
           ++ intros [= <-]. exists GenerationCurrent.
              split; [by left|done].
           ++ intros (v & [[_ ->]|[? _]] & Hv); congruence.
    + destruct (String.eqb_spec version "next") as [->|Hnext].
      * destruct (FacadeCall _ _ _ _ _ _) as [[[res] [e|]] w1] eqn:Hcall.
        -- split; [done|]. intros (v & [[? _]|[_ ->]] & Hv); congruence.
        -- destruct res as [e|]; cbn [Error].
           ++ split; [done|].
              intros (v & [[? _]|[_ ->]] & Hv); congruence.
           ++ split.
              ** intros [= <-]. exists GenerationNext.
                 split; [by right|done].
              ** intros (v & [[? _]|[_ ->]] & Hv); congruence.
      * split; [done|]. intros (v & [[? _]|[? _]] & _); congruence.
  - intros Hcur Hnext. unfold SwitchGeneration.
    apply String.eqb_neq in Hcur, Hnext. by rewrite Hcur, Hnext.
Qed.

End Client.
End ModelGenerationFacts.
(* ===================================================================== *)
(** * Regular expressions *)
(* ===================================================================== *)

Module RegexpFacts.
Import regexp GoStringsFacts.

Local Hint Constructors matches : core.

Lemma append_nil_r s : s +:+ "" = s.
Proof. induction s as [|c s IH]; [done|]. by rewrite app_String, IH. Qed.

Lemma append_assoc s1 s2 s3 : (s1 +:+ s2) +:+ s3 = s1 +:+ (s2 +:+ s3).
Proof.
  induction s1 as [|c s1 IH]; [by rewrite !app_empty_l|].
  by rewrite !app_String, IH.
Qed.

Lemma append_eq_nil s1 s2 : s1 +:+ s2 = "" → s1 = "" ∧ s2 = "".
Proof.
  destruct s1; [by rewrite app_empty_l|]. by rewrite app_String.
Qed.

Lemma append_eq_cons s1 s2 c s :
  s1 +:+ s2 = String c s →
  (s1 = "" ∧ s2 = String c s) ∨ ∃ s1', s1 = String c s1' ∧ s = s1' +:+ s2.
Proof.
  destruct s1 as [|c1 s1]; [rewrite app_empty_l; by left|].
  rewrite app_String. intros [= -> <-]. right. by eexists.
Qed.

Lemma nullable_matches r : nullable r = true ↔ matches r "".
Proof.
  split.
  - induction r; cbn; intros H; try done; eauto.
    + apply andb_true_iff in H as [H1 H2].
      rewrite <- (app_empty_l ""). eauto.
    + apply orb_true_iff in H as [H|H]; eauto.
    + rewrite <- (app_empty_l ""). eauto.
  - intros H. remember "" as s eqn:Hs. revert Hs.
    induction H; cbn; intros Hs; try done.
    + apply append_eq_nil in Hs as [-> ->].
      by rewrite IHmatches1, IHmatches2.
    + by rewrite IHmatches.
    + rewrite IHmatches; [apply orb_true_r|done].
    + apply append_eq_nil in Hs as [-> ->]. by apply IHmatches1.
Qed.

(** A non-empty match of a repetition starts with a non-empty match of
    what is repeated. *)
Lemma matches_star_cons r c s :
  matches (OpStar r) (String c s) →
  ∃ s1 s2, s = s1 +:+ s2 ∧ matches r (String c s1) ∧ matches (OpStar r) s2.
Proof.
  intros H. remember (OpStar r) as x eqn:Hx.
  remember (String c s) as y eqn:Hy. revert s Hx Hy.
  induction H; intros s0 Hx Hy; try done.
  injection Hx as ->.
  apply append_eq_cons in Hy as [[-> ->]|(s1' & -> & ->)].
  - by apply IHmatches2.
  - by exists s1', s2.
Qed.

Ltac invert_matches :=
  repeat match goal with
  | H : matches OpNoMatch _ |- _ => inversion H
  | H : matches OpEmptyMatch _ |- _ => inversion H; subst; clear H
  | H : matches (OpLiteral _) _ |- _ => inversion H; subst; clear H
  | H : matches (OpCharClass _) _ |- _ => inversion H; subst; clear H
  | H : matches (OpConcat _ _) _ |- _ => inversion H; subst; clear H
  | H : matches (OpAlternate _ _) _ |- _ => inversion H; subst; clear H
  | H : matches (OpPlus _) _ |- _ => inversion H; subst; clear H
  end.

Lemma matches_derive r c s :
  matches (derive c r) s ↔ matches r (String c s).
Proof.
  split.
  - revert s. induction r; intros s H; cbn in H.
    + invert_matches.
    + invert_matches.
    + destruct (Ascii.eqb_spec c c0) as [->|]; invert_matches. eauto.
    + destruct (in_class ranges c) eqn:Hc; invert_matches. eauto.
    + destruct (nullable r1) eqn:Hn; invert_matches.
      * rewrite <- app_String. eauto.
      * rewrite <- (app_empty_l (String c s)).
        constructor; [by apply nullable_matches|eauto].
      * rewrite <- app_String. eauto.
    + invert_matches; eauto.
    + invert_matches. rewrite <- app_String. eauto.
    + invert_matches. rewrite <- app_String. eauto.
  - revert s. induction r; intros s H; cbn.
    + invert_matches.
    + inversion H.
    + inversion H; subst. by rewrite Ascii.eqb_refl.
    + inversion H as [| |? ? Hc| | | | | |]; subst. by rewrite Hc.
    + inversion H as [| | |? ? s1 s2 H1 H2| | | | |]; subst.
      match goal with
      | Heq : _ +:+ _ = String _ _ |- _ =>
          apply append_eq_cons in Heq as [[-> ->]|(s1' & -> & ->)]
      end.
      * apply nullable_matches in H1 as ->. eauto.
      * destruct (nullable r1); eauto.
    + inversion H; subst; eauto.
    + apply matches_star_cons in H as (s1 & s2 & -> & H1 & H2). eauto.
    + inversion H as [| | | | | | | |? s1 s2 H1 H2]; subst.
      match goal with
      | Heq : _ +:+ _ = String _ _ |- _ =>
          apply append_eq_cons in Heq as [[-> ->]|(s1' & -> & ->)]
      end.
      * apply matches_star_cons in H2 as (s1 & s2 & -> & H1' & H2'). eauto.
      * eauto.
Qed.

(** [MatchString] decides whether the expression matches the string. *)
Lemma MatchString_matches r s : MatchString r s = true ↔ matches r s.
Proof.
  revert r. induction s as [|c s IH]; intros r; cbn.
  - apply nullable_matches.
  - by rewrite IH, matches_derive.
Qed.

End RegexpFacts.
(* ===================================================================== *)
(** * conn.go: the names of services and units *)
(* ===================================================================== *)

Module NameFacts.
Import regexp juju GoStringsFacts RegexpFacts.

Local Hint Constructors matches : core.

Lemma chars_app s1 s2 : chars (s1 +:+ s2) = chars s1 ++ chars s2.
Proof.
  induction s1 as [|c s1 IH]; [by rewrite app_empty_l|].
  rewrite app_String. cbn. by rewrite IH.
Qed.

Lemma chars_inj s1 s2 : chars s1 = chars s2 → s1 = s2.
Proof.
  revert s2. induction s1 as [|c s1 IH]; intros [|c2 s2]; cbn; try done.
  intros [= -> H]. by rewrite (IH _ H).
Qed.

(** A repetition of a class matches the strings of characters of the
    class. *)
Lemma matches_star_class ranges s :
  matches (OpStar (OpCharClass ranges)) s
  ↔ Forall (λ c, in_class ranges c = true) (chars s).
Proof.
  split.
  - intros H. remember (OpStar (OpCharClass ranges)) as r eqn:Hr.
    induction H; try done.
    injection Hr as ->. rewrite chars_app. apply Forall_app. split; [|auto].
    inversion H; subst. cbn. by constructor.
  - induction s as [|c s IH]; cbn; intros H; [constructor|].
    apply Forall_cons in H as [Hc Hs].
    change (String c s) with (String c "" +:+ s). eauto.
Qed.

Lemma matches_plus_class ranges s :
  matches (OpPlus (OpCharClass ranges)) s
  ↔ s ≠ "" ∧ Forall (λ c, in_class ranges c = true) (chars s).
Proof.
  split.
  - intros H. inversion H as [| | | | | | | |? s1 s2 H1 H2]; subst.
    inversion H1; subst. rewrite app_String, app_empty_l.
    split; [done|]. cbn. constructor; [done|].
    by apply matches_star_class.
  - intros [Hne H]. destruct s as [|c s]; [done|]. cbn in H.
    apply Forall_cons in H as [Hc Hs].
    change (String c s) with (String c "" +:+ s).
    constructor; [eauto|]. by apply matches_star_class.
Qed.

Lemma matches_concat_inv r1 r2 s :
  matches (OpConcat r1 r2) s
  ↔ ∃ s1 s2, s = s1 +:+ s2 ∧ matches r1 s1 ∧ matches r2 s2.
Proof.
  split.
  - intros H. inversion H; subst. eauto.
  - intros (s1 & s2 & -> & H1 & H2). eauto.
Qed.

Lemma matches_literal_inv c s : matches (OpLiteral c) s ↔ s = String c "".
Proof.
  split; [intros H; by inversion H|intros ->; eauto].
Qed.

(** What comes after the name of the service in [ValidUnit]. *)
Abbreviation dash_group :=
  (OpConcat (OpLiteral "-")
     (OpConcat (OpStar lower_digit) (OpConcat lower (OpStar lower_digit)))).

(** A unit name is a service name, a slash and a number. *)
Lemma matches_ValidUnit s :
  matches ValidUnit s
  ↔ ∃ service number,
      s = service +:+ "/" +:+ number
      ∧ matches ValidService service
      ∧ matches (OpPlus digit) number.
Proof.
  unfold ValidUnit, ValidService. split.
  - intros H.
    apply matches_concat_inv in H as (s1 & t1 & -> & H1 & H).
    apply matches_concat_inv in H as (s2 & t2 & -> & H2 & H).
    apply matches_concat_inv in H as (s3 & t3 & -> & H3 & H).
    apply matches_concat_inv in H as (s4 & number & -> & H4 & H5).
    apply matches_literal_inv in H4 as ->.
    exists (s1 +:+ s2 +:+ s3), number.
    split; [by rewrite !append_assoc|]. eauto.
  - intros (service & number & -> & H & Hn).
    apply matches_concat_inv in H as (s1 & t1 & -> & H1 & H).
    apply matches_concat_inv in H as (s2 & s3 & -> & H2 & H3).
    rewrite !append_assoc. eauto 10.
Qed.

Abbreviation is_lower c := (in_class [("a", "z")]%char c = true).
Abbreviation is_digit c := (in_class [("0", "9")]%char c = true).
Abbreviation is_lower_digit c :=
  (in_class [("a", "z"); ("0", "9")]%char c = true).

Lemma is_lower_is_lower_digit c : is_lower c → is_lower_digit c.
Proof.
  unfold in_class. cbn [existsb]. rewrite !orb_false_r. intros ->. done.
Qed.

(** Where an element that is not in the first of two lists is in their
    concatenation. *)
Lemma app_split_not_in {A} (l1 l2 p q : list A) d :
  l1 ++ l2 = p ++ d :: q → d ∉ l1 → ∃ m, p = l1 ++ m ∧ l2 = m ++ d :: q.
Proof.
  revert p. induction l1 as [|a l1 IH]; intros p H Hd; cbn in *.
  - by exists p.
  - destruct p as [|b p]; cbn in H; injection H as -> H.
    + destruct Hd. by left.
    + destruct (IH p H) as (m & -> & ->); [|by exists m].
      intros Hin. apply Hd. by right.
Qed.

Lemma not_in_class ranges d (l : list ascii) :
  in_class ranges d = false →
  Forall (λ c, in_class ranges c = true) l → d ∉ l.
Proof.
  intros Hd Hl Hin. rewrite Forall_forall in Hl.
  specialize (Hl d Hin). congruence.
Qed.

(** After every dash come letters and digits up to a letter. *)
Abbreviation letter_after_dashes l :=
  (∀ p q, l = p ++ "-"%char :: q →
     ∃ x c y, q = x ++ c :: y
              ∧ Forall (λ c, is_lower_digit c) x ∧ is_lower c).

(** The characters of a service name or a number: none is a slash. *)
Abbreviation no_slash l := ("/"%char ∉ l).

Lemma matches_dash_group g :
  matches dash_group g →
  ∃ x c y, chars g = "-"%char :: x ++ c :: y
           ∧ Forall (λ c, is_lower_digit c) x ∧ is_lower c
           ∧ Forall (λ c, is_lower_digit c) y.
Proof.
  intros H.
  apply matches_concat_inv in H as (s1 & t1 & -> & H1 & H).
  apply matches_concat_inv in H as (s2 & t2 & -> & H2 & H).
  apply matches_concat_inv in H as (s3 & s4 & -> & H3 & H4).
  apply matches_literal_inv in H1 as ->.
  apply matches_star_class in H2, H4.
  inversion H3; subst.
  exists (chars s2), c, (chars s4).
  rewrite app_String, app_empty_l. cbn. by rewrite !chars_app.
Qed.

Lemma matches_star_dash_group t :
  matches (OpStar dash_group) t →
  letter_after_dashes (chars t) ∧ no_slash (chars t).
Proof.
  intros H. remember (OpStar dash_group) as r eqn:Hr.
  induction H; try done.
  { split; [|by apply not_elem_of_nil]. by intros [|] ?. }
  injection Hr as ->.
  destruct (IHmatches2 eq_refl) as [IH IHslash].
  destruct (matches_dash_group _ H) as (x & c & y & Hg & Hx & Hc & Hy).
  rewrite chars_app, Hg. split.
  - intros p q Hsplit. destruct p as [|d p]; cbn in Hsplit.
    + injection Hsplit as <-. exists x, c, (y ++ chars s2).
      by rewrite <- app_assoc.
    + injection Hsplit as <- Hsplit.
      rewrite <- app_assoc in Hsplit. cbn in Hsplit.
      apply app_split_not_in in Hsplit as (m1 & -> & Hsplit);
        [|by apply (not_in_class [("a", "z"); ("0", "9")]%char)].
      destruct m1 as [|d m1]; cbn in Hsplit; injection Hsplit as -> Hsplit;
        [done|].
      apply app_split_not_in in Hsplit as (m2 & -> & Hsplit);
        [|by apply (not_in_class [("a", "z"); ("0", "9")]%char)].
      by apply (IH m2 q).
  - intros Hin. cbn in Hin. rewrite <- app_assoc in Hin. cbn in Hin.
    apply elem_of_cons in Hin as [|Hin]; [done|].
    apply elem_of_app in Hin as [Hin|Hin].
    { by apply (not_in_class [("a", "z"); ("0", "9")]%char "/" x). }
    apply elem_of_cons in Hin as [<-|Hin]; [done|].
    apply elem_of_app in Hin as [Hin|Hin]; [|done].
    by apply (not_in_class [("a", "z"); ("0", "9")]%char "/" y).
Qed.

Lemma matches_ValidService s :
  matches ValidService s →
  (∃ c rest, s = String c rest ∧ is_lower c)
  ∧ letter_after_dashes (chars s) ∧ no_slash (chars s).
Proof.
  unfold ValidService. intros H.
  apply matches_concat_inv in H as (s1 & t1 & -> & H1 & H).
  apply matches_concat_inv in H as (s2 & s3 & -> & H2 & H3).
  inversion H1; subst. apply matches_star_class in H2.
  apply matches_star_dash_group in H3 as [Hdash Hslash].
  rewrite app_String, app_empty_l. split; [eauto|].
  cbn. rewrite chars_app. split.
  - intros p q Hsplit. destruct p as [|d p]; cbn in Hsplit;
      injection Hsplit as -> Hsplit; [done|].
    apply app_split_not_in in Hsplit as (m & -> & Hsplit);
      [|by apply (not_in_class [("a", "z"); ("0", "9")]%char)].
    by apply (Hdash m q).
  - intros Hin. apply elem_of_cons in Hin as [<-|Hin]; [done|].
    apply elem_of_app in Hin as [Hin|Hin]; [|done].
    by apply (not_in_class [("a", "z"); ("0", "9")]%char "/" (chars s2)).
Qed.

(** *** Properties *)

(** X17. [ValidUnit] matches exactly the strings made of a name that
    [ValidService] matches, a slash, and a number of one digit or
    more. *)
Theorem ValidUnit_service_and_number s :
  MatchString ValidUnit s = true
  ↔ ∃ service number,
      s = service +:+ "/" +:+ number
      ∧ MatchString ValidService service = true
      ∧ number ≠ ""
      ∧ Forall (λ c, is_digit c) (chars number).
Proof.
  rewrite MatchString_matches, matches_ValidUnit.
  split; intros (service & number & -> & Hs & Hn); exists service, number.
  - apply MatchString_matches in Hs. by apply matches_plus_class in Hn.
  - destruct Hn as [Hne Hn]. apply MatchString_matches in Hs.
    split; [done|]. split; [done|]. by apply matches_plus_class.
Qed.

(** X18. A name that [ValidService] matches starts with a lower case letter,
    has no slash, and has, after each of its dashes, lower case letters
    and digits up to a lower case letter: it has no two dashes in a
    row, and it does not end with a dash, or with a dash and digits. *)
Theorem ValidService_shape s :
  MatchString ValidService s = true →
  (∃ c rest, s = String c rest ∧ is_lower c)
  ∧ ("/"%char ∉ chars s)
  ∧ ∀ p q, chars s = p ++ "-"%char :: q →
      ∃ x c y, q = x ++ c :: y
               ∧ Forall (λ c, is_lower_digit c) x ∧ is_lower c.
Proof.
  intros H. apply MatchString_matches, matches_ValidService in H.
  destruct H as (Hfirst & Hdash & Hslash). done.
Qed.

(** X19. A unit name has one service and one number: a string is a name
    that [ValidService] matches, a slash and a number in one way at
    most. *)
Theorem ValidUnit_service_unique service1 number1 service2 number2 :
  MatchString ValidService service1 = true →
  MatchString ValidService service2 = true →
  service1 +:+ "/" +:+ number1 = service2 +:+ "/" +:+ number2 →
  service1 = service2 ∧ number1 = number2.
Proof.
  intros H1 H2 Heq.
  apply MatchString_matches, matches_ValidService in H1 as (_ & _ & Hs1).
  apply MatchString_matches, matches_ValidService in H2 as (_ & _ & Hs2).
  apply (f_equal chars) in Heq. rewrite !chars_app in Heq. cbn in Heq.
  destruct (app_split_not_in _ _ _ _ _ Heq Hs1) as (m & Hm & Hrest).
  destruct m as [|d m]; cbn in Hrest.
  - injection Hrest as Hn. rewrite app_nil_r in Hm.
    split; by apply chars_inj.
  - injection Hrest as <- _. destruct Hs2. rewrite Hm.
    apply elem_of_app. right. by left.
Qed.

End NameFacts.
(* ===================================================================== *)
(** * conn.go: the connection *)
(* ===================================================================== *)

Module ConnFacts.
Import juju.

Section Conn.
Context (World Instance state_Info state_State : Type)
  (state_Open :
     option state_Info → World
     → (option state_State * option error) * World).

Abbreviation Conn_State :=
  (State World Instance state_Info state_State state_Open).

Implicit Types (c : Conn World Instance state_Info state_State).

(** X16. [State] opens the state once.  A call that returns a state keeps
    it in the Conn, and every later call, in whatever the environment
    has become, returns that state without asking the environment
    for anything and leaves the Conn as it is.  A call that returns
    an error returns no state and leaves the Conn as it was, so that
    the next call tries again.  The environment of the Conn never
    changes. *)
Theorem State_cached (c : Conn World Instance state_Info state_State)
    (w : World) (st : option state_State) (err : option error)
    (c' : Conn World Instance state_Info state_State) (w' : World) :
  Conn_State c w = (Returns (st, err), c', w') →
  Conn_Environ _ _ _ _ c' = Conn_Environ _ _ _ _ c
  ∧ state _ _ _ _ c' = st
  ∧ (err ≠ None → st = None ∧ c' = c)
  ∧ (st ≠ None →
     err = None
     ∧ ∀ w'', Conn_State c' w'' = (Returns (st, None), c', w'')).
Proof.
  unfold State. intros H.
  destruct (state _ _ _ _ c) as [st0|] eqn:Hstate.
  - injection H as <- <- <- <-. rewrite Hstate. by split_and!.
  - destruct (Conn_Environ _ _ _ _ c) as [environ|] eqn:Henv; [|done].
    destruct (StateInfo _ _ _ environ w) as [[info [e|]] w1].
    { injection H as <- <- <- <-. by split_and!. }
    destruct (state_Open info w1) as [[st1 [e|]] w2].
    { injection H as <- <- <- <-. by split_and!. }
    injection H as <- <- <- <-. cbn.
    split_and!; try done. intros Hst. split; [done|].
    intros w''. by destruct st1.
Qed.

End Conn.
End ConnFacts.
(* ===================================================================== *)
(** * The install hook *)
(* ===================================================================== *)

Module InstallHookFacts.
Import install_hook.

(** The commands of a loop that ran its command [j] times with a sleep
    after each, and once more. *)
Abbreviation attempts j cmd :=
  (concat (replicate j [cmd; ["sleep"; "5"]]) ++ [cmd]).

(** The lines of such a loop; [gave_up] when it ended by [break]. *)
Abbreviation lines j gave_up :=
  (replicate j "Waiting 5 seconds"
   ++ if (gave_up : bool) then ["Waiting 5 seconds"; "Giving up."] else []).

Section Script.
Context (World : Type) (exec : list string → World → Z * World).

Abbreviation loop := (retry World exec).
Implicit Types (sh : shell World) (cmd : list string).

(** The loop, started with room for [k] more sleeps, ends within
    [k + 1] runs of the command. *)
Lemma retry_ends k cmd sh :
  try_count _ sh = 10 - Z.of_nat k →
  ∃ j gave_up sh',
    (j ≤ k)%nat
    ∧ (gave_up = true → j = k)
    ∧ ran _ sh' = ran _ sh ++ attempts j cmd
    ∧ stdout _ sh' = stdout _ sh ++ lines j gave_up
    ∧ ∀ fuel, (k < fuel)%nat → loop fuel cmd sh = Some sh'.
Proof.
  revert sh. induction k as [|k IH]; intros sh Hcount.
  - destruct (exec cmd (world _ sh)) as [status w1] eqn:Hexec.
    destruct (status =? 0) eqn:Hstatus.
    + exists O, false. eexists. split_and!; [done|done| | |].
      3:{ intros [|fuel] Hfuel; [lia|]. cbn [retry]. unfold run.
          rewrite Hexec, Hstatus. reflexivity. }
      * done.
      * cbn. by rewrite app_nil_r.
    + exists O, true. eexists. split_and!; [done|done| | |].
      3:{ intros [|fuel] Hfuel; [lia|]. cbn [retry]. unfold run.
          rewrite Hexec, Hstatus. cbn [echo try_count].
          rewrite Hcount. reflexivity. }
      * done.
      * cbn. by rewrite <- app_assoc.
  - destruct (exec cmd (world _ sh)) as [status w1] eqn:Hexec.
    destruct (status =? 0) eqn:Hstatus.
    + exists O, false. eexists. split_and!; [lia|done| | |].
      3:{ intros [|fuel] Hfuel; [lia|]. cbn [retry]. unfold run.
          rewrite Hexec, Hstatus. reflexivity. }
      * done.
      * cbn. by rewrite app_nil_r.
    + destruct (exec ["sleep"; "5"] w1) as [status2 w2] eqn:Hsleep.
      destruct (IH (mkShell _ (try_count _ sh + 1)
                      (stdout _ sh ++ ["Waiting 5 seconds"])
                      ((ran _ sh ++ [cmd]) ++ [["sleep"; "5"]]) w2))
        as (j & gave_up & sh' & Hj & Hgave & Hran & Hout & Hfuel).
      { cbn. lia. }
      exists (S j), gave_up, sh'. split_and!.
      * lia.
      * intros Hg. by rewrite (Hgave Hg).
      * rewrite Hran. cbn. by rewrite <- !app_assoc.
      * rewrite Hout. cbn. by rewrite <- !app_assoc.
      * intros [|fuel] Hlt; [lia|]. cbn [retry]. unfold run.
        rewrite Hexec, Hstatus. cbn [echo try_count world].
        assert ((try_count _ sh <? 10) = true) as -> by lia.
        rewrite Hsleep. cbn [set_try_count try_count stdout ran world].
        apply Hfuel. lia.
Qed.


End Script.
End InstallHookFacts.
(* ===================================================================== *)
(** * The properties of the code, at concrete inputs *)
(* ===================================================================== *)

Module CodeExamples.
Import Fixtures GoStrings Provider.
Import ProviderStorageFacts MicroK8sFacts KubeConfigFacts.
Import ModelGenerationFacts NameFacts ConnFacts.

(** ** Storage *)

Lemma UpdateKubeCloudWithStorage_success_region_witness :
  Update0 microk8s params_ok tt
  = (Returns (message_ok, None), microk8s_updated, tt)
  ∧ ∃ clusterMetadata w1 c region,
      GetClusterMetadata _ params_ok (MetadataChecker _ params_ok) tt
        = (Some clusterMetadata, None, w1)
      ∧ hostCloudRegion_of unit build0 params_ok clusterMetadata
          = Returns (cloud.HostCloudRegion microk8s_updated)
      ∧ ParseCloudRegion explode0 (cloud.HostCloudRegion microk8s_updated)
          = (c, region, None)
      ∧ cloud.Regions microk8s_updated = Some [cloud.mkRegion region ""]
      ∧ cloud.Name microk8s_updated = cloud.Name microk8s
      ∧ cloud.Type_ microk8s_updated = cloud.Type_ microk8s
      ∧ cloud.AuthTypes microk8s_updated = cloud.AuthTypes microk8s
      ∧ cloud.Endpoint microk8s_updated = cloud.Endpoint microk8s
      ∧ cloud.CACertificates microk8s_updated
        = cloud.CACertificates microk8s.
Proof.
  assert (Update0 microk8s params_ok tt
          = (Returns (message_ok, None), microk8s_updated, tt)) as H
    by (vm_compute; reflexivity).
  split; [exact H|].
  exact (UpdateKubeCloudWithStorage_success_region explode0 unit build0
           split0 isNonPreferred0 "workload-storage" "operator-storage"
           (λ s, s) Error0 microk8s params_ok tt message_ok
           microk8s_updated tt H).
Defined.

Lemma UpdateKubeCloudWithStorage_storage_defaults_witness :
  "workload-storage" ≠ "operator-storage"
  ∧ Update0 microk8s params_ok tt
    = (Returns (message_ok, None), microk8s_updated, tt)
  ∧ ∃ clusterMetadata w1 cfg',
      GetClusterMetadata _ params_ok (MetadataChecker _ params_ok) tt
        = (Some clusterMetadata, None, w1)
      ∧ cloud.Config microk8s_updated = Some cfg'
      ∧ let cfg := default ∅ (cloud.Config microk8s) in
        let workload :=
          match caas.NominatedStorageClass clusterMetadata with
          | Some nominated =>
              if String.eqb (WorkloadStorage _ params_ok) ""
              then caas.Name nominated else WorkloadStorage _ params_ok
          | None => WorkloadStorage _ params_ok
          end in
        let operator :=
          match caas.OperatorStorageClass clusterMetadata with
          | Some operator => caas.Name operator
          | None => workload
          end in
        cfg' !! "workload-storage"
          = Some (default (IString workload) (cfg !! "workload-storage"))
        ∧ cfg' !! "operator-storage"
          = Some (default (IString operator) (cfg !! "operator-storage"))
        ∧ ∀ k, k ≠ "workload-storage" → k ≠ "operator-storage" →
               cfg' !! k = cfg !! k.
Proof.
  assert ("workload-storage" ≠ "operator-storage") as Hkeys by done.
  assert (Update0 microk8s params_ok tt
          = (Returns (message_ok, None), microk8s_updated, tt)) as H
    by (vm_compute; reflexivity).
  split; [exact Hkeys|]. split; [exact H|].
  exact (UpdateKubeCloudWithStorage_storage_defaults explode0 unit build0
           split0 isNonPreferred0 "workload-storage" "operator-storage"
           (λ s, s) Error0 microk8s params_ok tt message_ok
           microk8s_updated tt Hkeys H).
Defined.

Lemma UpdateKubeCloudWithStorage_failure_frame_witness :
  Update0 microk8s params_query tt
  = (Returns ("", Some (Trace (ClusterQueryError "no storage"))),
     microk8s_region_only, tt)
  ∧ (∀ msg, Returns ("", Some (Trace (ClusterQueryError "no storage")))
            ≠ Returns (msg, None))
  ∧ (microk8s_region_only = microk8s
     ∨ ∃ hostCloudRegion c region,
         ParseCloudRegion explode0 hostCloudRegion = (c, region, None)
         ∧ microk8s_region_only
           = set_region microk8s hostCloudRegion region).
Proof.
  assert (Update0 microk8s params_query tt
          = (Returns ("", Some (Trace (ClusterQueryError "no storage"))),
             microk8s_region_only, tt)) as H
    by (vm_compute; reflexivity).
  assert (∀ msg, Returns ("", Some (Trace (ClusterQueryError "no storage")))
                 ≠ Returns (msg, None)) as Hres by (intros msg [=]).
  split; [exact H|]. split; [exact Hres|].
  exact (UpdateKubeCloudWithStorage_failure_frame explode0 unit build0
           split0 isNonPreferred0 "workload-storage" "operator-storage"
           (λ s, s) Error0 microk8s params_query tt _
           microk8s_region_only tt H Hres).
Defined.

Lemma UpdateKubeCloudWithStorage_named_storage_errors_witness :
  WorkloadStorage _ params_named ≠ ""
  ∧ Update0 microk8s params_named tt
    = (Returns ("", Some (Wrap (NotFoundf "storage class %q" ["fast"])
                            (NotFoundf "storage class %q" ["fast"]))),
       set_region microk8s "gce/us-east1" "us-east1", tt)
  ∧ ((∃ m, Wrap (NotFoundf "storage class %q" ["fast"])
             (NotFoundf "storage class %q" ["fast"])
           = ClusterQueryError m)
     ∨ (∃ e0 hostCloudRegion,
           Wrap (NotFoundf "storage class %q" ["fast"])
             (NotFoundf "storage class %q" ["fast"])
           = Annotatef e0 "validating cloud region %q" [hostCloudRegion])
     ∨ (∃ e0, Wrap (NotFoundf "storage class %q" ["fast"])
                (NotFoundf "storage class %q" ["fast"])
              = Wrap e0 (NotFoundf "storage class %q"
                           [WorkloadStorage _ params_named]))
     ∨ (∃ e0, Wrap (NotFoundf "storage class %q" ["fast"])
                (NotFoundf "storage class %q" ["fast"])
              = Annotatef e0 "creating storage class %q"
                  [WorkloadStorage _ params_named])).
Proof.
  assert (WorkloadStorage _ params_named ≠ "") as Hnamed by done.
  assert (Update0 microk8s params_named tt
          = (Returns ("", Some (Wrap (NotFoundf "storage class %q" ["fast"])
                                  (NotFoundf "storage class %q" ["fast"]))),
             set_region microk8s "gce/us-east1" "us-east1", tt)) as H
    by (vm_compute; reflexivity).
  split; [exact Hnamed|]. split; [exact H|].
  exact (UpdateKubeCloudWithStorage_named_storage_errors explode0 unit
           build0 split0 isNonPreferred0 "workload-storage"
           "operator-storage" (λ s, s) Error0 microk8s params_named tt
           "" _ _ tt Hnamed H).
Defined.

Lemma UpdateKubeCloudWithStorage_default_storage_checked_witness :
  WorkloadStorage _ params_ok = ""
  ∧ Update0 microk8s params_ok tt
    = (Returns (message_ok, None), microk8s_updated, tt)
  ∧ ∃ clusterMetadata w1 cloudType rest,
      GetClusterMetadata _ params_ok (MetadataChecker _ params_ok) tt
        = (Some clusterMetadata, None, w1)
      ∧ split0 (cloud.HostCloudRegion microk8s_updated) = cloudType :: rest
      ∧ caas.CheckDefaultWorkloadStorage (MetadataChecker _ params_ok)
          cloudType (caas.NominatedStorageClass clusterMetadata) w1
        = (None, tt).
Proof.
  assert (WorkloadStorage _ params_ok = "") as Hnone by reflexivity.
  assert (Update0 microk8s params_ok tt
          = (Returns (message_ok, None), microk8s_updated, tt)) as H
    by (vm_compute; reflexivity).
  split; [exact Hnone|]. split; [exact H|].
  exact (UpdateKubeCloudWithStorage_default_storage_checked explode0 unit
           build0 split0 isNonPreferred0 "workload-storage"
           "operator-storage" (λ s, s) Error0 microk8s params_ok tt
           message_ok microk8s_updated tt Hnone H).
Defined.

(** ** MicroK8s *)

Lemma microK8sStatus_exit_code_witness :
  RunCommands unit (runner 1 "" "microk8s is not running")
    status_command tt
  = (Some (mkExecResponse 1 "" "microk8s is not running"), None, tt)
  ∧ Code (mkExecResponse 1 "" "microk8s is not running") ≠ 0
  ∧ ∃ msg,
      microK8sStatus unit unmarshal0
        (runner 1 "" "microk8s is not running") tt
      = (Returns (mkMicrok8sStatus None, Some (errors.New msg)), tt)
      ∧ msg ≠ ""
      ∧ (Stderr (mkExecResponse 1 "" "microk8s is not running") ≠ "" →
         msg = Stderr (mkExecResponse 1 "" "microk8s is not running"))
      ∧ (Stderr (mkExecResponse 1 "" "microk8s is not running") = "" →
         Stdout (mkExecResponse 1 "" "microk8s is not running") ≠ "" →
         msg = Stdout (mkExecResponse 1 "" "microk8s is not running"))
      ∧ (Stderr (mkExecResponse 1 "" "microk8s is not running") = "" →
         Stdout (mkExecResponse 1 "" "microk8s is not running") = "" →
         msg = "unknown error running microk8s.status").
Proof.
  assert (RunCommands unit (runner 1 "" "microk8s is not running")
            status_command tt
          = (Some (mkExecResponse 1 "" "microk8s is not running"), None, tt))
    as Hrun by reflexivity.
  assert (Code (mkExecResponse 1 "" "microk8s is not running") ≠ 0)
    as Hcode by done.
  split; [exact Hrun|]. split; [exact Hcode|].
  exact (microK8sStatus_exit_code unit unmarshal0
           (runner 1 "" "microk8s is not running") tt _ tt Hrun Hcode).
Defined.

Lemma FinalizeCloud_success_witness :
  FinalizeCloud0 provider_ok microk8s tt
  = (Returns (microk8s_finalized, None), tt)
  ∧ (microk8s_finalized = microk8s
     ∨ (cloud.Name microk8s = "microk8s"
        ∧ (index (cloud.Config microk8s) "operator-storage" = None
           ∨ index (cloud.Config microk8s) "operator-storage"
             = Some (IString ""))
        ∧ ∃ w0 mk8sCloud credential name w1 openParams w2 broker w3
            clusterMetadata w4 regions first rest c region cfg,
            ensureMicroK8sSuitable unit unmarshal0
              (cmdRunner _ _ _ _ provider_ok) tt = (Returns None, w0)
            ∧ builtinCloudGetter _ _ _ _ provider_ok
                (cmdRunner _ _ _ _ provider_ok) w0
              = (mk8sCloud, credential, name, None, w1)
            ∧ BaseKubeCloudOpenParams unit unit string
                (gmap string iface) bool unit
                (λ w, (("6ba7b810", None), w)) (λ u, u) false
                "name" "type" "uuid" (λ _ attrs, (Some attrs, None)) tt
                (λ _ _ _, (tt, None)) mk8sCloud credential w1
              = (openParams, None, w2)
            ∧ brokerGetter _ _ _ _ provider_ok openParams w2
              = (Some broker, None, w3)
            ∧ caas.GetClusterMetadata broker "" w3
              = (Some clusterMetadata, None, w4)
            ∧ cloud.Name microk8s_finalized = cloud.Name mk8sCloud
            ∧ cloud.Endpoint microk8s_finalized = cloud.Endpoint mk8sCloud
            ∧ caas.Regions clusterMetadata = Some regions
            ∧ caas.SortedValues regions = first :: rest
            ∧ cloud.HostCloudRegion microk8s_finalized
              = build0 (caas.Cloud clusterMetadata) first
            ∧ ParseCloudRegion explode0
                (cloud.HostCloudRegion microk8s_finalized)
              = (c, region, None)
            ∧ cloud.Regions microk8s_finalized
              = Some [cloud.mkRegion region
                        (cloud.Endpoint microk8s_finalized)]
            ∧ cloud.Config microk8s_finalized = Some cfg
            ∧ is_Some (cfg !! "workload-storage")
            ∧ is_Some (cfg !! "operator-storage"))).
Proof.
  assert (FinalizeCloud0 provider_ok microk8s tt
          = (Returns (microk8s_finalized, None), tt)) as H
    by (vm_compute; reflexivity).
  split; [exact H|].
  exact (FinalizeCloud_success unit unmarshal0 unit string
           (gmap string iface) bool unit (λ w, (("6ba7b810", None), w))
           (λ u, u) false "name" "type" "uuid"
           (λ _ attrs, (Some attrs, None)) tt (λ _ _ _, (tt, None))
           "microk8s" explode0 build0 split0 isNonPreferred0
           "workload-storage" "operator-storage" (λ s, s) Error0
           provider_ok microk8s tt microk8s_finalized tt H).
Defined.

Lemma FinalizeCloud_error_witness :
  FinalizeCloud0 provider_down microk8s tt
  = (Returns (microk8s,
              Some (Trace (Trace (Errorf "microk8s is not running")))), tt)
  ∧ cloud.Name microk8s = "microk8s"
  ∧ ∃ e0, Trace (Trace (Errorf "microk8s is not running")) = Trace e0
      ∧ ((microk8s = microk8s
          ∧ ensureMicroK8sSuitable unit unmarshal0
              (cmdRunner _ _ _ _ provider_down) tt
            = (Returns (Some e0), tt))
         ∨ (microk8s = zeroCloud
            ∧ ∃ w0, ensureMicroK8sSuitable unit unmarshal0
                      (cmdRunner _ _ _ _ provider_down) tt
                    = (Returns None, w0))).
Proof.
  assert (FinalizeCloud0 provider_down microk8s tt
          = (Returns (microk8s,
                      Some (Trace (Trace (Errorf "microk8s is not running")))),
             tt)) as H
    by (vm_compute; reflexivity).
  split; [exact H|].
  exact (FinalizeCloud_error unit unmarshal0 unit string
           (gmap string iface) bool unit (λ w, (("6ba7b810", None), w))
           (λ u, u) false "name" "type" "uuid"
           (λ _ attrs, (Some attrs, None)) tt (λ _ _ _, (tt, None))
           "microk8s" explode0 build0 split0 isNonPreferred0
           "workload-storage" "operator-storage" (λ s, s) Error0
           provider_down microk8s tt microk8s _ tt H).
Defined.

(** ** Kubeconfig *)

Lemma MapKeys0_keys (m : gmap string clientconfig.Context) k :
  k ∈ MapKeys0 m → is_Some (m !! k).
Proof.
  unfold MapKeys0. intros Hk.
  apply list_elem_of_fmap in Hk as ([k' x] & -> & Hin).
  apply elem_of_map_to_list in Hin. by exists x.
Qed.

Lemma newCloudCredentialFromKubeConfig_success_witness :
  (∀ m k, k ∈ MapKeys0 m → is_Some (m !! k))
  ∧ newCloud0 tt (kube_params (IString "cert")) tt
    = (Returns
         (cloud.mkCloud "mycloud" "kubernetes" ["userpass"]
            "https://1.2.3.4" None None ["cert"] "gce/us-east1",
          "userpass", "admin", None), tt)
  ∧ ∃ clientConfigFunc w1 caasConfig contexts key context currentCloud
        cloudCAData,
      ClientConfigGetter _ _ _ _ (kube_params (IString "cert"))
        (CaasType _ _ _ _ (kube_params (IString "cert"))) tt
        = (Some clientConfigFunc, None, w1)
      ∧ clientConfigFunc tt
          (ContextName _ _ _ _ (kube_params (IString "cert")))
          (ClusterName _ _ _ _ (kube_params (IString "cert"))) tt w1
        = (Some caasConfig, None, tt)
      ∧ clientconfig.Contexts caasConfig = Some contexts
      ∧ key ∈ MapKeys0 contexts
      ∧ contexts !! key = Some context
      ∧ "admin" = clientconfig.CredentialName context
      ∧ "userpass"
        = default ""
            (index (clientconfig.Credentials caasConfig) "admin")
      ∧ index (clientconfig.Clouds caasConfig)
          (clientconfig.CloudName context) = Some currentCloud
      ∧ index (clientconfig.Attributes currentCloud) "CAData"
        = Some (IString cloudCAData)
      ∧ cloud.mkCloud "mycloud" "kubernetes" ["userpass"]
          "https://1.2.3.4" None None ["cert"] "gce/us-east1"
        = cloud.mkCloud (CaasName _ _ _ _ (kube_params (IString "cert")))
            (CaasType _ _ _ _ (kube_params (IString "cert"))) ["userpass"]
            (clientconfig.Endpoint currentCloud) None None
            [cloudCAData]
            (KubeCloudParams_HostCloudRegion _ _ _ _
               (kube_params (IString "cert"))).
Proof.
  assert (newCloud0 tt (kube_params (IString "cert")) tt
          = (Returns
               (cloud.mkCloud "mycloud" "kubernetes" ["userpass"]
                  "https://1.2.3.4" None None ["cert"] "gce/us-east1",
                "userpass", "admin", None), tt)) as H
    by (vm_compute; reflexivity).
  split; [exact MapKeys0_keys|]. split; [exact H|].
  exact (newCloudCredentialFromKubeConfig_success unit unit string unit
           "" (λ c, c) tt MapKeys0 tt (kube_params (IString "cert")) tt
           _ _ _ tt MapKeys0_keys H).
Defined.

Lemma newCloudCredentialFromKubeConfig_failure_witness :
  newCloud0 tt (kube_params (IInt 1)) tt
  = (Returns (zeroCloud, "userpass", "",
              Some (Errorf "CAData attribute should be a string")), tt)
  ∧ zeroCloud = zeroCloud ∧ "" = ""
  ∧ ("userpass" = ""
     ∨ Errorf "CAData attribute should be a string"
       = Errorf "CAData attribute should be a string"
       ∧ ∃ clientConfigFunc w1 caasConfig contexts key keys,
           ClientConfigGetter _ _ _ _ (kube_params (IInt 1))
             (CaasType _ _ _ _ (kube_params (IInt 1))) tt
           = (Some clientConfigFunc, None, w1)
           ∧ clientConfigFunc tt
               (ContextName _ _ _ _ (kube_params (IInt 1)))
               (ClusterName _ _ _ _ (kube_params (IInt 1))) tt w1
             = (Some caasConfig, None, tt)
           ∧ clientconfig.Contexts caasConfig = Some contexts
           ∧ MapKeys0 contexts = key :: keys
           ∧ "userpass"
             = default ""
                 (index (clientconfig.Credentials caasConfig)
                    (clientconfig.CredentialName
                       (default (clientconfig.mkContext "" "")
                          (contexts !! key))))).
Proof.
  assert (newCloud0 tt (kube_params (IInt 1)) tt
          = (Returns (zeroCloud, "userpass", "",
                      Some (Errorf "CAData attribute should be a string")),
             tt)) as H
    by (vm_compute; reflexivity).
  split; [exact H|].
  exact (newCloudCredentialFromKubeConfig_failure unit unit string unit
           "" (λ c, c) tt MapKeys0 tt (kube_params (IInt 1)) tt
           _ _ _ _ tt H).
Defined.

(** ** The model generation client *)

Lemma NewUnitTag0_returns e :
  regexp.MatchString juju.ValidUnit e = true →
  ∃ tag, NewUnitTag0 e = Returns tag.
Proof. intros _. by eexists. Qed.

Lemma AdvanceGeneration_rejects_witness :
  (∀ e, regexp.MatchString juju.ValidUnit e = true →
        ∃ tag, NewUnitTag0 e = Returns tag)
  ∧ (["mysql"; "!bad"] = []
     ∨ Exists (λ e, regexp.MatchString juju.ValidService e = false
                    ∧ regexp.MatchString juju.ValidUnit e = false)
         ["mysql"; "!bad"])
  ∧ ∃ msg,
      AdvanceGeneration0 client0 "m" ["mysql"; "!bad"] []
      = (Returns (Some (Trace (errors.New msg))), [])
      ∧ (["mysql"; "!bad"] = [] →
         msg = "No units or applications to advance")
      ∧ (["mysql"; "!bad"] ≠ [] → msg = "Must be application or unit").
Proof.
  assert (["mysql"; "!bad"] = []
          ∨ Exists (λ e, regexp.MatchString juju.ValidService e = false
                         ∧ regexp.MatchString juju.ValidUnit e = false)
              ["mysql"; "!bad"]) as Hbad.
  { right. apply Exists_cons_tl, Exists_cons_hd.
    split; vm_compute; reflexivity. }
  split; [exact NewUnitTag0_returns|]. split; [exact Hbad|].
  exact (AdvanceGeneration_rejects (list string) string nat
           (λ model, "model-" +:+ model)
           (regexp.MatchString juju.ValidService)
           (regexp.MatchString juju.ValidUnit)
           (λ name, "application-" +:+ name) NewUnitTag0 (λ _, None)
           client0 "m" ["mysql"; "!bad"] [] NewUnitTag0_returns Hbad).
Defined.

Lemma AdvanceGeneration_calls_witness :
  (∀ e, regexp.MatchString juju.ValidUnit e = true →
        ∃ tag, NewUnitTag0 e = Returns tag)
  ∧ ["mysql"; "mysql/0"] ≠ []
  ∧ Forall (λ e, regexp.MatchString juju.ValidService e = true
                 ∨ regexp.MatchString juju.ValidUnit e = true)
      ["mysql"; "mysql/0"]
  ∧ ∃ tags,
      Forall2
        (λ e tag,
           if regexp.MatchString juju.ValidService e
           then tag = modelgeneration.mkEntity ("application-" +:+ e)
           else regexp.MatchString juju.ValidUnit e = true
                ∧ NewUnitTag0 e = Returns (modelgeneration.Tag tag))
        ["mysql"; "mysql/0"] tags
      ∧ AdvanceGeneration0 client0 "m" ["mysql"; "mysql/0"] []
        = let '(results, err, w') :=
            modelgeneration.FacadeCall_results _ _
              (modelgeneration.facade _ _ client0) "AdvanceGeneration"
              (modelgeneration.ParamsAdvanceGeneration _
                 (modelgeneration.mkAdvanceGenerationArg
                    (modelgeneration.mkEntity ("model-" +:+ "m")) tags))
              [] in
          (Returns match err with
                   | Some e => Some (Trace e)
                   | None => None
                   end, w').
Proof.
  assert (["mysql"; "mysql/0"] ≠ []) as Hne by done.
  assert (Forall (λ e, regexp.MatchString juju.ValidService e = true
                       ∨ regexp.MatchString juju.ValidUnit e = true)
            ["mysql"; "mysql/0"]) as Hall.
  { constructor; [left; vm_compute; reflexivity|].
    constructor; [right; vm_compute; reflexivity|]. constructor. }
  split; [exact NewUnitTag0_returns|]. split; [exact Hne|].
  split; [exact Hall|].
  exact (AdvanceGeneration_calls (list string) string nat
           (λ model, "model-" +:+ model)
           (regexp.MatchString juju.ValidService)
           (regexp.MatchString juju.ValidUnit)
           (λ name, "application-" +:+ name) NewUnitTag0 (λ _, None)
           client0 "m" ["mysql"; "mysql/0"] [] NewUnitTag0_returns
           Hne Hall).
Defined.

Lemma SwitchGeneration_version_checked_witness :
  "previous" ≠ "current" ∧ "previous" ≠ "next"
  ∧ SwitchGeneration0 client0 "m" "previous" []
    = (Some (Trace (errors.New "version must be 'next' or 'current'")), []).
Proof.
  assert ("previous" ≠ "current") as Hcur by done.
  assert ("previous" ≠ "next") as Hnext by done.
  split; [exact Hcur|]. split; [exact Hnext|].
  exact (proj2 (SwitchGeneration_version_checked (list string) string nat
                  (λ model, "model-" +:+ model) 1%nat 2%nat
                  client0 "m" "previous" [] []) Hcur Hnext).
Defined.

(** ** The connection and the names *)

Lemma State_cached_witness :
  juju.State nat unit string nat state_Open0 conn0 0%nat
  = (Returns (Some 0%nat, None),
     juju.mkConn nat unit string nat (Some environ0) (Some 0%nat), 1%nat)
  ∧ juju.Conn_Environ _ _ _ _
      (juju.mkConn nat unit string nat (Some environ0) (Some 0%nat))
    = juju.Conn_Environ _ _ _ _ conn0
  ∧ juju.state _ _ _ _
      (juju.mkConn nat unit string nat (Some environ0) (Some 0%nat))
    = Some 0%nat
  ∧ (@None error ≠ None →
     Some 0%nat = None
     ∧ juju.mkConn nat unit string nat (Some environ0) (Some 0%nat) = conn0)
  ∧ (Some 0%nat ≠ None →
     @None error = None
     ∧ ∀ w'',
         juju.State nat unit string nat state_Open0
           (juju.mkConn nat unit string nat (Some environ0) (Some 0%nat)) w''
         = (Returns (Some 0%nat, None),
            juju.mkConn nat unit string nat (Some environ0) (Some 0%nat),
            w'')).
Proof.
  assert (juju.State nat unit string nat state_Open0 conn0 0%nat
          = (Returns (Some 0%nat, None),
             juju.mkConn nat unit string nat (Some environ0) (Some 0%nat),
             1%nat)) as H by reflexivity.
  split; [exact H|].
  exact (State_cached nat unit string nat state_Open0 conn0 0%nat
           (Some 0%nat) None
           (juju.mkConn nat unit string nat (Some environ0) (Some 0%nat))
           1%nat H).
Defined.

Lemma ValidService_shape_witness :
  regexp.MatchString juju.ValidService "wordpress-db2" = true
  ∧ (∃ c rest, "wordpress-db2" = String c rest ∧ is_lower c)
  ∧ ("/"%char ∉ regexp.chars "wordpress-db2")
  ∧ ∀ p q, regexp.chars "wordpress-db2" = p ++ "-"%char :: q →
      ∃ x c y, q = x ++ c :: y
               ∧ Forall (λ c, is_lower_digit c) x ∧ is_lower c.
Proof.
  assert (regexp.MatchString juju.ValidService "wordpress-db2" = true) as H
    by (vm_compute; reflexivity).
  split; [exact H|].
  exact (ValidService_shape "wordpress-db2" H).
Defined.

Lemma ValidUnit_service_unique_witness :
  regexp.MatchString juju.ValidService "wordpress" = true
  ∧ "wordpress" +:+ "/" +:+ "0" = "wordpress" +:+ "/" +:+ "0"
  ∧ "wordpress" = "wordpress" ∧ "0" = "0".
Proof.
  assert (regexp.MatchString juju.ValidService "wordpress" = true) as H
    by (vm_compute; reflexivity).
  split; [exact H|]. split; [reflexivity|].
  exact (ValidUnit_service_unique "wordpress" "0" "wordpress" "0" H H
           eq_refl).
Defined.

End CodeExamples.
